(** * lespetitsvendredis: crawler and static site generator

    A shallow embedding of [scripts/generate.ts] and [scripts/crawl.ts]:
    the French date helpers, the HTML escaping and excerpt helpers, the
    attachment filter, the image resolution, the content cleaning over a
    DOM tree, the page templates and the crawler's URL filter.

    JavaScript strings are sequences of UTF-16 code units; they are
    modelled as [list N].  Objects used as dictionaries are association
    lists in [Object.entries] order; only own properties are looked up. *)

From Stdlib Require Import List NArith ZArith Lia Bool String Ascii.
From Stdlib Require Import Permutation Sorted.
Import ListNotations.

Set Implicit Arguments.
Set Warnings "-register-all".

(* ================================================================== *)
(** * JavaScript strings, numbers and the built-ins the scripts use     *)
(* ================================================================== *)

Module JS.

Definition jsstring := list N.

(** ** String literals

    Rocq string literals are byte strings; [lit] decodes the UTF-8 bytes
    of a literal (one to three bytes per character, which covers the
    Basic Multilingual Plane) into code units. *)

Fixpoint bytes (s : string) : list N :=
  match s with
  | EmptyString => []
  | String c r => N_of_ascii c :: bytes r
  end.

Fixpoint utf8 (bs : list N) : jsstring :=
  match bs with
  | [] => []
  | b0 :: r =>
      if (b0 <? 128)%N then b0 :: utf8 r
      else if (b0 <? 224)%N then
        match r with
        | b1 :: r' => ((b0 - 192) * 64 + (b1 - 128))%N :: utf8 r'
        | [] => []
        end
      else
        match r with
        | b1 :: b2 :: r' =>
            ((b0 - 224) * 4096 + (b1 - 128) * 64 + (b2 - 128))%N :: utf8 r'
        | _ => []
        end
  end.

Definition lit (s : string) : jsstring := utf8 (bytes s).

(** ** Equality, prefixes, search *)

Fixpoint eqb (a b : jsstring) : bool :=
  match a, b with
  | [], [] => true
  | x :: a', y :: b' => (x =? y)%N && eqb a' b'
  | _, _ => false
  end.

(** [s.startsWith(p)] *)
Fixpoint startsWith (p s : jsstring) : bool :=
  match p, s with
  | [], _ => true
  | x :: p', y :: s' => (x =? y)%N && startsWith p' s'
  | _ :: _, [] => false
  end.

(** [s.includes(p)] *)
Fixpoint includes (p s : jsstring) : bool :=
  startsWith p s ||
  match s with
  | [] => false
  | _ :: s' => includes p s'
  end.

(** [s.slice(0, n)] and [s.slice(n)] for [0 <= n] are [firstn] and [skipn]. *)
Definition slice0 (n : nat) (s : jsstring) : jsstring := firstn n s.

(** [s.replace(p, r)] with a string pattern: the first occurrence only. *)
Fixpoint replaceFirst (p r s : jsstring) : jsstring :=
  if startsWith p s then r ++ skipn (List.length p) s
  else match s with
       | [] => []
       | c :: s' => c :: replaceFirst p r s'
       end.

(** [s.replace(/p/g, r)] for a pattern that is a fixed non-empty string:
    every occurrence, scanning left to right, without rescanning the
    replacement. The scan is driven by a fuel that the length of [s]
    always covers. *)
Fixpoint replaceAll_fuel (fuel : nat) (p r s : jsstring) : jsstring :=
  match fuel with
  | O => s
  | S f =>
      match s with
      | [] => []
      | c :: s' =>
          if startsWith p s && negb (Nat.eqb (List.length p) 0)
          then r ++ replaceAll_fuel f p r (skipn (List.length p) s)
          else c :: replaceAll_fuel f p r s'
      end
  end.

Definition replaceAll (p r s : jsstring) : jsstring :=
  replaceAll_fuel (List.length s) p r s.

(** [s.split(c)[0]] for a one-character separator: the text before the
    first occurrence. *)
Fixpoint beforeChar (c : N) (s : jsstring) : jsstring :=
  match s with
  | [] => []
  | x :: s' => if (x =? c)%N then [] else x :: beforeChar c s'
  end.

(** [s.split(c)] for a one-character separator. *)
Fixpoint splitChar (c : N) (s : jsstring) : list jsstring :=
  match s with
  | [] => [[]]
  | x :: s' =>
      if (x =? c)%N then [] :: splitChar c s'
      else match splitChar c s' with
           | t :: ts => (x :: t) :: ts
           | [] => [[x]]
           end
  end.

(** [s.lastIndexOf(c)] for a one-character needle; [None] is -1. *)
Fixpoint lastIndexOf (c : N) (s : jsstring) : option nat :=
  match s with
  | [] => None
  | x :: s' =>
      match lastIndexOf c s' with
      | Some i => Some (S i)
      | None => if (x =? c)%N then Some O else None
      end
  end.

(** ** Character classes *)

(** WhiteSpace and LineTerminator code units: what [\s] matches and what
    [trim] strips. *)
Definition isSpace (c : N) : bool :=
  ((9 <=? c) && (c <=? 13) || (c =? 32) || (c =? 160) || (c =? 5760)
   || (8192 <=? c) && (c <=? 8202) || (c =? 8232) || (c =? 8233)
   || (c =? 8239) || (c =? 8287) || (c =? 12288) || (c =? 65279))%N.

(** [\d] *)
Definition isDigit (c : N) : bool := ((48 <=? c) && (c <=? 57))%N.

(** [\w] : ASCII letters, digits and the underscore *)
Definition isWord (c : N) : bool :=
  ((48 <=? c) && (c <=? 57) || (65 <=? c) && (c <=? 90)
   || (97 <=? c) && (c <=? 122) || (c =? 95))%N.

(** ** trim and split(/\s+/) *)

Fixpoint trimStart (s : jsstring) : jsstring :=
  match s with
  | [] => []
  | c :: s' => if isSpace c then trimStart s' else s
  end.

Definition trimEnd (s : jsstring) : jsstring := rev (trimStart (rev s)).

Definition trim (s : jsstring) : jsstring := trimEnd (trimStart s).

(** [s.split(/\s+/)]: every maximal run of white space separates two
    fields; a run at either end leaves an empty field there. *)
Fixpoint splitWs (s : jsstring) : list jsstring :=
  match s with
  | [] => [[]]
  | c :: r =>
      if isSpace c then
        match r with
        | c' :: _ => if isSpace c' then splitWs r else [] :: splitWs r
        | [] => [] :: splitWs r
        end
      else
        match splitWs r with
        | t :: ts => (c :: t) :: ts
        | [] => [[c]]
        end
  end.

(** ** Numbers

    [parseInt(s, 10)] yields NaN ([None]) or an integer. The scripts only
    feed the integers to [Date] and to truthiness tests, where the
    rounding of integers beyond 2^53 makes no difference (such values are
    far outside the range of [Date]), so the integer is kept exact. *)

Fixpoint takeDigits (s : jsstring) : jsstring :=
  match s with
  | [] => []
  | c :: s' => if isDigit c then c :: takeDigits s' else []
  end.

Definition digitsValue (ds : jsstring) : N :=
  fold_left (fun acc c => (acc * 10 + (c - 48))%N) ds 0%N.

Definition parseInt10 (s : jsstring) : option Z :=
  let t := trimStart s in
  let '(neg, body) :=
    match t with
    | 45%N :: r => (true, r)
    | 43%N :: r => (false, r)
    | _ => (false, t)
    end in
  match takeDigits body with
  | [] => None
  | ds => Some (if neg then (- Z.of_N (digitsValue ds))%Z
                else Z.of_N (digitsValue ds))
  end.

(** [String(n)] for a natural number: its decimal digits. *)
Fixpoint showN_fuel (fuel : nat) (n : N) (acc : jsstring) : jsstring :=
  match fuel with
  | O => acc
  | S f =>
      if (n <? 10)%N then (48 + n)%N :: acc
      else showN_fuel f (n / 10)%N ((48 + n mod 10)%N :: acc)
  end.

Definition showN (n : N) : jsstring :=
  showN_fuel (S (N.to_nat (N.log2 n))) n [].

(** [String(z)] for an integer. *)
Definition showZ (z : Z) : jsstring :=
  match z with
  | Zneg p => 45%N :: showN (Npos p)
  | _ => showN (Z.to_N z)
  end.

(** [String(n).padStart(2, "0")] *)
Definition padStart2 (s : jsstring) : jsstring :=
  match s with
  | [] => [48; 48]%N
  | [c] => [48%N; c]
  | _ => s
  end.

(** ** [Date]

    A [Date] object holds a time value in milliseconds since the epoch,
    or NaN. The day and year arithmetic follows ECMA-262 (Day,
    DayFromYear, YearFromTime, MonthFromTime, DateFromTime, MakeDay,
    MakeDate, TimeClip). Local time is taken to be UTC. *)

Inductive Date :=
| DateAt (tv : Z)
| InvalidDate.

Definition msPerDay : Z := 86400000.
Definition maxTime : Z := 8640000000000000.

Definition dayFromYear (y : Z) : Z :=
  365 * (y - 1970) + (y - 1969) / 4 - (y - 1901) / 100 + (y - 1601) / 400.

Definition inLeapYear (y : Z) : bool :=
  ((y mod 4 =? 0) && (negb (y mod 100 =? 0) || (y mod 400 =? 0)))%Z.

(** The largest [y] with [dayFromYear y <= d]: an estimate from the mean
    year length, corrected by at most one. *)
Definition yearFromDay (d : Z) : Z :=
  let e := (1970 + (400 * d) / 146097)%Z in
  if (dayFromYear (e + 1) <=? d)%Z then (e + 1)%Z
  else if (dayFromYear e <=? d)%Z then e
  else (e - 1)%Z.

(** Day number within the year of the first day of month [m] (0-based). *)
Definition monthStart (leap : bool) (m : Z) : Z :=
  let l : Z := (if leap then 1 else 0)%Z in
  match m with
  | 0 => 0
  | 1 => 31
  | 2 => 59 + l
  | 3 => 90 + l
  | 4 => 120 + l
  | 5 => 151 + l
  | 6 => 181 + l
  | 7 => 212 + l
  | 8 => 243 + l
  | 9 => 273 + l
  | 10 => 304 + l
  | _ => 334 + l
  end%Z.

Definition monthFromDayInYear (leap : bool) (d : Z) : Z :=
  (if d <? monthStart leap 1 then 0
   else if d <? monthStart leap 2 then 1
   else if d <? monthStart leap 3 then 2
   else if d <? monthStart leap 4 then 3
   else if d <? monthStart leap 5 then 4
   else if d <? monthStart leap 6 then 5
   else if d <? monthStart leap 7 then 6
   else if d <? monthStart leap 8 then 7
   else if d <? monthStart leap 9 then 8
   else if d <? monthStart leap 10 then 9
   else if d <? monthStart leap 11 then 10
   else 11)%Z.

(** [MakeDay(year, month, date)] for integer arguments, computed as the
    engines do, without a range check of its own: an out-of-range result
    is rejected by [TimeClip]. *)
Definition makeDay (year month date : Z) : Z :=
  let ym := (year + month / 12)%Z in
  let mn := (month mod 12)%Z in
  (dayFromYear ym + monthStart (inLeapYear ym) mn + date - 1)%Z.

Definition timeClip (t : Z) : Date :=
  if (Z.abs t <=? maxTime)%Z then DateAt t else InvalidDate.

(** [new Date(year, month, date)] for integer arguments: a year from 0 to
    99 stands for 1900 + year; the time within the day is 0. *)
Definition newDate (year month date : Z) : Date :=
  let yr := if ((0 <=? year) && (year <=? 99))%Z then (1900 + year)%Z else year in
  timeClip (makeDay yr month date * msPerDay).

(** The getters; [None] is NaN. *)
Definition getTime (dt : Date) : option Z :=
  match dt with DateAt t => Some t | InvalidDate => None end.

Definition getFullYear (dt : Date) : option Z :=
  match dt with
  | DateAt t => Some (yearFromDay (t / msPerDay))
  | InvalidDate => None
  end.

Definition getMonth (dt : Date) : option Z :=
  match dt with
  | DateAt t =>
      let d := (t / msPerDay)%Z in
      let y := yearFromDay d in
      Some (monthFromDayInYear (inLeapYear y) (d - dayFromYear y))
  | InvalidDate => None
  end.

Definition getDate (dt : Date) : option Z :=
  match dt with
  | DateAt t =>
      let d := (t / msPerDay)%Z in
      let y := yearFromDay d in
      let diy := (d - dayFromYear y)%Z in
      let leap := inLeapYear y in
      Some (diy - monthStart leap (monthFromDayInYear leap diy) + 1)%Z
  | InvalidDate => None
  end.

(** A number inside a template literal. *)
Definition showNumber (n : option Z) : jsstring :=
  match n with
  | Some z => showZ z
  | None => lit "NaN"
  end.

(** ** Regular expressions

    The patterns of the scripts are written in a small regular-expression
    syntax and matched through derivatives. [matchLen] yields the longest
    match at the start of its input and [search] the leftmost start with
    a match. For each pattern used below this is the match JavaScript
    finds: the patterns are either anchored at the end, or match at most
    one length from a given start, or end in a greedy quantifier. *)

Inductive regex :=
| Never
| Eps
| Bol                       (* ^ *)
| Eol                       (* $ *)
| Chr (c : N)
| Cls (p : N -> bool)
| Seq (a b : regex)
| Alt (a b : regex)
| Star (a : regex).

Definition Plus (a : regex) : regex := Seq a (Star a).
Definition Opt (a : regex) : regex := Alt a Eps.

Fixpoint Str (s : jsstring) : regex :=
  match s with
  | [] => Eps
  | c :: r => Seq (Chr c) (Str r)
  end.

(** [bol], [eol]: the position is the start, the end of the input. *)
Fixpoint nullable (bol eol : bool) (r : regex) : bool :=
  match r with
  | Never => false
  | Eps => true
  | Bol => bol
  | Eol => eol
  | Chr _ => false
  | Cls _ => false
  | Seq a b => nullable bol eol a && nullable bol eol b
  | Alt a b => nullable bol eol a || nullable bol eol b
  | Star _ => true
  end.

Fixpoint deriv (bol : bool) (c : N) (r : regex) : regex :=
  match r with
  | Never => Never
  | Eps => Never
  | Bol => Never
  | Eol => Never
  | Chr x => if (x =? c)%N then Eps else Never
  | Cls p => if p c then Eps else Never
  | Seq a b =>
      if nullable bol false a
      then Alt (Seq (deriv bol c a) b) (deriv bol c b)
      else Seq (deriv bol c a) b
  | Alt a b => Alt (deriv bol c a) (deriv bol c b)
  | Star a => Seq (deriv bol c a) (Star a)
  end.

Fixpoint matchLen (bol : bool) (r : regex) (s : jsstring) : option nat :=
  match s with
  | [] => if nullable bol true r then Some O else None
  | c :: s' =>
      match matchLen false (deriv bol c r) s' with
      | Some n => Some (S n)
      | None => if nullable bol false r then Some O else None
      end
  end.

(** Leftmost match: its start and its length. *)
Fixpoint search (bol : bool) (r : regex) (s : jsstring) : option (nat * nat) :=
  match matchLen bol r s with
  | Some n => Some (O, n)
  | None =>
      match s with
      | [] => None
      | _ :: s' =>
          match search false r s' with
          | Some (i, n) => Some (S i, n)
          | None => None
          end
      end
  end.

(** [re.test(s)] *)
Definition test (r : regex) (s : jsstring) : bool :=
  match search true r s with
  | Some _ => true
  | None => false
  end.

(** [s.replace(re, rep)] with the [g] flag, for a replacement without
    group references. After an empty match the scan moves on by one
    character. *)
Fixpoint replaceRe_fuel (fuel : nat) (bol : bool) (r : regex)
    (rep s : jsstring) : jsstring :=
  match fuel with
  | O => s
  | S f =>
      match matchLen bol r s with
      | Some (S n) => rep ++ replaceRe_fuel f false r rep (skipn (S n) s)
      | Some O =>
          match s with
          | [] => rep
          | c :: s' => rep ++ c :: replaceRe_fuel f false r rep s'
          end
      | None =>
          match s with
          | [] => []
          | c :: s' => c :: replaceRe_fuel f false r rep s'
          end
      end
  end.

Definition replaceRe (r : regex) (rep s : jsstring) : jsstring :=
  replaceRe_fuel (S (List.length s)) true r rep s.

(** ASCII case folding, as the [i] flag applies it to ASCII letters. *)
Definition asciiLower (c : N) : N :=
  if ((65 <=? c) && (c <=? 90))%N then (c + 32)%N else c.

Definition ChrI (c : N) : regex := Cls (fun x => (asciiLower x =? c)%N).

Fixpoint StrI (s : jsstring) : regex :=
  match s with
  | [] => Eps
  | c :: r => Seq (ChrI c) (StrI r)
  end.

(** ** [node:path], POSIX flavour *)

Fixpoint dropSlashes (s : jsstring) : jsstring :=
  match s with
  | [] => []
  | c :: r => if (c =? 47)%N then dropSlashes r else s
  end.

(** [basename(p)]: trailing slashes are ignored, then the part after the
    last slash is returned. *)
Definition basename (p : jsstring) : jsstring :=
  last (splitChar 47 (rev (dropSlashes (rev p)))) [].

Fixpoint intercalate (sep : jsstring) (l : list jsstring) : jsstring :=
  match l with
  | [] => []
  | [x] => x
  | x :: r => x ++ sep ++ intercalate sep r
  end.

(** One step of [normalizeString]: the segments kept so far are held in
    reverse order. *)
Definition normStep (allowAbove : bool) (stack : list jsstring)
    (seg : jsstring) : list jsstring :=
  if eqb seg [] || eqb seg (lit ".") then stack
  else if eqb seg (lit "..") then
    match stack with
    | top :: rest => if eqb top (lit "..") then seg :: stack else rest
    | [] => if allowAbove then [seg] else []
    end
  else seg :: stack.

(** [normalize(p)] *)
Definition normalize (p : jsstring) : jsstring :=
  match p with
  | [] => lit "."
  | c0 :: _ =>
      let isAbsolute := (c0 =? 47)%N in
      let trailing := match rev p with c :: _ => (c =? 47)%N | [] => false end in
      let body :=
        intercalate (lit "/")
          (rev (fold_left (normStep (negb isAbsolute)) (splitChar 47 p) [])) in
      match body with
      | [] => if isAbsolute then lit "/"
              else if trailing then lit "./" else lit "."
      | _ =>
          let b := if trailing then body ++ lit "/" else body in
          if isAbsolute then 47%N :: b else b
      end
  end.

(** [join(a, b)] *)
Definition join (a b : jsstring) : jsstring :=
  match a, b with
  | [], [] => lit "."
  | [], _ => normalize b
  | _, [] => normalize a
  | _, _ => normalize (a ++ lit "/" ++ b)
  end.

End JS.

Import JS.

(* ================================================================== *)
(** * The DOM of node-html-parser                                       *)
(* ================================================================== *)

(** The parser itself is a parameter of the generator (see below); what
    it returns is a tree of elements and text. Element objects have an
    identity: a tree node is removed, looked up and replaced through it
    while loops run over earlier query results. [label] numbers the
    elements of a parsed tree in document order; the root element of a
    document has the identity 0 and an empty tag name.

    A [dom] is the list of the trees whose top node has no parent: the
    document first, then the subtrees detached so far. *)

Module Dom.

Definition attrs := list (jsstring * jsstring).

Inductive html :=
| HText (raw : jsstring)
| HElem (tag : jsstring) (a : attrs) (kids : list html).

Inductive node :=
| Text (raw : jsstring)
| Elem (id : nat) (tag : jsstring) (a : attrs) (kids : list node).

Definition dom := list node.

Fixpoint label (next : nat) (h : html) : node * nat :=
  match h with
  | HText s => (Text s, next)
  | HElem t a ks =>
      let '(ks', n') :=
        (fix go (n : nat) (l : list html) : list node * nat :=
           match l with
           | [] => ([], n)
           | k :: r =>
               let '(k', n1) := label n k in
               let '(r', n2) := go n1 r in
               (k' :: r', n2)
           end) (S next) ks in
      (Elem next t a ks', n')
  end.

Definition document (content : list html) : dom :=
  [fst (label 0 (HElem [] [] content))].

Definition lower (s : jsstring) : jsstring := map asciiLower s.

Definition hasId (i : nat) (n : node) : bool :=
  match n with
  | Text _ => false
  | Elem j _ _ _ => Nat.eqb j i
  end.

Definition tagName (n : node) : jsstring :=
  match n with
  | Text _ => []
  | Elem _ t _ _ => lower t
  end.

Definition childNodes (n : node) : list node :=
  match n with
  | Text _ => []
  | Elem _ _ _ kids => kids
  end.

Section FirstSome.
Variables (A B : Type) (f : A -> option B).
Fixpoint firstSome (l : list A) : option B :=
  match l with
  | [] => None
  | x :: r => match f x with Some y => Some y | None => firstSome r end
  end.
End FirstSome.

Section FirstChain.
Variables (A B : Type) (f : A -> list B).
Fixpoint firstNonEmpty (l : list A) : list B :=
  match l with
  | [] => []
  | x :: r => match f x with [] => firstNonEmpty r | c => c end
  end.
End FirstChain.

(** The element with identity [i] in the subtree of [n]. *)
Fixpoint findIn (i : nat) (n : node) : option node :=
  match n with
  | Text _ => None
  | Elem j _ _ kids =>
      if Nat.eqb j i then Some n else firstSome (findIn i) kids
  end.

Definition findNode (i : nat) (d : dom) : option node :=
  firstSome (findIn i) d.

(** The element [i] and its ancestors inside [n], nearest first. *)
Fixpoint chain (i : nat) (n : node) : list node :=
  match n with
  | Text _ => []
  | Elem j _ _ kids =>
      if Nat.eqb j i then [n]
      else match firstNonEmpty (chain i) kids with
           | [] => []
           | c => c ++ [n]
           end
  end.

(** All elements below [n], in document order. *)
Fixpoint descendants (n : node) : list node :=
  match n with
  | Text _ => []
  | Elem _ _ _ kids =>
      flat_map (fun k => match k with
                         | Text _ => []
                         | Elem _ _ _ _ => k :: descendants k
                         end) kids
  end.

(** ** Attributes

    Names are compared without regard to ASCII case. The value read by
    [getAttribute] has its character references decoded by the parser's
    [decode]; that function is applied by the callers below. *)

Fixpoint rawAttribute (k : jsstring) (a : attrs) : option jsstring :=
  match a with
  | [] => None
  | (k', v) :: r => if eqb (lower k') k then Some v else rawAttribute k r
  end.

Definition attributes (n : node) : attrs :=
  match n with
  | Text _ => []
  | Elem _ _ a _ => a
  end.

Fixpoint setAttr (k v : jsstring) (a : attrs) : attrs :=
  match a with
  | [] => [(k, v)]
  | (k', v') :: r =>
      if eqb (lower k') k then (k', v) :: r else (k', v') :: setAttr k v r
  end.

Definition removeAttr (k : jsstring) (a : attrs) : attrs :=
  filter (fun kv => negb (eqb (lower (fst kv)) k)) a.

(** Apply [f] to the attributes of element [i]. *)
Fixpoint updateIn (i : nat) (f : attrs -> attrs) (n : node) : node :=
  match n with
  | Text _ => n
  | Elem j t a kids =>
      Elem j t (if Nat.eqb j i then f a else a) (map (updateIn i f) kids)
  end.

Definition setAttribute (i : nat) (k v : jsstring) (d : dom) : dom :=
  map (updateIn i (setAttr k v)) d.

Definition removeAttribute (i : nat) (k : jsstring) (d : dom) : dom :=
  map (updateIn i (removeAttr k)) d.

(** ** Removal and replacement *)

(** [n] without its descendant [i]. *)
Fixpoint cutIn (i : nat) (n : node) : node :=
  match n with
  | Text _ => n
  | Elem j t a kids =>
      Elem j t a (filter (fun k => negb (hasId i k)) (map (cutIn i) kids))
  end.

(** [el.remove()]: nothing happens when [el] has no parent; otherwise it
    leaves its parent's children and becomes a detached tree. *)
Definition remove (i : nat) (d : dom) : dom :=
  if existsb (hasId i) d then d
  else match findNode i d with
       | Some n => map (cutIn i) d ++ [n]
       | None => d
       end.

(** [n] with its descendant [a] replaced by [new]. *)
Fixpoint substIn (a : nat) (new : node) (n : node) : node :=
  match n with
  | Text _ => n
  | Elem j t at_ kids =>
      Elem j t at_
        (map (fun k => if hasId a k then new else substIn a new k) kids)
  end.

(** [a.replaceWith(el)] for an element [el] below [a]: [el] takes the
    place of [a] among the children of [a]'s parent, and [a] becomes a
    detached tree that has lost [el]. Reading the children of a missing
    parent is a TypeError ([None]). *)
Definition replaceWith (a i : nat) (d : dom) : option dom :=
  if existsb (hasId a) d then None
  else match findNode a d, findNode i d with
       | Some an, Some el => Some (map (substIn a el) d ++ [cutIn i an])
       | _, _ => Some d
       end.

(** ** Selectors: a tag name, optionally with a class. *)

Record selector := { selTag : jsstring; selClass : option jsstring }.

Definition tagSel (t : string) : selector :=
  {| selTag := lit t; selClass := None |}.

Definition classSel (t c : string) : selector :=
  {| selTag := lit t; selClass := Some (lit c) |}.

(** ** Text and markup *)

Definition isBr (t : jsstring) : bool := eqb (lower t) (lit "br").

Fixpoint rawText (n : node) : jsstring :=
  match n with
  | Text s => s
  | Elem _ t _ kids =>
      if isBr t then [10%N] else List.concat (map rawText kids)
  end.

Definition upper (s : jsstring) : jsstring :=
  map (fun c => if ((97 <=? c) && (c <=? 122))%N then (c - 32)%N else c) s.

Definition voidTags : list jsstring :=
  map lit ["area"; "base"; "br"; "col"; "embed"; "hr"; "img"; "input";
           "link"; "meta"; "param"; "source"; "track"; "wbr"]%string.

Definition isVoid (t : jsstring) : bool :=
  existsb (fun v => eqb t v || eqb t (upper v)) voidTags.

(** Attributes are written [name="value"], one space apart. *)
Definition attrsString (a : attrs) : jsstring :=
  List.concat (map (fun kv => [32%N] ++ fst kv ++ [61%N; 34%N] ++ snd kv ++ [34%N]) a).

Fixpoint outerHTML (n : node) : jsstring :=
  match n with
  | Text s => s
  | Elem _ t a kids =>
      match t with
      | [] => List.concat (map outerHTML kids)
      | _ =>
          [60%N] ++ t ++ attrsString a ++ [62%N] ++
          (if isVoid t then []
           else List.concat (map outerHTML kids) ++ [60%N; 47%N] ++ t ++ [62%N])
      end
  end.

Definition innerHTML (n : node) : jsstring :=
  List.concat (map outerHTML (childNodes n)).

End Dom.

(* ================================================================== *)
(** * scripts/generate.ts                                               *)
(* ================================================================== *)

Module Generate.

Import Dom.

Definition DATA_FILE : jsstring := lit "posts_data.json".
Definition OUTPUT_DIR : jsstring := lit "docs".
Definition IMAGES_DIR : jsstring := join OUTPUT_DIR (lit "images").

(** ** Types *)

Record Comment := { author : jsstring; text : jsstring }.

(** [parsedDate] is absent or null ([None]) or a [Date]; [parsedDateStr]
    is absent ([None]) or a string. *)
Record Post := {
  title : jsstring;
  date : jsstring;
  slug : jsstring;
  url : jsstring;
  content_html : jsstring;
  images : list jsstring;
  comments : list Comment;
  parsedDate : option Date;
  parsedDateStr : option jsstring
}.

Definition ImageMap := list (jsstring * jsstring).

Record PostData := { posts : list Post; image_map : ImageMap }.

(** Own-property lookup in an object used as a dictionary. *)
Fixpoint lookup (k : jsstring) (m : list (jsstring * jsstring)) : option jsstring :=
  match m with
  | [] => None
  | (k', v) :: r => if eqb k' k then Some v else lookup k r
  end.

(** ** French date helpers *)

Definition FRENCH_MONTHS : list (Z * jsstring) :=
  [ (1, lit "janvier"); (2, lit "février"); (3, lit "mars");
    (4, lit "avril"); (5, lit "mai"); (6, lit "juin");
    (7, lit "juillet"); (8, lit "août"); (9, lit "septembre");
    (10, lit "octobre"); (11, lit "novembre"); (12, lit "décembre") ]%Z.

Definition FRENCH_MONTH_TO_NUM : list (jsstring * Z) :=
  map (fun e => (snd e, fst e)) FRENCH_MONTHS.

Fixpoint monthNum (k : jsstring) (m : list (jsstring * Z)) : option Z :=
  match m with
  | [] => None
  | (k', v) :: r => if eqb k' k then Some v else monthNum k r
  end.

Fixpoint monthName (k : Z) (m : list (Z * jsstring)) : option jsstring :=
  match m with
  | [] => None
  | (k', v) :: r => if (k' =? k)%Z then Some v else monthName k r
  end.

(** The fuzzy match: the first table entry whose three-letter prefix
    starts [monthStr]. *)
Definition fuzzyMonth (monthStr : jsstring) : option Z :=
  match find (fun e => startsWith (firstn 3 (fst e)) monthStr)
             FRENCH_MONTH_TO_NUM with
  | Some e => Some (snd e)
  | None => None
  end.

(** Template text: a literal in which [^] stands for a double quote. *)
Definition tpl (s : string) : jsstring :=
  map (fun c => if (c =? 94)%N then 34%N else c) (lit s).

Definition nl : jsstring := [10%N].

Section Generator.

(** The platform: [String.prototype.toLowerCase], the HTML parser and
    its decoding of character references, [existsSync], the outcome of
    [require("../attachment_slugs.json")] ([None] when it throws), and
    the text of the style sheet. *)
Variable toLowerCase : jsstring -> jsstring.
Variable parse : jsstring -> list html.
Variable decode : jsstring -> jsstring.
Variable existsSync : jsstring -> bool.
Variable attachmentFile : option (list jsstring).
Variable CSS : jsstring.

Definition parseFrenchDate (dateStr : jsstring) : option Date :=
  match dateStr with
  | [] => None
  | _ =>
      match splitWs (trim dateStr) with
      | p0 :: p1 :: p2 :: _ =>
          let day := parseInt10 p0 in
          let monthStr := toLowerCase p1 in
          let month :=
            match monthNum monthStr FRENCH_MONTH_TO_NUM with
            | Some n => n
            | None => 0%Z
            end in
          let month :=
            if (month =? 0)%Z then
              match fuzzyMonth monthStr with
              | Some num => num
              | None => month
              end
            else month in
          let year := parseInt10 p2 in
          match day, year with
          | Some d, Some y =>
              if ((d =? 0) || (month =? 0) || (y =? 0))%Z then None
              else Some (newDate y (month - 1) d)
          | _, _ => None
          end
      | _ => None
      end
  end.

Definition formatDate (dt : option Date) : jsstring :=
  match dt with
  | None => []
  | Some d =>
      let month :=
        match getMonth d with
        | Some m =>
            match monthName (m + 1) FRENCH_MONTHS with
            | Some s => s
            | None => []
            end
        | None => []
        end in
      showNumber (getDate d) ++ lit " " ++ month ++ lit " "
      ++ showNumber (getFullYear d)
  end.

(** ** HTML helpers *)

Definition escapeHtml (str : jsstring) : jsstring :=
  replaceAll [34%N] (lit "&quot;")
    (replaceAll (lit ">") (lit "&gt;")
       (replaceAll (lit "<") (lit "&lt;")
          (replaceAll (lit "&") (lit "&amp;") str))).

(** [el.text]: the raw text with its character references decoded. *)
Definition textOf (n : node) : jsstring := decode (rawText n).

(** [el.getAttribute(k) ?? ""] *)
Definition getAttribute (k : string) (n : node) : jsstring :=
  match rawAttribute (lit k) (attributes n) with
  | Some v => decode v
  | None => []
  end.

Definition matchesSel (s : selector) (n : node) : bool :=
  eqb (tagName n) (selTag s) &&
  match selClass s with
  | None => true
  | Some c =>
      match rawAttribute (lit "class") (attributes n) with
      | Some v => existsb (eqb c) (splitWs (decode v))
      | None => false
      end
  end.

Definition matchesAny (ss : list selector) (n : node) : bool :=
  existsb (fun s => matchesSel s n) ss.

(** [el.querySelectorAll(ss)]: the matching elements below [el], in
    document order. *)
Definition querySelectorAll (ss : list selector) (n : node) : list node :=
  filter (matchesAny ss) (descendants n).

(** [el.querySelector(ss)] *)
Definition querySelector (ss : list selector) (n : node) : option node :=
  match querySelectorAll ss n with
  | [] => None
  | x :: _ => Some x
  end.

Definition nodeId (n : node) : nat :=
  match n with
  | Text _ => 0
  | Elem i _ _ _ => i
  end.

(** [el.closest(s)]: the nearest of [el] and its ancestors that matches. *)
Definition closest (s : selector) (i : nat) (d : dom) : option node :=
  find (matchesSel s) (firstNonEmpty (chain i) d).

(** The document's root element. *)
Definition rootOf (d : dom) : node :=
  match d with
  | r :: _ => r
  | [] => Elem 0 [] [] []
  end.

Definition parseDocument (htmlStr : jsstring) : dom :=
  document (parse htmlStr).

Definition getExcerpt (htmlStr : jsstring) (maxLength : nat) : jsstring :=
  let root := rootOf (parseDocument htmlStr) in
  let text := trim (replaceAll (lit "Continuer la lecture →") [] (textOf root)) in
  if Nat.ltb maxLength (List.length text) then
    let cut := lastIndexOf 32 (firstn maxLength text) in
    firstn (match cut with
            | Some (S c) => S c
            | _ => maxLength
            end) text ++ lit "..."
  else text.

(** ** Filtering

    [_attachmentSlugs] is a module-level cache, threaded through the
    calls: [None] until the first call of [loadAttachmentSlugs]. *)

Definition SlugSet := list jsstring.

Definition has (s : SlugSet) (x : jsstring) : bool := existsb (eqb x) s.

Definition loadAttachmentSlugs (cache : option SlugSet)
  : SlugSet * option SlugSet :=
  match cache with
  | Some s => (s, cache)
  | None =>
      let s := match attachmentFile with
               | Some raw => raw
               | None => []
               end in
      (s, Some s)
  end.

Definition isBlogPost (post : Post) (cache : option SlugSet)
  : bool * option SlugSet :=
  let '(s, cache') := loadAttachmentSlugs cache in
  (negb (has s (slug post)), cache').

(** [allPosts.filter(isBlogPost)] *)
Fixpoint filterBlogPosts (ps : list Post) (cache : option SlugSet)
  : list Post * option SlugSet :=
  match ps with
  | [] => ([], cache)
  | p :: r =>
      let '(keep, c1) := isBlogPost p cache in
      let '(r', c2) := filterBlogPosts r c1 in
      (if keep then p :: r' else r', c2)
  end.

(** ** Image resolution *)

(** [/-\d+x\d+(\.\w+)$/] *)
Definition extensionRe : regex :=
  Seq (Chr 46) (Seq (Plus (Cls isWord)) Eol).

Definition sizeSuffixRe : regex :=
  Seq (Chr 45) (Seq (Plus (Cls isDigit))
    (Seq (Chr 120) (Seq (Plus (Cls isDigit)) extensionRe))).

(** [s.replace(/-\d+x\d+(\.\w+)$/, "$1")]: the match runs to the end of
    [s]; its first group is the extension, which starts at the only dot
    of the match. *)
Definition stripSizeSuffix (s : jsstring) : jsstring :=
  match search true sizeSuffixRe s with
  | Some (i, n) =>
      let matched := firstn n (skipn i s) in
      let group1 := match search false extensionRe matched with
                    | Some (j, m) => firstn m (skipn j matched)
                    | None => []
                    end in
      firstn i s ++ group1 ++ skipn (i + n) s
  | None => s
  end.

(** [/[^\w\-_.]/g] replaced by an underscore *)
Definition sanitize (s : jsstring) : jsstring :=
  map (fun c => if isWord c || (c =? 45)%N || (c =? 95)%N || (c =? 46)%N
                then c else 95%N) s.

Definition truthy (v : option jsstring) : bool :=
  match v with
  | Some (_ :: _) => true
  | _ => false
  end.

Definition findLocalImage (url : jsstring) (imageMap : ImageMap)
  : option jsstring :=
  let normalized := replaceFirst (lit "http://") (lit "https://") url in
  (* Direct match *)
  if truthy (lookup normalized imageMap) then lookup normalized imageMap
  else
    (* Without size suffix (-300x200) *)
    let baseUrl := stripSizeSuffix normalized in
    if truthy (lookup baseUrl imageMap) then lookup baseUrl imageMap
    else
      (* Match by filename *)
      let filename := basename (beforeChar 63 url) in
      match find (fun kv => eqb (basename (beforeChar 63 (fst kv))) filename)
                 imageMap with
      | Some kv => Some (snd kv)
      | None =>
          (* Check disk for thumbnail filename *)
          let cleanFilename := sanitize filename in
          if existsSync (join IMAGES_DIR cleanFilename)
          then Some cleanFilename
          else None
      end.

(** ** Content cleaning *)

Definition shareRe : regex :=
  Alt (Str (lit "a2a")) (Alt (Str (lit "addtoany")) (Str (lit "sharedaddy"))).

(** [/\.(jpg|jpeg|png|gif)$/i] *)
Definition imageHrefRe : regex :=
  Seq (Chr 46)
    (Seq (Alt (StrI (lit "jpg")) (Alt (StrI (lit "jpeg"))
            (Alt (StrI (lit "png")) (StrI (lit "gif")))))
         Eol).

Definition ws : regex := Star (Cls isSpace).

(** [<br\s*\/?>] *)
Definition brRe : regex :=
  Seq (Str (lit "<br")) (Seq ws (Seq (Opt (Chr 47)) (Chr 62))).

Definition emptyRe (open_ close_ : string) (withBr : bool) : regex :=
  Seq (Str (lit open_))
    (Seq ws (Seq (if withBr then Seq brRe ws else Eps) (Str (lit close_)))).

(** [\n{3,}] *)
Definition blankLinesRe : regex :=
  Seq (Chr 10) (Seq (Chr 10) (Plus (Chr 10))).

Definition entryContent : selector := classSel "div" "entry-content".

(** A loop over a query result: the elements are fixed when the loop
    starts, each body runs on the tree as it is by then. *)
Definition forEach (els : list node) (body : node -> dom -> dom) (d : dom)
  : dom :=
  fold_left
    (fun d el => match findNode (nodeId el) d with
                 | Some live => body live d
                 | None => d
                 end)
    els d.

(** Remove share buttons *)
Definition removeShareButtons (d : dom) : dom :=
  forEach (querySelectorAll [tagSel "div"; tagSel "span"] (rootOf d))
    (fun el d =>
       if test shareRe (getAttribute "class" el)
       then remove (nodeId el) d else d)
    d.

(** Remove more-links *)
Definition removeMoreLinks (d : dom) : dom :=
  forEach (querySelectorAll [classSel "a" "more-link"] (rootOf d))
    (fun el d => remove (nodeId el) d)
    d.

Definition isBlank (s : jsstring) : bool :=
  match trim s with
  | [] => true
  | _ => false
  end.

Definition hasImg (el : node) : bool :=
  match querySelector [tagSel "img"] el with
  | Some _ => true
  | None => false
  end.

(** Remove empty paragraphs and divs (no text and no img) *)
Definition removeEmptyBlocks (d : dom) : dom :=
  forEach (querySelectorAll [tagSel "p"; tagSel "div"] (rootOf d))
    (fun el d =>
       if isBlank (textOf el) && negb (hasImg el)
       then remove (nodeId el) d else d)
    d.

(** The body of the image loop for the element [i]; [None] is the
    TypeError of [replaceWith] on an anchor that has no parent. *)
Definition fixImage (imageMap : ImageMap) (i : nat) (d : dom) : option dom :=
  match findNode i d with
  | None => Some d
  | Some img =>
      let src := getAttribute "src" img in
      match src with
      | [] => Some d
      | _ =>
          let localFile := findLocalImage src imageMap in
          if truthy localFile then
            let file := match localFile with Some f => f | None => [] end in
            let d := setAttribute i (lit "src") (lit "/images/" ++ file) d in
            (* Remove WP-specific attributes *)
            let d := fold_left (fun d attr => removeAttribute i (lit attr) d)
                       ["srcset"; "sizes"; "class"; "width"; "height"]%string d in
            (* Unwrap from parent <a> linking to image *)
            match closest (tagSel "a") i d with
            | Some parentA =>
                if test imageHrefRe (getAttribute "href" parentA)
                then replaceWith (nodeId parentA) i d
                else Some d
            | None => Some d
            end
          else
            (* Image gone: remove it *)
            match closest (tagSel "figure") i d with
            | Some parentFig => Some (remove (nodeId parentFig) d)
            | None =>
                match closest (tagSel "a") i d with
                | Some parentA => Some (remove (nodeId parentA) d)
                | None => Some (remove i d)
                end
            end
      end
  end.

(** Fix images *)
Definition fixImages (imageMap : ImageMap) (d : dom) : option dom :=
  fold_left
    (fun st img => match st with
                   | Some d => fixImage imageMap (nodeId img) d
                   | None => None
                   end)
    (querySelectorAll [tagSel "img"] (rootOf d)) (Some d).

(** Remove empty figcaptions *)
Definition removeEmptyFigcaptions (d : dom) : dom :=
  forEach (querySelectorAll [tagSel "figure"] (rootOf d))
    (fun fig d =>
       match querySelector [tagSel "figcaption"] fig with
       | Some cap => if isBlank (textOf cap) then remove (nodeId cap) d else d
       | None => d
       end)
    d.

(** Clean up *)
Definition cleanUp (innerHtml : jsstring) : jsstring :=
  replaceRe blankLinesRe [10; 10]%N
    (replaceRe (emptyRe "<div>" "</div>" false) []
       (replaceRe (emptyRe "<div>" "</div>" true) []
          (replaceRe (emptyRe "<p>" "</p>" false) []
             (replaceRe (emptyRe "<p>" "</p>" true) [] innerHtml)))).

(** The tree passes of [cleanContentHtml], between parsing and
    serialising. *)
Definition cleanTree (imageMap : ImageMap) (d : dom) : option dom :=
  match fixImages imageMap
          (removeEmptyBlocks (removeMoreLinks (removeShareButtons d))) with
  | Some d' => Some (removeEmptyFigcaptions d')
  | None => None
  end.

Definition cleanContentHtml (htmlStr : jsstring) (imageMap : ImageMap)
  : option jsstring :=
  match htmlStr with
  | [] => Some []
  | _ =>
      let root := parseDocument htmlStr in
      let '(root, wrapper) :=
        match querySelector [entryContent] (rootOf root) with
        | Some w =>
            let root' := parseDocument (outerHTML w) in
            (root', querySelector [entryContent] (rootOf root'))
        | None => (root, None)
        end in
      match cleanTree imageMap root with
      | None => None
      | Some d =>
          (* Get inner content *)
          let innerHtml :=
            match wrapper with
            | Some w =>
                match findNode (nodeId w) d with
                | Some live => innerHTML live
                | None => []
                end
            | None => innerHTML (rootOf d)
            end in
          Some (trim (cleanUp innerHtml))
      end
  end.

(** ** HTML template helpers *)

Definition htmlHead (title description : jsstring) : jsstring :=
  let desc := match description with
              | [] => lit "Les petites histoires farfelues du vendredi de Sylvie Lafleur"
              | _ => description
              end in
  tpl "<!DOCTYPE html>
<html lang=^fr-FR^>
<head>
<meta charset=^UTF-8^>
<meta name=^viewport^ content=^width=device-width, initial-scale=1.0^>
<title>" ++ escapeHtml title ++ tpl "</title>
<meta name=^description^ content=^" ++ escapeHtml desc ++ tpl "^>
<meta property=^og:title^ content=^" ++ escapeHtml title ++ tpl "^>
<meta property=^og:type^ content=^article^>
<meta property=^og:site_name^ content=^Les petits vendredis^>
<meta name=^robots^ content=^noai, noimageai^>
<meta name=^robots^ content=^max-snippet:-1, max-image-preview:large, max-video-preview:-1^>
<link rel=^preconnect^ href=^https://fonts.googleapis.com^>
<link rel=^preconnect^ href=^https://fonts.gstatic.com^ crossorigin>
<link href=^https://fonts.googleapis.com/css2?family=Playfair+Display:ital,wght@0,400;0,600;1,400&family=DM+Sans:wght@400;500&display=swap^ rel=^stylesheet^>
<link rel=^icon^ href=^/favicon.svg^ type=^image/svg+xml^>
<link rel=^stylesheet^ href=^/style.css^>
</head>".

Definition HEADER : jsstring :=
  tpl "<header class=^site-header^>
  <h1 class=^site-title^><a href=^/^>Les petits vendredis</a></h1>
  <nav class=^site-nav^>
    <a href=^/^>Accueil</a>
  </nav>
</header>".

Definition FOOTER : jsstring :=
  tpl "<footer class=^site-footer^>
  <div class=^footer-title^>Les petits vendredis</div>
  <p class=^footer-tagline^>Les petites histoires farfelues du vendredi de Sylvie Lafleur</p>
</footer>".

(** ** Page generators *)

Definition displayDate (p : Post) : jsstring :=
  match parsedDateStr p with
  | Some s => s
  | None => date p
  end.

Definition navLink (cls label : string) (p : Post) : jsstring :=
  tpl "    <a href=^/" ++ slug p ++ tpl "/^ class=^nav-link " ++ lit cls ++ tpl "^>" ++ nl
  ++ tpl "      <div class=^nav-label^>" ++ lit label ++ tpl "</div>" ++ nl
  ++ tpl "      <div class=^nav-title^>" ++ escapeHtml (title p) ++ tpl "</div>" ++ nl
  ++ tpl "    </a>" ++ nl.

Definition navigation (prevPost nextPost : option Post) : jsstring :=
  match prevPost, nextPost with
  | None, None => []
  | _, _ =>
      tpl "<nav class=^post-navigation^>" ++ nl
      ++ match prevPost with
         | Some p => navLink "prev" "Précédent" p
         | None => tpl "    <div></div>" ++ nl
         end
      ++ match nextPost with
         | Some p => navLink "next" "Suivant" p
         | None => tpl "    <div></div>" ++ nl
         end
      ++ tpl "  </nav>"
  end.

Definition commentHtml (c : Comment) : jsstring :=
  tpl "    <div class=^comment^>" ++ nl
  ++ tpl "      <div class=^comment-author^>" ++ escapeHtml (author c) ++ tpl "</div>" ++ nl
  ++ tpl "      <div class=^comment-content^>" ++ escapeHtml (text c) ++ tpl "</div>" ++ nl
  ++ tpl "    </div>" ++ nl.

Definition commentsSection (cs : list Comment) : jsstring :=
  match cs with
  | [] => []
  | _ =>
      let n := List.length cs in
      let label := if Nat.eqb n 1 then lit "commentaire" else lit "commentaires" in
      tpl "<section class=^comments-section^>" ++ nl
      ++ tpl "    <h3 class=^comments-title^>" ++ showN (N.of_nat n) ++ lit " "
      ++ label ++ tpl "</h3>" ++ nl
      ++ List.concat (map commentHtml cs)
      ++ tpl "  </section>"
  end.

Definition generatePostPage (post : Post) (prevPost nextPost : option Post)
    (imageMap : ImageMap) : option jsstring :=
  let dateStr := displayDate post in
  match cleanContentHtml (content_html post) imageMap with
  | None => None
  | Some content =>
      let excerpt := getExcerpt (content_html post) 160 in
      let navHtml := navigation prevPost nextPost in
      let commentsHtml := commentsSection (comments post) in
      Some (
        htmlHead (title post ++ lit " | Les petits vendredis") excerpt ++ tpl "
<body>

" ++ HEADER ++ tpl "

<main class=^main-content^>
  <article class=^post^>
    <header class=^entry-header^>
      <h1 class=^entry-title^>" ++ escapeHtml (title post) ++ tpl "</h1>
      <div class=^entry-meta^>" ++ escapeHtml dateStr ++ tpl "</div>
    </header>

    <div class=^entry-content^>
      " ++ content ++ tpl "
    </div>
  </article>

  <div class=^divider^>&middot;&middot;&middot;</div>

  <section class=^author-section^>
    <img src=^/images/sylvie.jpg^ alt=^Sylvie Lafleur^>
    <div class=^author-info^>
      <h4>Sylvie Lafleur</h4>
      <p>Femme ordinaire, mère qui s'est bien tirée d'affaire, folle à temps partiel ayant un esprit très frivole et des idées plus farfelues les unes que les autres.</p>
    </div>
  </section>

  " ++ navHtml ++ tpl "

  " ++ commentsHtml ++ tpl "
</main>

" ++ FOOTER ++ tpl "

</body>
</html>")
  end.

Definition postItem (p : Post) : jsstring :=
  let dateStr := displayDate p in
  let excerpt := getExcerpt (content_html p) 180 in
  tpl "    <li class=^post-list-item^>
      <a href=^/" ++ slug p ++ tpl "/^>
        <div class=^post-list-date^>" ++ escapeHtml dateStr ++ tpl "</div>
        <h2 class=^post-list-title^>" ++ escapeHtml (title p) ++ tpl "</h2>
        <p class=^post-list-excerpt^>" ++ escapeHtml excerpt ++ tpl "</p>
      </a>
    </li>" ++ nl.

Definition generateHomepage (ps : list Post) : jsstring :=
  let postItems := List.concat (map postItem ps) in
  htmlHead (lit "Les petits vendredis")
    (lit "Voici les petites histoires farfelues du vendredi de Sylvie Lafleur")
  ++ tpl "
<body>

" ++ HEADER ++ tpl "

<main class=^main-content^>
  <div class=^page-header^>
    <h1 class=^home-title^>Les petits vendredis</h1>
    <p class=^home-tagline^>Voici mes petites histoires du vendredi, plus farfelues les unes que les autres</p>
    <div class=^home-author^>
      <img src=^/images/sylvie.jpg^ alt=^Sylvie Lafleur^>
      <span>Par Sylvie Lafleur</span>
    </div>
  </div>

  <ul class=^post-list^>
" ++ postItems ++ tpl "  </ul>
</main>

" ++ FOOTER ++ tpl "

</body>
</html>".

(** ** Main *)

(** Parse the date of a post and record it with its display string. *)
Definition annotate (p : Post) : Post :=
  let dt := parseFrenchDate (date p) in
  {| title := title p; date := date p; slug := slug p; url := url p;
     content_html := content_html p; images := images p;
     comments := comments p;
     parsedDate := dt;
     parsedDateStr := Some (match dt with
                            | Some _ => formatDate dt
                            | None => date p
                            end) |}.

(** [p.parsedDate?.getTime() ?? 0]; [None] is NaN. *)
Definition sortKey (p : Post) : option Z :=
  match parsedDate p with
  | Some d => getTime d
  | None => Some 0%Z
  end.

(** The comparator passed to [sort]; a NaN result counts as 0. *)
Definition compareFn (a b : Post) : Z :=
  match sortKey b, sortKey a with
  | Some kb, Some ka => (kb - ka)%Z
  | _, _ => 0%Z
  end.

(** [Array.prototype.sort] is stable; it is modelled by insertion. With
    a comparator that is not consistent (a NaN key) the order is
    implementation-defined and this is one admissible outcome. *)
Fixpoint insertSorted (x : Post) (l : list Post) : list Post :=
  match l with
  | [] => [x]
  | y :: r =>
      if (compareFn x y <=? 0)%Z then x :: l else y :: insertSorted x r
  end.

Definition sortPosts (l : list Post) : list Post :=
  fold_right insertSorted [] l.

(** The posts that are rendered: filtered, dated, newest first. *)
Definition selectPosts (data : PostData) : list Post :=
  sortPosts (map annotate (fst (filterBlogPosts (posts data) None))).

Definition postPath (p : Post) : jsstring :=
  join (join OUTPUT_DIR (slug p)) (lit "index.html").

(** The loop over the post pages; [nextPost] is the post before the
    current one in the list. The loop stops at the first page whose
    generation throws; the flag tells whether it ran to its end. *)
Fixpoint postPages (nextPost : option Post) (ps : list Post)
    (imageMap : ImageMap) : list (jsstring * jsstring) * bool :=
  match ps with
  | [] => ([], true)
  | post :: rest =>
      match generatePostPage post (hd_error rest) nextPost imageMap with
      | None => ([], false)
      | Some html =>
          let '(ws, ok) := postPages (Some post) rest imageMap in
          ((postPath post, html) :: ws, ok)
      end
  end.

Definition notFoundHtml : jsstring :=
  htmlHead (lit "Page introuvable | Les petits vendredis") [] ++ tpl "
<body>

" ++ HEADER ++ tpl "

<main class=^main-content^>
  <div class=^page-header^ style=^margin-top: 60px;^>
    <h1 class=^home-title^>Page introuvable</h1>
    <p class=^home-tagline^>Cette page n'existe pas ou a été déplacée.</p>
    <p style=^margin-top: 30px;^><a href=^/^>Retour à l'accueil</a></p>
  </div>
</main>

" ++ FOOTER ++ tpl "

</body>
</html>".

Definition lastmod (p : Post) : jsstring :=
  match parsedDate p with
  | Some dt =>
      nl ++ lit "    <lastmod>" ++ showNumber (getFullYear dt) ++ lit "-"
      ++ padStart2 (showNumber (option_map (fun m => (m + 1)%Z) (getMonth dt)))
      ++ lit "-" ++ padStart2 (showNumber (getDate dt)) ++ lit "</lastmod>"
  | None => []
  end.

Definition sitemapEntry (p : Post) : jsstring :=
  lit "  <url>" ++ nl
  ++ lit "    <loc>https://lespetitsvendredis.com/" ++ slug p ++ lit "/</loc>"
  ++ lastmod p ++ nl
  ++ lit "  </url>" ++ nl.

Definition sitemapXml (ps : list Post) : jsstring :=
  tpl "<?xml version=^1.0^ encoding=^UTF-8^?>" ++ nl
  ++ tpl "<urlset xmlns=^http://www.sitemaps.org/schemas/sitemap/0.9^>" ++ nl
  ++ lit "  <url>" ++ nl
  ++ lit "    <loc>https://lespetitsvendredis.com/</loc>" ++ nl
  ++ lit "    <priority>1.0</priority>" ++ nl
  ++ lit "  </url>" ++ nl
  ++ List.concat (map sitemapEntry ps)
  ++ lit "</urlset>" ++ nl.

Definition robotsTxt : jsstring :=
  lit "User-agent: *" ++ nl ++ lit "Allow: /" ++ nl ++ nl
  ++ lit "Sitemap: https://lespetitsvendredis.com/sitemap.xml" ++ nl.

(** The files written, in order, and whether the run reached its end
    ([false]: a page generation threw and the run stopped there). *)
Definition main (data : PostData) : list (jsstring * jsstring) * bool :=
  let imageMap := image_map data in
  let ps := selectPosts data in
  let css := (join OUTPUT_DIR (lit "style.css"), CSS) in
  let '(pages, ok) := postPages None ps imageMap in
  if ok then
    let robotsPath := join OUTPUT_DIR (lit "robots.txt") in
    (css :: pages
     ++ [ (join OUTPUT_DIR (lit "index.html"), generateHomepage ps);
          (join OUTPUT_DIR (lit "CNAME"), lit "lespetitsvendredis.com" ++ nl);
          (join OUTPUT_DIR (lit ".nojekyll"), []);
          (join OUTPUT_DIR (lit "404.html"), notFoundHtml);
          (join OUTPUT_DIR (lit "sitemap.xml"), sitemapXml ps) ]
     ++ (if existsSync robotsPath then [] else [(robotsPath, robotsTxt)]),
     true)
  else (css :: pages, false).

End Generator.

End Generate.

(* ================================================================== *)
(** * scripts/crawl.ts: the URL filter                                  *)
(* ================================================================== *)

Module Crawl.

Definition SKIP_SLUGS : list jsstring :=
  map lit ["products"; "activites-du-site"; "membres"; "page-d-exemple"]%string.

(** [/^\/|\/$/g] *)
Definition edgeSlashRe : regex :=
  Alt (Seq Bol (Chr 47)) (Seq (Chr 47) Eol).

Section Crawler.

(** [new URL(url).pathname]; [None] when the constructor throws. *)
Variable pathname : jsstring -> option jsstring.

Definition isBlogPostUrl (url : jsstring) : option bool :=
  match pathname url with
  | None => None
  | Some p =>
      let path := replaceRe edgeSlashRe [] p in
      Some (match path with
            | [] => false
            | _ =>
                if existsb (eqb path) SKIP_SLUGS then false
                else if Nat.ltb 1 (List.length (splitChar 47 path)) then false
                else if includes (lit "attachment_id") url then false
                else true
            end)
  end.

(** [allUrls.filter(isBlogPostUrl)]; an exception of the callback ends
    the filter ([None]). *)
Fixpoint filterPostUrls (allUrls : list jsstring) : option (list jsstring) :=
  match allUrls with
  | [] => Some []
  | u :: r =>
      match isBlogPostUrl u with
      | None => None
      | Some keep =>
          match filterPostUrls r with
          | None => None
          | Some r' => Some (if keep then u :: r' else r')
          end
      end
  end.

End Crawler.

(** ** Downloads *)

Definition BASE_URL : jsstring := lit "https://lespetitsvendredis.com".
Definition OUTPUT_DIR : jsstring := lit "docs".
Definition IMAGES_DIR : jsstring := join OUTPUT_DIR (lit "images").

Record Post := {
  title : jsstring;
  date : jsstring;
  slug : jsstring;
  url : jsstring;
  content_html : jsstring;
  images : list jsstring;
  comments : list (jsstring * jsstring);
  local_images : option (list (option jsstring))
}.

(** [name.replace(/[^\w\-_.]/g, "_") || "image.jpg"] *)
Definition cleanFilename (name : jsstring) : jsstring :=
  match map (fun c => if isWord c || (c =? 45)%N || (c =? 95)%N || (c =? 46)%N
                      then c else 95%N) name with
  | [] => lit "image.jpg"
  | s => s
  end.

(** The disk: the paths that exist, each with its content, the last one
    written first. The network: the outcomes of the fetches still to
    come, in order; an outcome is the body of a response that is [ok]
    and gets written, or nothing (the fetch or the write fails, or the
    response is not [ok]). *)
Definition Disk := list (jsstring * jsstring).

Definition existsSync (disk : Disk) (p : jsstring) : bool :=
  existsb (fun f => eqb (fst f) p) disk.

Record World := { disk : Disk; net : list (option jsstring) }.

(** [Set.prototype.add]: a set keeps its elements in insertion order. *)
Definition setAdd (x : jsstring) (s : list jsstring) : list jsstring :=
  if existsb (eqb x) s then s else s ++ [x].

(** [imageMap[k] = v] *)
Fixpoint setKey (k v : jsstring) (m : list (jsstring * jsstring))
  : list (jsstring * jsstring) :=
  match m with
  | [] => [(k, v)]
  | (k', v') :: r => if eqb k' k then (k', v) :: r else (k', v') :: setKey k v r
  end.

Section Downloads.

(** [new URL(url).pathname] and [new URL(url, BASE_URL).href]; [None]
    when the constructor throws. *)
Variable pathname : jsstring -> option jsstring.
Variable href : jsstring -> option jsstring.

(** The first lines of [downloadImage]: the URL that is fetched. *)
Definition normalizeImageUrl (imgUrl : jsstring) : option jsstring :=
  let url :=
    if startsWith (lit "//") imgUrl then Some (lit "https:" ++ imgUrl)
    else if negb (startsWith (lit "http") imgUrl) then href imgUrl
    else Some imgUrl in
  option_map (replaceFirst (lit "http://") (lit "https://")) url.

(** [downloadImage]: [None] when it throws (outside its [try]), else
    the file name or [null], and the world after the call. *)
Definition downloadImage (imgUrl : jsstring) (w : World)
  : option (option jsstring * World) :=
  match normalizeImageUrl imgUrl with
  | None => None
  | Some url =>
      match pathname url with
      | None => None
      | Some p =>
          let filename := cleanFilename (basename p) in
          let localPath := join IMAGES_DIR filename in
          if existsSync (disk w) localPath then Some (Some filename, w)
          else
            match net w with
            | Some body :: later =>
                Some (Some filename,
                      {| disk := (localPath, body) :: disk w; net := later |})
            | None :: later =>
                Some (None, {| disk := disk w; net := later |})
            | [] => Some (None, w)
            end
      end
  end.

(** Step 4 of [main]: the set of all images, then the image map. *)
Definition PORTRAIT : jsstring :=
  BASE_URL ++ lit "/wp-content/themes/vintagecustom/images/sylvie.jpg".

Definition allImages (posts : list Post) : list jsstring :=
  setAdd PORTRAIT
    (fold_left (fun s p => fold_left (fun s img => setAdd img s) (images p) s)
       posts []).

Fixpoint downloadAll (urls : list jsstring) (imageMap : list (jsstring * jsstring))
    (w : World) : option (list (jsstring * jsstring) * World) :=
  match urls with
  | [] => Some (imageMap, w)
  | imgUrl :: rest =>
      match downloadImage imgUrl w with
      | None => None
      | Some (Some (c :: f), w') => downloadAll rest (setKey imgUrl (c :: f) imageMap) w'
      | Some (_, w') => downloadAll rest imageMap w'
      end
  end.

(** Step 5 of [main]: the local file of each image of a post. *)
Definition localImages (imageMap : list (jsstring * jsstring)) (p : Post)
  : list (option jsstring) :=
  map (fun imgUrl =>
         let normalized := replaceFirst (lit "http://") (lit "https://") imgUrl in
         match Generate.lookup normalized imageMap with
         | Some v => Some v
         | None => Generate.lookup imgUrl imageMap
         end)
      (images p).

Definition withLocalImages (imageMap : list (jsstring * jsstring)) (p : Post)
  : Post :=
  {| title := title p; date := date p; slug := slug p; url := url p;
     content_html := content_html p; images := images p;
     comments := comments p;
     local_images := Some (localImages imageMap p) |}.

(** Steps 4 and 5 together, on the posts extracted in step 3: the posts
    and the image map that are saved, and the world after the run. *)
Definition imagePhase (posts : list Post) (w : World)
  : option (list Post * list (jsstring * jsstring) * World) :=
  match downloadAll (allImages posts) [] w with
  | None => None
  | Some (imageMap, w') => Some (map (withLocalImages imageMap) posts, imageMap, w')
  end.

End Downloads.

(** ** The preview server *)

(** [path.endsWith("/")] *)
Definition endsWithSlash (path : jsstring) : bool :=
  match rev path with
  | c :: _ => (c =? 47)%N
  | [] => false
  end.

(** The handler of [Bun.serve], for the path of the request: the file
    that is sent and the status of the response. [fileExists] is
    [Bun.file(p).exists()]. *)
Definition serve (fileExists : jsstring -> bool) (pathname : jsstring)
  : jsstring * Z :=
  let path := if endsWithSlash pathname then pathname ++ lit "index.html"
              else pathname in
  let file := lit "./site" ++ path in
  if fileExists file then (file, 200%Z)
  else
    let dirFile := lit "./site" ++ path ++ lit "/index.html" in
    if fileExists dirFile then (dirFile, 200%Z)
    else (lit "./site/404.html", 404%Z).

End Crawl.

(* ================================================================== *)
(** * Plain instances of the platform functions                         *)
(* ================================================================== *)

(** Concrete stand-ins for the platform functions, used to run the
    scripts on sample inputs. Each agrees with the real function on a
    plain class of inputs:
    - [toLowerCase]: strings of ASCII and Latin-1 characters;
    - [decode]: text without character references;
    - [parse]: well-nested markup whose tags are written
      [<name k="v" ...>] and [</name>], without comments, with no [>]
      inside attribute values;
    - [pathname]: absolute http(s) URLs whose path needs no
      percent-encoding and has no dot segments. *)

Module Plain.

Import Dom.

Definition toLowerCase (s : jsstring) : jsstring :=
  map (fun c => if ((65 <=? c) && (c <=? 90)
                    || (192 <=? c) && (c <=? 222) && negb (c =? 215))%N
                then (c + 32)%N else c) s.

Definition decode (s : jsstring) : jsstring := s.

Inductive token :=
| TText (s : jsstring)
| TOpen (tag : jsstring) (a : attrs)
| TClose (tag : jsstring).

Fixpoint takeName (s : jsstring) : jsstring :=
  match s with
  | [] => []
  | c :: r => if isSpace c || (c =? 47)%N then [] else c :: takeName r
  end.

Inductive attrState :=
| Between
| InName (name : jsstring)
| AfterEq (name : jsstring)
| InValue (name value : jsstring)
| InBare (name value : jsstring).

Fixpoint parseAttrs (st : attrState) (s : jsstring) : attrs :=
  match s with
  | [] =>
      match st with
      | Between => []
      | InName n => [(rev n, [])]
      | AfterEq n => [(rev n, [])]
      | InValue n v => [(rev n, rev v)]
      | InBare n v => [(rev n, rev v)]
      end
  | c :: r =>
      match st with
      | Between =>
          if isSpace c || (c =? 47)%N then parseAttrs Between r
          else parseAttrs (InName [c]) r
      | InName n =>
          if (c =? 61)%N then parseAttrs (AfterEq n) r
          else if isSpace c then (rev n, []) :: parseAttrs Between r
          else parseAttrs (InName (c :: n)) r
      | AfterEq n =>
          if (c =? 34)%N then parseAttrs (InValue n []) r
          else parseAttrs (InBare n [c]) r
      | InValue n v =>
          if (c =? 34)%N then (rev n, rev v) :: parseAttrs Between r
          else parseAttrs (InValue n (c :: v)) r
      | InBare n v =>
          if isSpace c then (rev n, rev v) :: parseAttrs Between r
          else parseAttrs (InBare n (c :: v)) r
      end
  end.

Definition tagToken (content : jsstring) : token :=
  match content with
  | 47%N :: r => TClose (takeName r)
  | _ =>
      let name := takeName content in
      TOpen name (parseAttrs Between (skipn (List.length name) content))
  end.

Definition textToken (s : jsstring) : list token :=
  match s with
  | [] => []
  | _ => [TText s]
  end.

Fixpoint tokenize (inTag : bool) (acc : jsstring) (s : jsstring) : list token :=
  match s with
  | [] => if inTag then [] else textToken (rev acc)
  | c :: r =>
      if inTag then
        if (c =? 62)%N then tagToken (rev acc) :: tokenize false [] r
        else tokenize true (c :: acc) r
      else
        if (c =? 60)%N then textToken (rev acc) ++ tokenize true [] r
        else tokenize false (c :: acc) r
  end.

(** The open elements are kept on a stack, each with the children its
    parent has collected so far (in reverse). *)
Fixpoint build (toks : list token)
    (stack : list (jsstring * attrs * list html)) (cur : list html)
  : list html :=
  match toks with
  | [] =>
      rev (fold_left
             (fun kids frame =>
                let '(t, a, parentKids) := frame in
                HElem t a (rev kids) :: parentKids)
             stack cur)
  | TText s :: r => build r stack (HText s :: cur)
  | TOpen t a :: r =>
      if isVoid t then build r stack (HElem t a [] :: cur)
      else build r ((t, a, cur) :: stack) []
  | TClose _ :: r =>
      match stack with
      | (t, a, parentKids) :: st =>
          build r st (HElem t a (rev cur) :: parentKids)
      | [] => build r [] cur
      end
  end.

Definition parse (s : jsstring) : list html :=
  build (tokenize false [] s) [] [].

(** The directory of images holds exactly the files listed. *)
Definition disk (files : list string) (path : jsstring) : bool :=
  existsb (fun f => eqb path (join Generate.IMAGES_DIR (lit f))) files.

Fixpoint afterHost (s : jsstring) : jsstring :=
  match s with
  | [] => []
  | c :: r => if (c =? 47)%N || (c =? 63)%N || (c =? 35)%N then s else afterHost r
  end.

Fixpoint untilQuery (s : jsstring) : jsstring :=
  match s with
  | [] => []
  | c :: r => if (c =? 63)%N || (c =? 35)%N then [] else c :: untilQuery r
  end.

Definition pathname (u : jsstring) : option jsstring :=
  let rest :=
    if startsWith (lit "https://") u then Some (skipn 8 u)
    else if startsWith (lit "http://") u then Some (skipn 7 u)
    else None in
  match rest with
  | None => None
  | Some r =>
      match untilQuery (afterHost r) with
      | [] => Some (lit "/")
      | p => Some p
      end
  end.

(** [new URL(u, BASE_URL).href] for a path that starts with a slash. *)
Definition href (u : jsstring) : option jsstring :=
  match u with
  | 47%N :: _ => Some (Crawl.BASE_URL ++ u)
  | _ => None
  end.

Definition cleanContentHtml (files : list string) :=
  Generate.cleanContentHtml parse decode (disk files).

Definition getExcerpt := Generate.getExcerpt parse decode.

Definition parseFrenchDate := Generate.parseFrenchDate toLowerCase.

End Plain.

(* ================================================================== *)
(** * Vocabulary of the properties                                      *)
(* ================================================================== *)

Import Dom.

(** What [escapeHtml] is to do with one character. *)
Definition escapeChar (c : N) : jsstring :=
  if (c =? 38)%N then lit "&amp;"
  else if (c =? 60)%N then lit "&lt;"
  else if (c =? 62)%N then lit "&gt;"
  else if (c =? 34)%N then lit "&quot;"
  else [c].

(** The characters that open or close a tag or an attribute value, and
    the markup skeleton of a document: what is left of it when every
    other character is erased. *)
Definition isMarkup (c : N) : bool :=
  ((c =? 60) || (c =? 62) || (c =? 34))%N.

Definition markup (s : jsstring) : jsstring := filter isMarkup s.

(** Two posts that differ at most in their title, date strings and the
    author and text of their comments. *)
Definition sameFrame (p q : Generate.Post) : Prop :=
  Generate.slug p = Generate.slug q
  /\ Generate.content_html p = Generate.content_html q
  /\ List.length (Generate.comments p) = List.length (Generate.comments q).

Definition sameLink (p q : option Generate.Post) : Prop :=
  option_map Generate.slug p = option_map Generate.slug q.

Definition sameSlug (p q : Generate.Post) : Prop :=
  Generate.slug p = Generate.slug q.

(** A URL that the crawler's filter lets through: its path, stripped of
    one leading and one trailing slash, is not empty, is none of the
    skipped slugs and has a single segment, and the URL does not
    mention [attachment_id]. *)
Definition keptUrl (pathname : jsstring -> option jsstring) (u : jsstring)
  : Prop :=
  exists p, pathname u = Some p /\
    let path := replaceRe Crawl.edgeSlashRe [] p in
    path <> [] /\ ~ In path Crawl.SKIP_SLUGS /\ ~ In 47%N path
    /\ includes (lit "attachment_id") u = false.

(** The attachment slugs in force: the content of the JSON file, or
    nothing when it cannot be loaded. *)
Definition excludedSlugs (attachmentFile : option (list jsstring))
  : list jsstring :=
  match attachmentFile with
  | Some raw => raw
  | None => []
  end.

Definition keptPost (attachmentFile : option (list jsstring))
    (p : Generate.Post) : bool :=
  negb (Generate.has (excludedSlugs attachmentFile) (Generate.slug p)).

(** Calendar dates: the days of month [m] (1 to 12) of year [y], the
    triples day, month, year that name a day of the calendar in a year
    that [Date] holds as it is given (from 100 on, years before are
    taken as 1900 + year), and the canonical text of such a date. *)
Definition daysInMonth (y m : Z) : Z :=
  (if m =? 2 then (if inLeapYear y then 29 else 28)
   else if (m =? 4) || (m =? 6) || (m =? 9) || (m =? 11) then 30
   else 31)%Z.

Definition validTriple (d m y : Z) : Prop :=
  (1 <= m <= 12 /\ 1 <= d <= daysInMonth y m /\ 100 <= y <= 275759)%Z.

Definition frenchMonth (m : Z) : jsstring :=
  match Generate.monthName m Generate.FRENCH_MONTHS with
  | Some s => s
  | None => []
  end.

Definition canonicalDate (d m y : Z) : jsstring :=
  showZ d ++ lit " " ++ frenchMonth m ++ lit " " ++ showZ y.

(** A lower-casing function that leaves the twelve month names alone,
    as [toLowerCase] does. *)
Definition fixesMonthNames (toLowerCase : jsstring -> jsstring) : Prop :=
  forall m name, In (m, name) Generate.FRENCH_MONTHS -> toLowerCase name = name.

Definition spaceFree (s : jsstring) : Prop :=
  Forall (fun c => isSpace c = false) s.

(** Date strings that do not parse: fewer than three tokens, or a day
    or year token that is not a number or is zero, or a month token that
    is neither in the table nor starts with the first three letters of a
    table entry. *)
Definition dateTokens (s : jsstring) : list jsstring := splitWs (trim s).

Definition notANumber (tok : jsstring) : Prop :=
  parseInt10 tok = None \/ parseInt10 tok = Some 0%Z.

Definition unknownMonth (toLowerCase : jsstring -> jsstring)
    (tok : jsstring) : Prop :=
  Generate.monthNum (toLowerCase tok) Generate.FRENCH_MONTH_TO_NUM = None
  /\ Generate.fuzzyMonth (toLowerCase tok) = None.

Definition unparseable (toLowerCase : jsstring -> jsstring)
    (s : jsstring) : Prop :=
  List.length (dateTokens s) < 3
  \/ exists p0 p1 p2 rest,
       dateTokens s = p0 :: p1 :: p2 :: rest
       /\ (notANumber p0 \/ unknownMonth toLowerCase p1 \/ notANumber p2).

(** [p] sorts as oldest in [l]: only posts without a date follow it. *)
Definition sortsAsOldest (l : list Generate.Post) (p : Generate.Post) : Prop :=
  forall l1 l2, l = l1 ++ p :: l2 ->
  forall q, In q l2 -> Generate.parsedDate q = None.

(** A sample for that: one post dated before 1970, one with no
    readable date. *)
Definition samplePost (t d s : string) : Generate.Post :=
  {| Generate.title := lit t; Generate.date := lit d; Generate.slug := lit s;
     Generate.url := lit "https://lespetitsvendredis.com/" ++ lit s ++ lit "/";
     Generate.content_html := []; Generate.images := [];
     Generate.comments := [];
     Generate.parsedDate := None; Generate.parsedDateStr := None |}.

Definition oldAndUndated : Generate.PostData :=
  {| Generate.posts := [ samplePost "Souvenir" "5 mars 1960" "souvenir";
                         samplePost "Brouillon" "bientôt" "brouillon" ];
     Generate.image_map := [] |}.

(** The sort key as a number, for posts whose key is not NaN. *)
Definition keyOf (p : Generate.Post) : Z :=
  match Generate.sortKey p with
  | Some k => k
  | None => 0%Z
  end.

(** The text an excerpt is cut from. *)
Definition excerptText (parse : jsstring -> list html)
    (decode : jsstring -> jsstring) (htmlStr : jsstring) : jsstring :=
  trim (replaceAll (lit "Continuer la lecture →") []
          (Generate.textOf decode
             (Generate.rootOf (Generate.parseDocument parse htmlStr)))).

(** [out] is an excerpt of [text] for the limit [n] that is cut at the
    last boundary character among the first [n] characters: it is at most
    [n] characters and an ellipsis long, it is [text] itself when that is
    short enough, and otherwise it keeps the characters before the last
    boundary character found among the first [n], or the first [n]
    characters when none of them is a boundary. *)
Definition wordSafeCut (boundary : N -> bool) (text : jsstring) (n : nat)
    (out : jsstring) : Prop :=
  List.length out <= n + 3
  /\ (List.length text <= n -> out = text)
  /\ (n < List.length text ->
      exists k, out = firstn k text ++ lit "..." /\ k <= n
        /\ (existsb boundary (firstn n text) = true ->
            exists b rest, firstn n text = firstn k text ++ b :: rest
                           /\ boundary b = true
                           /\ existsb boundary rest = false)
        /\ (existsb boundary (firstn n text) = false -> k = n)).

Definition isBlankChar (c : N) : bool := (c =? 32)%N.

Definition twoParagraphs : jsstring :=
  lit "<p>hello</p>" ++ Generate.nl ++ lit "<p>world</p>".

(** ** Trees *)

(** The identities of the elements of a tree, in document order, and
    documents in which no identity occurs twice. *)
Fixpoint ids (n : node) : list nat :=
  match n with
  | Text _ => []
  | Elem i _ _ kids => i :: flat_map ids kids
  end.

Definition idsF (ks : list node) : list nat := flat_map ids ks.

(** The effect of a removal loop on a tree: every element that [drop]
    selects is left out with its subtree, the test being made on the
    element as it was when the loop started. *)
Fixpoint prune (drop : node -> bool) (n : node) : node :=
  match n with
  | Text _ => n
  | Elem i t a kids =>
      Elem i t a
        (flat_map (fun k => if drop k then [] else [prune drop k]) kids)
  end.

Definition pruneF (drop : node -> bool) (ks : list node) : list node :=
  flat_map (fun k => if drop k then [] else [prune drop k]) ks.

Fixpoint size (n : node) : nat :=
  match n with
  | Text _ => 1
  | Elem _ _ _ kids => S (list_sum (map size kids))
  end.

Definition sizeF (ks : list node) : nat := list_sum (map size ks).

(** The four stages of the image lookup, each on its own. *)
Definition normalizeProtocol (url : jsstring) : jsstring :=
  replaceFirst (lit "http://") (lit "https://") url.

Definition nonEmpty (v : option jsstring) : option jsstring :=
  if Generate.truthy v then v else None.

Definition exactMatch (url : jsstring) (m : Generate.ImageMap) : option jsstring :=
  nonEmpty (Generate.lookup (normalizeProtocol url) m).

Definition unsuffixedMatch (url : jsstring) (m : Generate.ImageMap)
  : option jsstring :=
  nonEmpty (Generate.lookup (Generate.stripSizeSuffix (normalizeProtocol url)) m).

Definition fileName (url : jsstring) : jsstring := basename (beforeChar 63 url).

Definition basenameMatch (url : jsstring) (m : Generate.ImageMap)
  : option jsstring :=
  option_map snd (find (fun kv => JS.eqb (fileName (fst kv)) (fileName url)) m).

Definition diskMatch (existsSync : jsstring -> bool) (url : jsstring)
  : option jsstring :=
  let f := Generate.sanitize (fileName url) in
  if existsSync (join Generate.IMAGES_DIR f) then Some f else None.

Definition orElse (a b : option jsstring) : option jsstring :=
  match a with
  | Some x => Some x
  | None => b
  end.

(** Two states of the disk that agree on which sanitized file names
    exist in the directory of images. *)
Definition sameImages (e1 e2 : jsstring -> bool) : Prop :=
  forall f, e1 (join Generate.IMAGES_DIR (Generate.sanitize f))
            = e2 (join Generate.IMAGES_DIR (Generate.sanitize f)).

Definition isElem (n : node) : Prop :=
  match n with
  | Text _ => False
  | Elem _ _ _ _ => True
  end.

Definition uniqueIds (d : dom) : Prop := NoDup (idsF d).

(** The nearest of an element and its ancestors, inside the tree [r],
    that matches a selector. *)
Definition nearest (decode : jsstring -> jsstring) (s : selector)
    (i : nat) (r : node) : option node :=
  find (Generate.matchesSel decode s) (chain i r).

(** What goes when the image [img] of identity [i] cannot be resolved:
    its nearest enclosing figure, else its nearest enclosing anchor,
    else the image itself. *)
Definition removalTarget (decode : jsstring -> jsstring) (i : nat)
    (r img : node) : node :=
  match nearest decode (tagSel "figure") i r with
  | Some fig => fig
  | None =>
      match nearest decode (tagSel "a") i r with
      | Some a => a
      | None => img
      end
  end.

(** An image with a source that none of the four stages resolves. *)
Definition unresolvable (decode : jsstring -> jsstring)
    (existsSync : jsstring -> bool) (m : Generate.ImageMap) (img : node)
  : Prop :=
  Generate.getAttribute decode "src" img <> []
  /\ Generate.truthy
       (Generate.findLocalImage existsSync
          (Generate.getAttribute decode "src" img) m) = false.

(** All elements of a forest, in document order. *)
Definition elemsF (ks : list node) : list node :=
  flat_map (fun k => match k with
                     | Text _ => []
                     | Elem _ _ _ _ => k :: descendants k
                     end) ks.

(** One iteration of a removal loop, seen on the children of the root:
    the element [i], if it is still there and [cond] holds of it, is cut
    out. *)
Definition cutStep (cond : node -> bool) (ks : list node) (i : nat)
  : list node :=
  match firstSome (findIn i) ks with
  | Some live =>
      if cond live
      then filter (fun k => negb (hasId i k)) (map (cutIn i) ks)
      else ks
  | None => ks
  end.

(** The loop itself, on a whole document. *)
Definition removalLoop (cond : node -> bool) (els : list node) (d : dom) : dom :=
  Generate.forEach els
    (fun el d => if cond el then remove (Generate.nodeId el) d else d) d.

(** The three removal passes as tests on an element. *)
Definition shareDrop (decode : jsstring -> jsstring) (k : node) : bool :=
  Generate.matchesAny decode [tagSel "div"; tagSel "span"] k
  && test Generate.shareRe (Generate.getAttribute decode "class" k).

Definition moreLinkDrop (decode : jsstring -> jsstring) (k : node) : bool :=
  Generate.matchesAny decode [classSel "a" "more-link"] k && true.

Definition emptyDrop (decode : jsstring -> jsstring) (k : node) : bool :=
  Generate.matchesAny decode [tagSel "p"; tagSel "div"] k
  && (Generate.isBlank (Generate.textOf decode k)
      && negb (Generate.hasImg decode k)).

(** The children of the root after the three removal passes. *)
Definition prunedKids (decode : jsstring -> jsstring) (ks : list node)
  : list node :=
  pruneF (emptyDrop decode)
    (pruneF (moreLinkDrop decode) (pruneF (shareDrop decode) ks)).

(** A property of every text and of the tag and attributes of every
    element of a tree. *)
Fixpoint every (pt : jsstring -> bool) (pe : jsstring -> attrs -> bool)
    (n : node) : bool :=
  match n with
  | Text s => pt s
  | Elem _ t a kids => pe t a && forallb (every pt pe) kids
  end.

Definition ampFree (s : jsstring) : bool :=
  negb (existsb (fun c => (c =? 38)%N) s).

Definition notImageOrCaption (t : jsstring) (_ : attrs) : bool :=
  negb (JS.eqb (lower t) (lit "img"))
  && negb (JS.eqb (lower t) (lit "figcaption")).

(** Fragments without images and figure captions whose text holds no
    character reference. *)
Definition plainFragment (ks : list node) : bool :=
  forallb (every ampFree notImageOrCaption) ks.

(** A decoder that leaves text without an ampersand as it is. *)
Definition plainDecode (decode : jsstring -> jsstring) : Prop :=
  forall s, ampFree s = true -> decode s = s.

(** ** Vocabulary of the further properties *)

(** The month that [parseFrenchDate] reads from a token: its number in
    the table, else the number of the first month whose first three
    letters start the token, else 0. *)
Definition resolvedMonth (toLowerCase : jsstring -> jsstring) (tok : jsstring) : Z :=
  match Generate.monthNum (toLowerCase tok) Generate.FRENCH_MONTH_TO_NUM with
  | Some n => n
  | None =>
      match Generate.fuzzyMonth (toLowerCase tok) with
      | Some n => n
      | None => 0%Z
      end
  end.

(** A number in two digits. *)
Definition twoDigits (z : Z) : jsstring :=
  if (z <? 10)%Z then 48%N :: showZ z else showZ z.

(** The characters that are left as they are in a file name. *)
Definition safeChar (c : N) : bool :=
  isWord c || (c =? 45)%N || (c =? 95)%N || (c =? 46)%N.

(** The page of the post at place [i] of the list [ps], with the links
    that the loop of [main] gives it: the post after it in the list as
    the previous one, the post before it as the next one. *)
Definition pageAt (parse : jsstring -> list html) (decode : jsstring -> jsstring)
    (existsSync : jsstring -> bool) (m : Generate.ImageMap)
    (ps : list Generate.Post) (i : nat) (post : Generate.Post)
  : option jsstring :=
  Generate.generatePostPage parse decode existsSync post
    (nth_error ps (S i))
    (match i with
     | 0 => None
     | S j => nth_error ps j
     end)
    m.

(** The tree of a document with share buttons, a more-link and an empty
    paragraph. *)
Definition clutteredTree : node :=
  Elem 0 [] []
    [ Elem 1 (lit "p") [] [ Text (lit "Bonjour") ];
      Elem 2 (lit "div") [(lit "class", lit "a2a_kit")]
        [ Elem 3 (lit "span") [] [ Text (lit "Partager") ] ];
      Elem 4 (lit "p") []
        [ Elem 5 (lit "a") [(lit "class", lit "more-link")]
            [ Text (lit "Continuer") ] ];
      Elem 6 (lit "p") [] [ Text (lit " ") ] ].

(** The keys of an image map. *)
Definition keys (m : list (jsstring * jsstring)) : list jsstring := map fst m.

(** A disk keeps what another disk holds. *)
Definition keeps (d' d : Crawl.Disk) : Prop :=
  forall p, Crawl.existsSync d p = true ->
    Crawl.existsSync d' p = true
    /\ find (fun f => JS.eqb (fst f) p) d' = find (fun f => JS.eqb (fst f) p) d.

(** A sample post of the crawler with two images. *)
Definition crawledPost : Crawl.Post :=
  {| Crawl.title := lit "Un vendredi"; Crawl.date := lit "5 mars 2021";
     Crawl.slug := lit "un-vendredi";
     Crawl.url := lit "https://lespetitsvendredis.com/un-vendredi/";
     Crawl.content_html := [];
     Crawl.images := [ lit "https://lespetitsvendredis.com/a/chat.jpg";
                       lit "http://lespetitsvendredis.com/b/chien.png" ];
     Crawl.comments := [];
     Crawl.local_images := None |}.

(** ** Samples *)

(** One step of reading a decimal number. *)
Definition digitStep (acc c : N) : N := (acc * 10 + (c - 48))%N.

(** An image whose file is looked for on the disk only. *)
Definition loneImage : jsstring := Generate.tpl "<img src=^x.jpg^>".

(** A block that holds nothing but an image that cannot be resolved, and
    what is left of it. *)
Definition orphanImageBlock : jsstring :=
  Generate.tpl "<div class=^x^><img src=^gone.jpg^></div>".

Definition emptiedBlock : jsstring := Generate.tpl "<div class=^x^></div>".

(** A figure whose image sits among share buttons. *)
Definition sharedFigure : jsstring :=
  Generate.tpl "<figure><div class=^a2a^><img src=^gone.jpg^></div></figure>".

(** A figure with a linked image, as a tree under the root of a
    document. *)
Definition orphanFigureTree : node :=
  Elem 0 [] []
    [ Elem 1 (lit "figure") []
        [ Elem 2 (lit "a") [(lit "href", lit "big.jpg")]
            [ Elem 3 (lit "img") [(lit "src", lit "gone.jpg")] [] ] ];
      Elem 4 (lit "p") [] [ Text (lit "Bonjour") ] ].

(** A resized image and the image it was made from. *)
Definition suffixedPhoto : jsstring :=
  lit "https://lespetitsvendredis.com/wp-content/uploads/photo-300x200.jpg".

Definition plainPhoto : jsstring :=
  lit "https://lespetitsvendredis.com/wp-content/uploads/photo.jpg".

(** A sitemap that lists one post twice. *)
Definition twiceListed : list jsstring :=
  [ lit "https://lespetitsvendredis.com/un-vendredi/";
    lit "https://lespetitsvendredis.com/un-vendredi/" ].

(** A network that answers three fetches, an empty disk, and what the
    crawl of the sample post makes of them. *)
Definition freshWorld : Crawl.World :=
  {| Crawl.disk := [];
     Crawl.net := [Some (lit "chat"); Some (lit "chien"); Some (lit "sylvie")] |}.

Definition afterChat : Crawl.World :=
  {| Crawl.disk := [(lit "docs/images/chat.jpg", lit "chat")];
     Crawl.net := [Some (lit "chien"); Some (lit "sylvie")] |}.

Definition crawledMap : list (jsstring * jsstring) :=
  [ (lit "https://lespetitsvendredis.com/a/chat.jpg", lit "chat.jpg");
    (lit "http://lespetitsvendredis.com/b/chien.png", lit "chien.png");
    (Crawl.PORTRAIT, lit "sylvie.jpg") ].

Definition afterCrawl : Crawl.World :=
  {| Crawl.disk := [ (lit "docs/images/sylvie.jpg", lit "sylvie");
                     (lit "docs/images/chien.png", lit "chien");
                     (lit "docs/images/chat.jpg", lit "chat") ];
     Crawl.net := [] |}.

(** ** Tactics *)

(** Case analysis on a month number from 1 to 12. *)
Ltac month_cases m :=
  let H := fresh in
  assert (H : (m = 1 \/ m = 2 \/ m = 3 \/ m = 4 \/ m = 5 \/ m = 6 \/ m = 7
               \/ m = 8 \/ m = 9 \/ m = 10 \/ m = 11 \/ m = 12)%Z) by lia;
  destruct H as [-> | [-> | [-> | [-> | [-> | [-> | [-> | [-> | [-> | [-> | [-> | ->]]]]]]]]]]].

(** Evaluation of the first day of a month given by a numeral. *)
Ltac eval_monthStart :=
  repeat match goal with
         | |- context [monthStart ?l ?k] =>
             let v := eval vm_compute in (monthStart l k) in
             change (monthStart l k) with v
         end.

(* ================================================================== *)
(** * Proofs                                                            *)
(* ================================================================== *)

Unset Implicit Arguments.

(** ** Strings, escaping and the markup skeleton *)

(** Strings *)
Lemma eqb_eq (a b : jsstring) : JS.eqb a b = true <-> a = b.
Proof.
  revert b; induction a as [|x a IH]; destruct b as [|y b]; simpl; try (split; congruence).
  rewrite andb_true_iff, N.eqb_eq, IH. split; [intros [-> ->]; reflexivity | intros H; inversion H; auto].
Qed.

Lemma eqb_refl (a : jsstring) : JS.eqb a a = true.
Proof. apply eqb_eq; reflexivity. Qed.

Lemma eqb_neq (a b : jsstring) : JS.eqb a b = false <-> a <> b.
Proof.
  rewrite <- eqb_eq. destruct (JS.eqb a b); split; congruence.
Qed.

Lemma replaceAll_fuel_char (c : N) (r : jsstring) (s : jsstring) (f : nat) :
  List.length s <= f ->
  replaceAll_fuel f [c] r s = flat_map (fun x => if (x =? c)%N then r else [x]) s.
Proof.
  revert s; induction f as [|f IH]; intros s Hs.
  - destruct s; simpl in *; [reflexivity | lia].
  - destruct s as [|x s]; simpl; [reflexivity|].
    simpl in Hs.
    rewrite (N.eqb_sym c x). destruct (x =? c)%N; simpl;
      rewrite IH by lia; reflexivity.
Qed.

Lemma replaceAll_char (c : N) (r s : jsstring) :
  replaceAll [c] r s = flat_map (fun x => if (x =? c)%N then r else [x]) s.
Proof. apply replaceAll_fuel_char. lia. Qed.

(** escapeHtml *)
Lemma flat_map_flat_map {A B C} (f : A -> list B) (g : B -> list C) (l : list A) :
  flat_map g (flat_map f l) = flat_map (fun x => flat_map g (f x)) l.
Proof.
  induction l as [|x l IH]; simpl; [reflexivity|].
  rewrite flat_map_app, IH. reflexivity.
Qed.

Lemma flat_map_ext' {A B} (f g : A -> list B) (l : list A) :
  (forall x, f x = g x) -> flat_map f l = flat_map g l.
Proof. intros H; induction l; simpl; [reflexivity | rewrite H, IHl; reflexivity]. Qed.

Lemma escapeHtml_chars (s : jsstring) :
  Generate.escapeHtml s = flat_map escapeChar s.
Proof.
  unfold Generate.escapeHtml.
  change (lit "&") with [38%N]. change (lit "<") with [60%N]. change (lit ">") with [62%N].
  rewrite !replaceAll_char, !flat_map_flat_map.
  apply flat_map_ext'. intros x. unfold escapeChar.
  destruct (x =? 38)%N eqn:E1; [reflexivity|].
  simpl. destruct (x =? 60)%N eqn:E2; [reflexivity|].
  simpl. destruct (x =? 62)%N eqn:E3; [reflexivity|].
  simpl. destruct (x =? 34)%N eqn:E4; [reflexivity|].
  rewrite app_nil_r. reflexivity.
Qed.

Opaque Generate.tpl lit Generate.nl.

Lemma markup_app (a b : jsstring) : markup (a ++ b) = markup a ++ markup b.
Proof. apply filter_app. Qed.

Lemma markup_escapeChar (c : N) : markup (escapeChar c) = [].
Proof.
  unfold escapeChar.
  destruct (c =? 38)%N eqn:E1; [reflexivity|].
  destruct (c =? 60)%N eqn:E2; [reflexivity|].
  destruct (c =? 62)%N eqn:E3; [reflexivity|].
  destruct (c =? 34)%N eqn:E4; [reflexivity|].
  unfold markup, isMarkup; simpl. rewrite E2, E3, E4. reflexivity.
Qed.

Lemma markup_escapeHtml (s : jsstring) : markup (Generate.escapeHtml s) = [].
Proof.
  rewrite escapeHtml_chars. induction s as [|c s IH]; simpl; [reflexivity|].
  rewrite markup_app, markup_escapeChar, IH. reflexivity.
Qed.

Lemma markup_concat_map {A} (f : A -> jsstring) (l : list A) :
  markup (List.concat (map f l)) = List.concat (map (fun x => markup (f x)) l).
Proof.
  induction l as [|x l IH]; simpl; [reflexivity|].
  rewrite markup_app, IH. reflexivity.
Qed.

Create Rewrite HintDb skeleton.
#[local] Hint Rewrite markup_app markup_escapeHtml : skeleton.

Lemma markup_navLink (cls label : string) (p q : Generate.Post) :
  Generate.slug p = Generate.slug q ->
  markup (Generate.navLink cls label p) = markup (Generate.navLink cls label q).
Proof.
  intros H. unfold Generate.navLink. autorewrite with skeleton. rewrite H. reflexivity.
Qed.

Lemma markup_navigation (p p' n n' : option Generate.Post) :
  sameLink p p' -> sameLink n n' ->
  markup (Generate.navigation p n) = markup (Generate.navigation p' n').
Proof.
  unfold sameLink.
  destruct p as [p|], p' as [p'|]; cbn [option_map]; intros H1; try discriminate;
  destruct n as [n|], n' as [n'|]; cbn [option_map]; intros H2; try discriminate;
  repeat match goal with
         | H : Some _ = Some _ |- _ => injection H as H
         end;
  unfold Generate.navigation; repeat rewrite markup_app.
  - rewrite (markup_navLink "prev" "Précédent" p p' H1),
            (markup_navLink "next" "Suivant" n n' H2). exact eq_refl.
  - rewrite (markup_navLink "prev" "Précédent" p p' H1). exact eq_refl.
  - rewrite (markup_navLink "next" "Suivant" n n' H2). exact eq_refl.
  - exact eq_refl.
Qed.

Lemma markup_commentHtml (c c' : Generate.Comment) :
  markup (Generate.commentHtml c) = markup (Generate.commentHtml c').
Proof. unfold Generate.commentHtml. autorewrite with skeleton. reflexivity. Qed.

Lemma markup_comment_list (cs cs' : list Generate.Comment) :
  List.length cs = List.length cs' ->
  markup (List.concat (map Generate.commentHtml cs))
  = markup (List.concat (map Generate.commentHtml cs')).
Proof.
  revert cs'; induction cs as [|c cs IH]; destruct cs' as [|c' cs'];
    cbn [List.length map List.concat];
    try discriminate; [reflexivity|].
  intros H. rewrite !markup_app, (markup_commentHtml c c'), (IH cs') by congruence.
  reflexivity.
Qed.

Lemma markup_commentsSection (cs cs' : list Generate.Comment) :
  List.length cs = List.length cs' ->
  markup (Generate.commentsSection cs) = markup (Generate.commentsSection cs').
Proof.
  intros H. unfold Generate.commentsSection.
  destruct cs as [|c cs], cs' as [|c' cs']; try discriminate; [reflexivity|].
  rewrite <- H. repeat rewrite markup_app.
  rewrite (markup_comment_list (c :: cs) (c' :: cs') H). reflexivity.
Qed.

Section Pages.
Variable parse : jsstring -> list html.
Variable decode : jsstring -> jsstring.
Variable existsSync : jsstring -> bool.

Lemma markup_postPage (post post' : Generate.Post) (prev prev' next next' : option Generate.Post) m :
  sameFrame post post' -> sameLink prev prev' -> sameLink next next' ->
  option_map markup (Generate.generatePostPage parse decode existsSync post prev next m)
  = option_map markup (Generate.generatePostPage parse decode existsSync post' prev' next' m).
Proof.
  intros (Hs & Hc & Hn) Hp Hx. unfold Generate.generatePostPage.
  rewrite Hc.
  destruct (Generate.cleanContentHtml parse decode existsSync (Generate.content_html post') m) as [content|];
    [|reflexivity].
  cbn [option_map]. apply (f_equal (@Some jsstring)).
  unfold Generate.htmlHead.
  destruct (Generate.getExcerpt parse decode (Generate.content_html post') 160);
  autorewrite with skeleton;
  rewrite (markup_navigation prev prev' next next' Hp Hx),
          (markup_commentsSection (Generate.comments post) (Generate.comments post') Hn);
  exact eq_refl.
Qed.

Lemma markup_htmlHead (t e : jsstring) :
  markup (Generate.htmlHead t e) = markup (Generate.htmlHead [] []).
Proof.
  unfold Generate.htmlHead. cbv zeta. destruct e; autorewrite with skeleton; exact eq_refl.
Qed.

Lemma markup_postItem (p q : Generate.Post) :
  sameSlug p q ->
  markup (Generate.postItem parse decode p) = markup (Generate.postItem parse decode q).
Proof.
  intros Hs. unfold Generate.postItem. cbv zeta. autorewrite with skeleton. rewrite Hs.
  exact eq_refl.
Qed.

Lemma markup_homepage (ps qs : list Generate.Post) :
  Forall2 sameSlug ps qs ->
  markup (Generate.generateHomepage parse decode ps)
  = markup (Generate.generateHomepage parse decode qs).
Proof.
  intros H. unfold Generate.generateHomepage. repeat rewrite markup_app.
  apply (f_equal (fun x => _ ++ x)). apply (f_equal (fun x => _ ++ x)).
  apply (f_equal (fun x => _ ++ x)). apply (f_equal (fun x => _ ++ x)).
  apply (f_equal (fun x => x ++ _)).
  induction H as [|p q ps qs Hpq _ IH]; cbn [map List.concat]; [reflexivity|].
  rewrite !markup_app, (markup_postItem p q Hpq), IH. exact eq_refl.
Qed.
End Pages.

(** ** The crawler's filter *)

(** ** Crawl filter *)
Lemma splitChar_length (c : N) (s : jsstring) :
  List.length (splitChar c s) = S (count_occ N.eq_dec s c).
Proof.
  induction s as [|x s IH]; simpl; [reflexivity|].
  destruct (N.eqb_spec x c) as [->|Hne].
  - destruct (N.eq_dec c c); [|congruence]. simpl. rewrite IH. reflexivity.
  - destruct (N.eq_dec x c); [congruence|].
    destruct (splitChar c s) eqn:E; simpl in *; [discriminate|]. exact IH.
Qed.

Lemma splitChar_single (c : N) (s : jsstring) :
  Nat.ltb 1 (List.length (splitChar c s)) = false <-> ~ In c s.
Proof.
  rewrite splitChar_length, Nat.ltb_ge.
  rewrite (count_occ_not_In N.eq_dec). lia.
Qed.

Lemma existsb_eqb_In (x : jsstring) (l : list jsstring) :
  existsb (JS.eqb x) l = true <-> In x l.
Proof.
  rewrite existsb_exists. split.
  - intros (y & Hy & E). apply eqb_eq in E. subst. exact Hy.
  - intros H. exists x. split; [exact H | apply eqb_refl].
Qed.

Section CrawlFacts.
Variable pathname : jsstring -> option jsstring.

Lemma isBlogPostUrl_true (u : jsstring) :
  Crawl.isBlogPostUrl pathname u = Some true <-> keptUrl pathname u.
Proof.
  unfold Crawl.isBlogPostUrl, keptUrl.
  destruct (pathname u) as [p|]; [|split; [discriminate | intros (p & H & _); discriminate]].
  set (path := replaceRe Crawl.edgeSlashRe [] p).
  split.
  - intros H. exists p. split; [reflexivity|]. cbv zeta. fold path.
    destruct path as [|c path'] eqn:Epath; [discriminate|].
    destruct (existsb (JS.eqb (c :: path')) Crawl.SKIP_SLUGS) eqn:E1; [discriminate|].
    destruct (Nat.ltb 1 (List.length (splitChar 47 (c :: path')))) eqn:E2; [discriminate|].
    destruct (includes (lit "attachment_id") u) eqn:E3; [discriminate|].
    repeat split.
    + discriminate.
    + intros Hin. apply existsb_eqb_In in Hin. congruence.
    + apply splitChar_single. exact E2.
  - intros (p' & Hp & H). injection Hp as <-. cbv zeta in H. fold path in H.
    destruct H as (H0 & H1 & H2 & H3).
    destruct path as [|c path'] eqn:Epath; [congruence|].
    destruct (existsb (JS.eqb (c :: path')) Crawl.SKIP_SLUGS) eqn:E1.
    { apply existsb_eqb_In in E1. contradiction. }
    apply splitChar_single in H2. rewrite H2, H3. reflexivity.
Qed.

Lemma filterPostUrls_In (l r : list jsstring) :
  Crawl.filterPostUrls pathname l = Some r ->
  forall u, In u r <-> In u l /\ Crawl.isBlogPostUrl pathname u = Some true.
Proof.
  revert r; induction l as [|x l IH]; simpl; intros r H u.
  - injection H as <-. simpl. tauto.
  - destruct (Crawl.isBlogPostUrl pathname x) as [keep|] eqn:Ex; [|discriminate].
    destruct (Crawl.filterPostUrls pathname l) as [r'|]; [|discriminate].
    injection H as <-. specialize (IH r' eq_refl u).
    destruct keep; simpl; rewrite IH; split.
    + intros [->|[H1 H2]]; auto.
    + intros [[->|H1] H2]; auto.
    + intros [H1 H2]; auto.
    + intros [[->|H1] H2]; [congruence | auto].
Qed.

Lemma filterPostUrls_count (l r : list jsstring) :
  Crawl.filterPostUrls pathname l = Some r ->
  forall u, count_occ (list_eq_dec N.eq_dec) r u <= count_occ (list_eq_dec N.eq_dec) l u.
Proof.
  revert r; induction l as [|x l IH]; simpl; intros r H u.
  - injection H as <-. simpl. lia.
  - destruct (Crawl.isBlogPostUrl pathname x) as [keep|] eqn:Ex; [|discriminate].
    destruct (Crawl.filterPostUrls pathname l) as [r'|]; [|discriminate].
    injection H as <-. specialize (IH r' eq_refl u).
    destruct keep; simpl; destruct (list_eq_dec N.eq_dec x u); lia.
Qed.

Lemma filterPostUrls_NoDup (l r : list jsstring) :
  Crawl.filterPostUrls pathname l = Some r -> NoDup l -> NoDup r.
Proof.
  intros H Hl. apply (NoDup_count_occ (list_eq_dec N.eq_dec)). intros u.
  pose proof (filterPostUrls_count l r H u).
  rewrite (NoDup_count_occ (list_eq_dec N.eq_dec)) in Hl. specialize (Hl u). lia.
Qed.

Lemma filterPostUrls_total (l : list jsstring) :
  (forall u, In u l -> pathname u <> None) ->
  exists r, Crawl.filterPostUrls pathname l = Some r.
Proof.
  induction l as [|x l IH]; simpl; intros H; [eexists; reflexivity|].
  destruct IH as [r Hr]; [intros u Hu; apply H; auto|].
  unfold Crawl.isBlogPostUrl at 1.
  destruct (pathname x) eqn:E; [|exfalso; apply (H x); auto].
  rewrite Hr. eexists; reflexivity.
Qed.
End CrawlFacts.

(** ** Filtering, sorting and the pages written *)

Section Filtering.
Variable toLowerCase : jsstring -> jsstring.
Variable attachmentFile : option (list jsstring).

Local Abbreviation kept := (keptPost attachmentFile).

Lemma loadAttachmentSlugs_stable (cache : option Generate.SlugSet) :
  cache = None \/ cache = Some (excludedSlugs attachmentFile) ->
  Generate.loadAttachmentSlugs attachmentFile cache
  = (excludedSlugs attachmentFile, Some (excludedSlugs attachmentFile)).
Proof. intros [->| ->]; reflexivity. Qed.

Lemma filterBlogPosts_filter (ps : list Generate.Post) (cache : option Generate.SlugSet) :
  cache = None \/ cache = Some (excludedSlugs attachmentFile) ->
  fst (Generate.filterBlogPosts attachmentFile ps cache) = filter kept ps.
Proof.
  revert cache; induction ps as [|p ps IH]; intros cache Hc; [reflexivity|].
  simpl. unfold Generate.isBlogPost. rewrite (loadAttachmentSlugs_stable cache Hc).
  specialize (IH (Some (excludedSlugs attachmentFile)) (or_intror eq_refl)).
  destruct (Generate.filterBlogPosts attachmentFile ps (Some (excludedSlugs attachmentFile))) as [r c2].
  simpl in IH. subst r. simpl. unfold keptPost.
  destruct (Generate.has (excludedSlugs attachmentFile) (Generate.slug p)); reflexivity.
Qed.

Lemma insertSorted_perm (x : Generate.Post) (l : list Generate.Post) :
  Permutation (Generate.insertSorted x l) (x :: l).
Proof.
  induction l as [|y l IH]; simpl; [reflexivity|].
  destruct (Generate.compareFn x y <=? 0)%Z; [reflexivity|].
  rewrite IH. apply perm_swap.
Qed.

Lemma sortPosts_perm (l : list Generate.Post) : Permutation (Generate.sortPosts l) l.
Proof.
  induction l as [|x l IH]; simpl; [reflexivity|].
  rewrite insertSorted_perm. constructor. exact IH.
Qed.

Lemma selectPosts_In (data : Generate.PostData) (q : Generate.Post) :
  In q (Generate.selectPosts toLowerCase attachmentFile data) <->
  exists p, In p (Generate.posts data) /\ kept p = true
            /\ q = Generate.annotate toLowerCase p.
Proof.
  unfold Generate.selectPosts.
  rewrite filterBlogPosts_filter by (left; reflexivity).
  split.
  - intros H. apply (Permutation_in _ (sortPosts_perm _)) in H.
    apply in_map_iff in H. destruct H as (p & <- & Hp).
    apply filter_In in Hp. exists p. tauto.
  - intros (p & Hp & Hk & ->).
    apply (Permutation_in _ (Permutation_sym (sortPosts_perm _))).
    apply in_map. apply filter_In. tauto.
Qed.

Lemma has_In (s : list jsstring) (x : jsstring) :
  Generate.has s x = true <-> In x s.
Proof. apply existsb_eqb_In. Qed.

Lemma selected_not_excluded (data : Generate.PostData) (q : Generate.Post) :
  In q (Generate.selectPosts toLowerCase attachmentFile data) ->
  ~ In (Generate.slug q) (excludedSlugs attachmentFile).
Proof.
  intros H. apply selectPosts_In in H. destruct H as (p & _ & Hk & ->).
  simpl. unfold keptPost in Hk. intros Hin. apply has_In in Hin.
  rewrite Hin in Hk. discriminate.
Qed.
End Filtering.

Section PagesOf.
Variable parse : jsstring -> list html.
Variable decode : jsstring -> jsstring.
Variable existsSync : jsstring -> bool.

Lemma postPages_of (ps : list Generate.Post) (next : option Generate.Post) m :
  forall f, In f (fst (Generate.postPages parse decode existsSync next ps m)) ->
  exists q prev nxt, In q ps /\ fst f = Generate.postPath q
    /\ Generate.generatePostPage parse decode existsSync q prev nxt m = Some (snd f).
Proof.
  revert next; induction ps as [|p ps IH]; intros next f; simpl; [tauto|].
  destruct (Generate.generatePostPage parse decode existsSync p (hd_error ps) next m) as [html|] eqn:E;
    [|simpl; tauto].
  specialize (IH (Some p)).
  destruct (Generate.postPages parse decode existsSync (Some p) ps m) as [ws ok].
  simpl. intros [<-|Hf].
  - exists p, (hd_error ps), next. simpl. auto.
  - destruct (IH f Hf) as (q & a & b & Hq & H1 & H2). exists q, a, b. auto.
Qed.

Lemma postPages_complete (ps : list Generate.Post) (next : option Generate.Post) m :
  snd (Generate.postPages parse decode existsSync next ps m) = true ->
  map fst (fst (Generate.postPages parse decode existsSync next ps m))
  = map Generate.postPath ps.
Proof.
  revert next; induction ps as [|p ps IH]; intros next; simpl; [reflexivity|].
  destruct (Generate.generatePostPage parse decode existsSync p (hd_error ps) next m) as [html|];
    [|simpl; discriminate].
  specialize (IH (Some p)).
  destruct (Generate.postPages parse decode existsSync (Some p) ps m) as [ws ok].
  simpl in *. intros H. rewrite (IH H). reflexivity.
Qed.
End PagesOf.

(** ** The calendar and decimal numbers *)

Open Scope Z_scope.

Lemma dayFromYear_step (y : Z) :
  dayFromYear (y + 1) = dayFromYear y + (if inLeapYear y then 366 else 365).
Proof.
  unfold dayFromYear, inLeapYear.
  destruct (y mod 4 =? 0) eqn:E4; destruct (y mod 100 =? 0) eqn:E100;
    destruct (y mod 400 =? 0) eqn:E400; cbn [negb orb andb];
    rewrite ?Z.eqb_eq, ?Z.eqb_neq in *;
    Z.div_mod_to_equations; lia.
Qed.

Lemma yearFromDay_spec (y n : Z) :
  dayFromYear y <= n < dayFromYear (y + 1) -> yearFromDay n = y.
Proof.
  intros H. unfold yearFromDay.
  set (e := 1970 + 400 * n / 146097).
  assert (He : y - 1 <= e <= y + 1).
  { pose proof (dayFromYear_step y) as Hs.
    assert (dayFromYear (y + 1) <= dayFromYear y + 366) by (rewrite Hs; destruct (inLeapYear y); lia).
    subst e. unfold dayFromYear in *. Z.div_mod_to_equations. lia. }
  pose proof (dayFromYear_step y) as S0.
  pose proof (dayFromYear_step (y + 1)) as S1.
  pose proof (dayFromYear_step (y - 1)) as S2.
  replace (y - 1 + 1) with y in S2 by lia.
  assert (e = y - 1 \/ e = y \/ e = y + 1) as [-> | [-> | ->]] by lia.
  - replace (y - 1 + 1) with y by lia.
    destruct (Z.leb_spec (dayFromYear y) n); [reflexivity | lia].
  - destruct (Z.leb_spec (dayFromYear (y + 1)) n); [lia|].
    destruct (Z.leb_spec (dayFromYear y) n); [reflexivity | lia].
  - destruct (Z.leb_spec (dayFromYear (y + 1 + 1)) n).
    { destruct (inLeapYear (y + 1)); lia. }
    destruct (Z.leb_spec (dayFromYear (y + 1)) n); lia.
Qed.

(** ** Decimal numbers *)
Open Scope N_scope.

Lemma showN_fuel_value (f : nat) (n : N) (acc : jsstring) :
  n < 2 ^ N.of_nat f ->
  fold_left digitStep (showN_fuel f n acc) 0 = fold_left digitStep acc n.
Proof.
  revert n acc; induction f as [|f IH]; intros n acc Hn.
  - simpl in *. assert (n = 0) by lia. subst. reflexivity.
  - cbn [showN_fuel]. destruct (N.ltb_spec n 10).
    + cbn [fold_left]. f_equal. unfold digitStep. lia.
    + rewrite IH.
      * cbn [fold_left]. f_equal. unfold digitStep.
        pose proof (N.Div0.div_mod n 10) as Hdm.
        pose proof (N.mod_lt n 10 ltac:(lia)) as Hlt.
        revert Hdm Hlt. generalize (n / 10) (n mod 10). intros q r Hdm Hlt. lia.
      * rewrite Nat2N.inj_succ, N.pow_succ_r' in Hn.
        apply N.Div0.div_lt_upper_bound. revert Hn. generalize (2 ^ N.of_nat f). intros. lia.
Qed.

Lemma showN_fuel_digits (f : nat) (n : N) (acc : jsstring) :
  Forall (fun c => isDigit c = true) acc ->
  Forall (fun c => isDigit c = true) (showN_fuel f n acc).
Proof.
  revert n acc; induction f as [|f IH]; intros n acc Ha; [exact Ha|].
  cbn [showN_fuel]. destruct (N.ltb_spec n 10).
  - constructor; [|exact Ha]. unfold isDigit.
    apply andb_true_iff; split; apply N.leb_le; lia.
  - apply IH. constructor; [|exact Ha]. unfold isDigit.
    pose proof (N.mod_lt n 10 ltac:(lia)) as Hlt. revert Hlt.
    generalize (n mod 10). intros r Hlt.
    apply andb_true_iff; split; apply N.leb_le; lia.
Qed.

Lemma showN_fuel_nonempty (f : nat) (n : N) (acc : jsstring) :
  showN_fuel (S f) n acc <> [].
Proof.
  revert n acc; induction f as [|f IH]; intros n acc.
  - cbn [showN_fuel]. destruct (n <? 10); discriminate.
  - cbn [showN_fuel]. destruct (n <? 10); [discriminate|].
    apply (IH (n / 10) ((48 + n mod 10) :: acc)).
Qed.

Lemma showN_bound (n : N) : n < 2 ^ N.of_nat (S (N.to_nat (N.log2 n))).
Proof.
  rewrite Nat2N.inj_succ, N2Nat.id.
  destruct n as [|p]; [reflexivity|].
  apply N.log2_spec. lia.
Qed.

Lemma showN_value (n : N) : digitsValue (showN n) = n.
Proof.
  unfold digitsValue, showN.
  change (fun acc c : N => acc * 10 + (c - 48)) with digitStep.
  rewrite showN_fuel_value by apply showN_bound. reflexivity.
Qed.

Lemma showN_digits (n : N) : Forall (fun c => isDigit c = true) (showN n).
Proof. apply showN_fuel_digits. constructor. Qed.

Lemma showN_nonempty (n : N) : showN n <> [].
Proof. apply showN_fuel_nonempty. Qed.

Lemma takeDigits_all (s : jsstring) :
  Forall (fun c => isDigit c = true) s -> takeDigits s = s.
Proof.
  induction 1 as [|c s Hc _ IH]; simpl; [reflexivity|]. rewrite Hc, IH. reflexivity.
Qed.

Lemma digit_not_space (c : N) : isDigit c = true -> isSpace c = false.
Proof.
  unfold isDigit, isSpace. rewrite andb_true_iff, !N.leb_le. intros [H1 H2].
  repeat match goal with
         | |- context [(?a <=? ?b)] => destruct (N.leb_spec a b)
         | |- context [(?a =? ?b)] => destruct (N.eqb_spec a b)
         end; try reflexivity; lia.
Qed.

Lemma parseInt10_digits (c : N) (s : jsstring) :
  isDigit c = true -> Forall (fun c => isDigit c = true) s ->
  parseInt10 (c :: s) = Some (Z.of_N (digitsValue (c :: s))).
Proof.
  intros Hc Hs. unfold parseInt10. cbn [trimStart].
  rewrite (digit_not_space c Hc).
  assert (Hb : 48 <= c <= 57).
  { unfold isDigit in Hc. apply andb_true_iff in Hc. rewrite !N.leb_le in Hc. lia. }
  destruct c as [|p]; [lia|].
  do 6 (destruct p as [p|p|]; try lia);
    cbn [takeDigits isDigit N.leb N.compare Pos.compare Pos.compare_cont andb];
    rewrite (takeDigits_all s Hs); reflexivity.
Qed.

Lemma parseInt10_showN (n : N) : parseInt10 (showN n) = Some (Z.of_N n).
Proof.
  pose proof (showN_digits n) as Hd. pose proof (showN_nonempty n) as Hn.
  pose proof (showN_value n) as Hv.
  destruct (showN n) as [|c s] eqn:E; [congruence|].
  rewrite parseInt10_digits, Hv; [reflexivity | |]; inversion Hd; assumption.
Qed.

Open Scope Z_scope.

Lemma dayFromYear_bounds (y : Z) :
  100 <= y <= 275759 -> -700000 <= dayFromYear y /\ dayFromYear (y + 1) <= 100000000 - 200.
Proof.
  intros H. unfold dayFromYear. Z.div_mod_to_equations. lia.
Qed.

Lemma dayInYear_fields (leap : bool) (m d : Z) :
  1 <= m <= 12 ->
  1 <= d <= (if m =? 2 then (if leap then 29 else 28)
             else if (m =? 4) || (m =? 6) || (m =? 9) || (m =? 11) then 30 else 31) ->
  let diy := monthStart leap (m - 1) + d - 1 in
  0 <= diy < (if leap then 366 else 365)
  /\ monthFromDayInYear leap diy = m - 1
  /\ diy - monthStart leap (m - 1) + 1 = d.
Proof.
  intros Hm Hd. cbv zeta.
  month_cases m; destruct leap;
    match type of Hd with
    | _ <= _ <= ?B => let v := eval vm_compute in B in change B with v in Hd
    end;
    unfold monthFromDayInYear; eval_monthStart;
    (split; [lia|]); (split; [|lia]);
    repeat match goal with
           | |- context [(?a <? ?b)] => destruct (Z.ltb_spec a b); try lia
           end; reflexivity.
Qed.

Lemma newDate_fields (d m y : Z) :
  validTriple d m y ->
  let dt := newDate y (m - 1) d in
  getDate dt = Some d /\ getMonth dt = Some (m - 1) /\ getFullYear dt = Some y.
Proof.
  intros (Hm & Hd & Hy).
  pose proof (dayFromYear_bounds y Hy) as [Hlo Hhi].
  pose proof (dayFromYear_step y) as Hstep.
  unfold daysInMonth in Hd.
  pose proof (dayInYear_fields (inLeapYear y) m d Hm Hd) as (Hr & Hmon & Hday).
  cbv zeta in Hr, Hmon, Hday.
  set (diy := monthStart (inLeapYear y) (m - 1) + d - 1) in *.
  assert (Hyr : ((0 <=? y) && (y <=? 99)) = false).
  { destruct (Z.leb_spec y 99); [lia|]. apply andb_false_r. }
  assert (Hday' : makeDay y (m - 1) d = dayFromYear y + diy).
  { unfold makeDay. replace ((m - 1) / 12) with 0 by (symmetry; apply Z.div_small; lia).
    rewrite Z.mod_small by lia. rewrite Z.add_0_r. subst diy. lia. }
  cbv zeta. unfold newDate. rewrite Hyr, Hday'.
  set (day := dayFromYear y + diy).
  assert (Hrange : dayFromYear y <= day < dayFromYear (y + 1)).
  { subst day. rewrite Hstep. destruct (inLeapYear y); lia. }
  unfold timeClip.
  assert (Hclip : (Z.abs (day * msPerDay) <=? maxTime) = true).
  { apply Z.leb_le. unfold msPerDay, maxTime. lia. }
  rewrite Hclip. unfold getDate, getMonth, getFullYear.
  assert (Hdiv : day * msPerDay / msPerDay = day) by (apply Z.div_mul; discriminate).
  rewrite Hdiv, (yearFromDay_spec y day Hrange).
  replace (day - dayFromYear y) with diy by (subst day; lia).
  rewrite Hmon. repeat split. f_equal. exact Hday.
Qed.

Close Scope Z_scope.
Close Scope N_scope.

(** ** Canonical dates *)

(** ** Tokens *)
Lemma splitWs_one (a : jsstring) : spaceFree a -> splitWs a = [a].
Proof.
  induction 1 as [|c a Hc _ IH]; [reflexivity|].
  cbn [splitWs]. rewrite Hc, IH. reflexivity.
Qed.

Lemma splitWs_cons (a : jsstring) (c : N) (b : jsstring) :
  spaceFree a -> isSpace c = false ->
  splitWs (a ++ 32%N :: c :: b) = a :: splitWs (c :: b).
Proof.
  intros Ha Hc. induction Ha as [|x a Hx _ IH].
  - cbn [app splitWs]. change (isSpace 32) with true. cbv iota. rewrite Hc. reflexivity.
  - cbn [app]. cbn [splitWs]. rewrite Hx. fold splitWs. rewrite IH. reflexivity.
Qed.

Lemma trimStart_id (c : N) (s : jsstring) :
  isSpace c = false -> trimStart (c :: s) = c :: s.
Proof. intros H. cbn [trimStart]. rewrite H. reflexivity. Qed.

Lemma trim_id (s : jsstring) :
  (forall c r, s = c :: r -> isSpace c = false) ->
  (forall c r, rev s = c :: r -> isSpace c = false) ->
  trim s = s.
Proof.
  intros H1 H2. unfold trim, trimEnd.
  assert (E1 : trimStart s = s).
  { destruct s as [|c r]; [reflexivity|]. apply trimStart_id. apply (H1 c r eq_refl). }
  rewrite E1.
  assert (E2 : trimStart (rev s) = rev s).
  { destruct (rev s) as [|c r] eqn:E; [reflexivity|]. apply trimStart_id. apply (H2 c r eq_refl). }
  rewrite E2. apply rev_involutive.
Qed.

Lemma showN_spaceFree (n : N) : spaceFree (showN n).
Proof.
  eapply Forall_impl; [|apply showN_digits]. intros c. apply digit_not_space.
Qed.

Lemma spaceFree_first (s : jsstring) (c : N) (r : jsstring) :
  spaceFree s -> s = c :: r -> isSpace c = false.
Proof. intros H ->. inversion H; assumption. Qed.

Lemma spaceFree_last (s : jsstring) (c : N) (r : jsstring) :
  spaceFree s -> rev s = c :: r -> isSpace c = false.
Proof.
  intros H E. unfold spaceFree in H. rewrite Forall_forall in H. apply H.
  apply in_rev. rewrite E. left; reflexivity.
Qed.

Lemma frenchMonth_cases (m : Z) :
  (1 <= m <= 12)%Z ->
  In (m, frenchMonth m) Generate.FRENCH_MONTHS
  /\ spaceFree (frenchMonth m) /\ frenchMonth m <> []
  /\ Generate.monthNum (frenchMonth m) Generate.FRENCH_MONTH_TO_NUM = Some m.
Proof.
  intros Hm. month_cases m;
    (split; [vm_compute; tauto|]);
    (split; [vm_compute; repeat constructor|]);
    (split; [vm_compute; discriminate | vm_compute; reflexivity]).
Qed.

Lemma showZ_pos (z : Z) : (0 <= z)%Z -> showZ z = showN (Z.to_N z).
Proof. destruct z; [reflexivity | reflexivity | lia]. Qed.

Lemma parseInt10_showZ (z : Z) : (0 <= z)%Z -> parseInt10 (showZ z) = Some z.
Proof.
  intros H. rewrite showZ_pos by exact H. rewrite parseInt10_showN.
  rewrite Z2N.id by exact H. reflexivity.
Qed.

Lemma canonicalDate_tokens (d m y : Z) :
  validTriple d m y ->
  canonicalDate d m y <> []
  /\ splitWs (trim (canonicalDate d m y)) = [showZ d; frenchMonth m; showZ y].
Proof.
  intros (Hm & Hd & Hy).
  destruct (frenchMonth_cases m Hm) as (_ & Hsf & Hne & _).
  assert (HD : spaceFree (showZ d)) by (rewrite showZ_pos by lia; apply showN_spaceFree).
  assert (HY : spaceFree (showZ y)) by (rewrite showZ_pos by lia; apply showN_spaceFree).
  assert (HDn : showZ d <> []) by (rewrite showZ_pos by lia; apply showN_nonempty).
  assert (HYn : showZ y <> []) by (rewrite showZ_pos by lia; apply showN_nonempty).
  unfold canonicalDate. change (lit " ") with [32%N].
  set (D := showZ d) in *. set (M := frenchMonth m) in *. set (Y := showZ y) in *.
  split.
  { destruct D; [congruence | discriminate]. }
  rewrite trim_id.
  - destruct M as [|c1 M'] eqn:EM; [congruence|].
    destruct Y as [|c2 Y'] eqn:EY; [congruence|].
    cbn [app].
    rewrite (splitWs_cons D c1 (M' ++ 32%N :: c2 :: Y') HD (spaceFree_first _ _ _ Hsf eq_refl)).
    change (c1 :: M' ++ 32%N :: c2 :: Y') with ((c1 :: M') ++ 32%N :: c2 :: Y').
    rewrite (splitWs_cons (c1 :: M') c2 Y' Hsf (spaceFree_first _ _ _ HY eq_refl)).
    rewrite (splitWs_one _ HY). reflexivity.
  - intros c r E. destruct D as [|c0 D']; [congruence|].
    injection E as <- _. apply (spaceFree_first _ _ _ HD eq_refl).
  - intros c r E. rewrite !rev_app_distr in E. cbn [rev app] in E.
    rewrite <- !app_assoc in E.
    destruct (rev Y) as [|c0 Y'] eqn:EY.
    { apply (f_equal (@rev N)) in EY. rewrite rev_involutive in EY. simpl in EY. congruence. }
    cbn [app] in E. injection E as <- _. apply (spaceFree_last Y c0 Y' HY EY).
Qed.

Section RoundTrip.
Variable toLowerCase : jsstring -> jsstring.
Hypothesis lower_months : fixesMonthNames toLowerCase.

Lemma parse_canonical (d m y : Z) :
  validTriple d m y ->
  Generate.parseFrenchDate toLowerCase (canonicalDate d m y)
  = Some (newDate y (m - 1) d).
Proof.
  intros H. destruct (canonicalDate_tokens d m y H) as [Hne Htok].
  destruct H as (Hm & Hd & Hy).
  destruct (frenchMonth_cases m Hm) as (Hin & _ & _ & Hnum).
  unfold Generate.parseFrenchDate.
  destruct (canonicalDate d m y) as [|c0 s0] eqn:E; [congruence|].
  rewrite Htok.
  rewrite (lower_months m (frenchMonth m) Hin), Hnum.
  rewrite !parseInt10_showZ by lia.
  assert (Em : (m =? 0)%Z = false) by (apply Z.eqb_neq; lia).
  assert (Ed : (d =? 0)%Z = false) by (apply Z.eqb_neq; lia).
  assert (Ey : (y =? 0)%Z = false) by (apply Z.eqb_neq; lia).
  rewrite Em. cbv iota. rewrite Em, Ed, Ey. reflexivity.
Qed.

Lemma format_newDate (d m y : Z) :
  validTriple d m y ->
  Generate.formatDate (Some (newDate y (m - 1) d)) = canonicalDate d m y.
Proof.
  intros H. destruct (newDate_fields d m y H) as (Hd & Hm & Hy).
  cbv zeta in Hd, Hm, Hy.
  unfold Generate.formatDate. rewrite Hd, Hm, Hy.
  replace (m - 1 + 1)%Z with m by lia.
  unfold canonicalDate, frenchMonth, showNumber. reflexivity.
Qed.
End RoundTrip.

(** ** Dates that do not parse, and the order of the posts *)

Lemma monthNum_nonzero (k : jsstring) (n : Z) :
  Generate.monthNum k Generate.FRENCH_MONTH_TO_NUM = Some n -> n <> 0%Z.
Proof.
  cbv [Generate.FRENCH_MONTH_TO_NUM Generate.FRENCH_MONTHS map fst snd Generate.monthNum].
  repeat match goal with
         | |- context [JS.eqb ?a k] => destruct (JS.eqb a k)
         end; intros H; try discriminate; injection H as <-; discriminate.
Qed.

Lemma fuzzyMonth_nonzero (k : jsstring) (n : Z) :
  Generate.fuzzyMonth k = Some n -> n <> 0%Z.
Proof.
  unfold Generate.fuzzyMonth.
  match goal with |- context [find ?f ?l] => destruct (find f l) as [e|] eqn:E end;
    [|discriminate].
  intros H. injection H as <-. apply find_some in E. destruct E as [E _].
  cbv [Generate.FRENCH_MONTH_TO_NUM Generate.FRENCH_MONTHS map fst snd In] in E.
  repeat (destruct E as [<-|E]; [discriminate|]). contradiction.
Qed.

Section Dates.
Variable toLowerCase : jsstring -> jsstring.

Lemma parseFrenchDate_tokens (s p0 p1 p2 : jsstring) (rest : list jsstring) :
  dateTokens s = p0 :: p1 :: p2 :: rest ->
  Generate.parseFrenchDate toLowerCase s =
  match parseInt10 p0, parseInt10 p2 with
  | Some d, Some y =>
      let month :=
        match Generate.monthNum (toLowerCase p1) Generate.FRENCH_MONTH_TO_NUM with
        | Some n => n
        | None => match Generate.fuzzyMonth (toLowerCase p1) with
                  | Some n => n
                  | None => 0%Z
                  end
        end in
      if ((d =? 0) || (month =? 0) || (y =? 0))%Z then None
      else Some (newDate y (month - 1) d)
  | _, _ => None
  end.
Proof.
  unfold dateTokens. intros H. unfold Generate.parseFrenchDate.
  destruct s as [|c s'] eqn:Es.
  { vm_compute in H. discriminate. }
  rewrite H.
  destruct (Generate.monthNum (toLowerCase p1) Generate.FRENCH_MONTH_TO_NUM) as [n|] eqn:En.
  - pose proof (monthNum_nonzero _ _ En) as Hn.
    apply Z.eqb_neq in Hn. cbv zeta. rewrite Hn. cbv iota. rewrite ?Hn. reflexivity.
  - cbv zeta. change (0 =? 0)%Z with true. cbv iota.
    destruct (Generate.fuzzyMonth (toLowerCase p1)); reflexivity.
Qed.

Lemma parseFrenchDate_short (s : jsstring) :
  List.length (dateTokens s) < 3 -> Generate.parseFrenchDate toLowerCase s = None.
Proof.
  unfold dateTokens, Generate.parseFrenchDate. intros H.
  destruct s as [|c s']; [reflexivity|].
  destruct (splitWs (trim (c :: s'))) as [|a [|b [|e r]]]; simpl in H; try reflexivity; lia.
Qed.

Lemma parseFrenchDate_None (s : jsstring) :
  Generate.parseFrenchDate toLowerCase s = None <-> unparseable toLowerCase s.
Proof.
  unfold unparseable.
  destruct (dateTokens s) as [|p0 [|p1 [|p2 rest]]] eqn:E;
    try (split; [intros _; left; simpl; lia | intros _; apply parseFrenchDate_short; rewrite E; simpl; lia]).
  rewrite (parseFrenchDate_tokens s p0 p1 p2 rest E).
  unfold notANumber, unknownMonth.
  split.
  - intros H. right. exists p0, p1, p2, rest. split; [reflexivity|].
    destruct (parseInt10 p0) as [d|]; [|auto].
    destruct (parseInt10 p2) as [y|]; [|auto].
    cbv zeta in H.
    destruct (Z.eqb_spec d 0); [subst; auto|].
    destruct (Z.eqb_spec y 0); [subst; auto|].
    destruct (Generate.monthNum (toLowerCase p1) Generate.FRENCH_MONTH_TO_NUM) as [n1|] eqn:En.
    { pose proof (monthNum_nonzero _ _ En) as Hn. apply Z.eqb_neq in Hn.
      rewrite Hn in H. discriminate. }
    destruct (Generate.fuzzyMonth (toLowerCase p1)) as [n1|] eqn:Ef; [|auto].
    pose proof (fuzzyMonth_nonzero _ _ Ef) as Hn. apply Z.eqb_neq in Hn.
    rewrite Hn in H. discriminate.
  - intros [H | (q0 & q1 & q2 & r & Hq & H)]; [simpl in H; lia|].
    injection Hq as <- <- <- <-.
    destruct H as [[H|H] | [[H1 H2] | [H|H]]].
    + rewrite H. reflexivity.
    + rewrite H. destruct (parseInt10 p2); reflexivity.
    + rewrite H1, H2. destruct (parseInt10 p0), (parseInt10 p2); try reflexivity.
      cbv zeta. change (0 =? 0)%Z with true. rewrite orb_true_r. reflexivity.
    + rewrite H. destruct (parseInt10 p0); reflexivity.
    + rewrite H. destruct (parseInt10 p0); [|reflexivity].
      cbv zeta. change (0 =? 0)%Z with true. rewrite orb_true_r. reflexivity.
Qed.

Lemma annotate_unparsed (p : Generate.Post) :
  Generate.parseFrenchDate toLowerCase (Generate.date p) = None ->
  Generate.parsedDateStr (Generate.annotate toLowerCase p) = Some (Generate.date p)
  /\ Generate.parsedDate (Generate.annotate toLowerCase p) = None
  /\ Generate.sortKey (Generate.annotate toLowerCase p) = Some 0%Z.
Proof.
  intros H. unfold Generate.annotate, Generate.sortKey. simpl. rewrite H. auto.
Qed.
End Dates.

(** ** The sort *)
Lemma compareFn_keys (a b : Generate.Post) :
  Generate.sortKey a <> None -> Generate.sortKey b <> None ->
  Generate.compareFn a b = (keyOf b - keyOf a)%Z.
Proof.
  unfold Generate.compareFn, keyOf.
  destruct (Generate.sortKey a), (Generate.sortKey b); congruence.
Qed.

Lemma insertSorted_sorted (x : Generate.Post) (l : list Generate.Post) :
  Generate.sortKey x <> None ->
  Forall (fun q => Generate.sortKey q <> None) l ->
  StronglySorted (fun a b => (keyOf b <= keyOf a)%Z) l ->
  StronglySorted (fun a b => (keyOf b <= keyOf a)%Z) (Generate.insertSorted x l).
Proof.
  intros Hx Hl Hs. induction Hs as [|y l Hs IH Hy]; simpl.
  - repeat constructor.
  - inversion Hl as [|? ? Hy' Hl']; subst.
    rewrite (compareFn_keys x y Hx Hy').
    destruct (Z.leb_spec (keyOf y - keyOf x) 0).
    + constructor; [constructor; assumption|].
      constructor; [lia|]. rewrite Forall_forall in Hy |- *. intros z Hz.
      specialize (Hy z Hz). lia.
    + constructor; [apply IH; assumption|].
      rewrite Forall_forall. intros z Hz.
      apply (Permutation_in _ (insertSorted_perm x l)) in Hz.
      destruct Hz as [<-|Hz]; [lia|]. rewrite Forall_forall in Hy. apply Hy, Hz.
Qed.

Lemma sortPosts_sorted (l : list Generate.Post) :
  Forall (fun q => Generate.sortKey q <> None) l ->
  StronglySorted (fun a b => (keyOf b <= keyOf a)%Z) (Generate.sortPosts l).
Proof.
  induction 1 as [|x l Hx Hl IH]; simpl; [constructor|].
  apply insertSorted_sorted; [assumption | | assumption].
  rewrite Forall_forall in *. intros z Hz. apply Hl.
  apply (Permutation_in _ (sortPosts_perm l)), Hz.
Qed.

Lemma sorted_split (R : Generate.Post -> Generate.Post -> Prop)
    (l1 l2 : list Generate.Post) (p : Generate.Post) :
  StronglySorted R (l1 ++ p :: l2) ->
  (forall q, In q l2 -> R p q) /\ (forall q, In q l1 -> R q p).
Proof.
  induction l1 as [|x l1 IH]; simpl; intros H; inversion H as [|? ? Hs Hf]; subst.
  - split; [|tauto]. rewrite Forall_forall in Hf. exact Hf.
  - destruct (IH Hs) as [H1 H2]. split; [exact H1|].
    intros q [<-|Hq]; [|auto]. rewrite Forall_forall in Hf. apply Hf.
    apply in_or_app. right. left. reflexivity.
Qed.

(** ** Excerpts *)

Lemma lastIndexOf_None (c : N) (s : jsstring) :
  lastIndexOf c s = None -> existsb (fun x => (x =? c)%N) s = false.
Proof.
  induction s as [|x s IH]; simpl; [reflexivity|].
  destruct (lastIndexOf c s); [discriminate|].
  destruct (x =? c)%N; [discriminate|]. intros _. apply IH. reflexivity.
Qed.

Lemma lastIndexOf_Some (c : N) (s : jsstring) (i : nat) :
  lastIndexOf c s = Some i ->
  s = firstn i s ++ c :: skipn (S i) s
  /\ existsb (fun x => (x =? c)%N) (skipn (S i) s) = false.
Proof.
  revert i; induction s as [|x s IH]; simpl; intros i H; [discriminate|].
  destruct (lastIndexOf c s) as [j|] eqn:E.
  - injection H as <-. destruct (IH j eq_refl) as [H1 H2].
    split; [|exact H2]. cbn [firstn app]. f_equal. exact H1.
  - destruct (N.eqb_spec x c) as [->|]; [|discriminate]. injection H as <-.
    cbn [firstn app skipn]. split; [reflexivity|]. apply lastIndexOf_None. exact E.
Qed.

Lemma lastIndexOf_found (c : N) (s : jsstring) :
  existsb (fun x => (x =? c)%N) s = true -> exists i, lastIndexOf c s = Some i.
Proof.
  destruct (lastIndexOf c s) as [i|] eqn:E; [eauto|].
  rewrite (lastIndexOf_None c s E). discriminate.
Qed.

Lemma trimStart_head (s : jsstring) (c : N) (r : jsstring) :
  trimStart s = c :: r -> isSpace c = false.
Proof.
  induction s as [|x s IH]; simpl; [discriminate|].
  destruct (isSpace x) eqn:E; [exact IH|]. intros H. injection H as <- _. exact E.
Qed.

Lemma trimStart_suffix (s : jsstring) : exists p, s = p ++ trimStart s.
Proof.
  induction s as [|x s [p IH]]; simpl; [exists []; reflexivity|].
  destruct (isSpace x); [|exists []; reflexivity].
  exists (x :: p). simpl. f_equal. exact IH.
Qed.

Lemma trim_head (s : jsstring) (c : N) (r : jsstring) :
  trim s = c :: r -> isSpace c = false.
Proof.
  unfold trim, trimEnd. intros H.
  destruct (trimStart_suffix (rev (trimStart s))) as [p Hp].
  apply (f_equal (@rev N)) in Hp. rewrite rev_involutive, rev_app_distr, H in Hp.
  simpl in Hp. apply (trimStart_head s c (r ++ rev p)). exact Hp.
Qed.

Lemma firstn_firstn_le (A : Type) (k n : nat) (l : list A) :
  k <= n -> firstn k (firstn n l) = firstn k l.
Proof. intros H. rewrite firstn_firstn. f_equal. lia. Qed.

Section Excerpt.
Variable parse : jsstring -> list html.
Variable decode : jsstring -> jsstring.

Lemma getExcerpt_cut (htmlStr : jsstring) (n : nat) :
  wordSafeCut isBlankChar (excerptText parse decode htmlStr) n
    (Generate.getExcerpt parse decode htmlStr n).
Proof.
  unfold Generate.getExcerpt. fold (excerptText parse decode htmlStr).
  set (text := excerptText parse decode htmlStr).
  assert (Hhead : forall c r, text = c :: r -> isSpace c = false).
  { intros c r. apply trim_head. }
  cbv zeta. unfold wordSafeCut.
  destruct (Nat.ltb_spec n (List.length text)) as [Hlt|Hge].
  2:{ split; [lia|]. split; [reflexivity | lia]. }
  change (lit "...") with [46%N; 46%N; 46%N].
  destruct (lastIndexOf 32 (firstn n text)) as [[|c]|] eqn:E.
  - (* a space at index 0: impossible after trim *)
    exfalso. apply lastIndexOf_Some in E. destruct E as [E _].
    destruct text as [|x r]; [simpl in Hlt; lia|].
    destruct n; [discriminate|]. cbn [firstn app skipn] in E.
    assert (Hx : x = 32%N) by (inversion E; reflexivity). subst x.
    specialize (Hhead 32%N r eq_refl). discriminate.
  - apply lastIndexOf_Some in E. destruct E as [E1 E2].
    assert (Hc : S c < n).
    { pose proof (f_equal (@List.length N) E1) as L.
      rewrite length_app in L. cbn [List.length] in L.
      rewrite !length_firstn in L. lia. }
    rewrite firstn_firstn_le in E1 by lia.
    split.
    { rewrite length_app, length_firstn. cbn [List.length]. lia. }
    split; [lia|]. intros _. exists (S c). split; [reflexivity|]. split; [lia|].
    split.
    + intros _. exists 32%N, (skipn (S (S c)) (firstn n text)).
      split; [exact E1|]. split; [reflexivity | exact E2].
    + intros H. exfalso. rewrite E1, existsb_app in H. simpl in H.
      rewrite orb_true_r in H. discriminate.
  - apply lastIndexOf_None in E.
    split.
    { rewrite length_app, length_firstn. cbn [List.length]. lia. }
    split; [lia|]. intros _. exists n. split; [reflexivity|]. split; [lia|].
    split; [|reflexivity].
    intros H. unfold isBlankChar in H. rewrite E in H. discriminate.
Qed.
End Excerpt.

(** ** The image lookup *)

(** ** Image lookup *)
Section Lookup.
Variable existsSync : jsstring -> bool.

Lemma findLocalImage_stages (url : jsstring) (m : Generate.ImageMap) :
  Generate.findLocalImage existsSync url m
  = orElse (exactMatch url m)
      (orElse (unsuffixedMatch url m)
         (orElse (basenameMatch url m) (diskMatch existsSync url))).
Proof.
  unfold Generate.findLocalImage, exactMatch, unsuffixedMatch, basenameMatch,
    diskMatch, nonEmpty, normalizeProtocol, fileName.
  cbv zeta.
  destruct (Generate.lookup (replaceFirst (lit "http://") (lit "https://") url) m) as [[|c v]|];
    cbn [Generate.truthy orElse]; try reflexivity;
  destruct (Generate.lookup (Generate.stripSizeSuffix (replaceFirst (lit "http://") (lit "https://") url)) m) as [[|c' v']|];
    cbn [Generate.truthy orElse]; try reflexivity;
  match goal with |- context [find ?f m] => destruct (find f m) end;
    cbn [option_map orElse]; reflexivity.
Qed.

Lemma findLocalImage_None (url : jsstring) (m : Generate.ImageMap) :
  Generate.findLocalImage existsSync url m = None <->
  exactMatch url m = None /\ unsuffixedMatch url m = None
  /\ basenameMatch url m = None /\ diskMatch existsSync url = None.
Proof.
  rewrite findLocalImage_stages.
  destruct (exactMatch url m), (unsuffixedMatch url m), (basenameMatch url m),
    (diskMatch existsSync url); cbn [orElse]; split;
    try discriminate; try tauto; intros (H1 & H2 & H3 & H4); discriminate.
Qed.
End Lookup.

Lemma findLocalImage_sameImages (e1 e2 : jsstring -> bool) url m :
  sameImages e1 e2 ->
  Generate.findLocalImage e1 url m = Generate.findLocalImage e2 url m.
Proof.
  intros H. rewrite !findLocalImage_stages. unfold diskMatch. cbv zeta.
  rewrite (H (fileName url)). reflexivity.
Qed.

Lemma fold_left_ext (A B : Type) (f g : A -> B -> A) (l : list B) (a : A) :
  (forall x y, f x y = g x y) -> fold_left f l a = fold_left g l a.
Proof.
  intros H. revert a; induction l as [|y l IH]; intros a; simpl; [reflexivity|].
  rewrite H. apply IH.
Qed.

Section SameImages.
Variable parse : jsstring -> list html.
Variable decode : jsstring -> jsstring.
Variables e1 e2 : jsstring -> bool.
Hypothesis same : sameImages e1 e2.

Lemma fixImage_sameImages m i d :
  Generate.fixImage decode e1 m i d = Generate.fixImage decode e2 m i d.
Proof.
  unfold Generate.fixImage.
  destruct (findNode i d) as [img|]; [|reflexivity].
  destruct (Generate.getAttribute decode "src" img) as [|c s]; [reflexivity|].
  rewrite (findLocalImage_sameImages e1 e2 (c :: s) m same). reflexivity.
Qed.

Lemma cleanTree_sameImages m d :
  Generate.cleanTree decode e1 m d = Generate.cleanTree decode e2 m d.
Proof.
  unfold Generate.cleanTree, Generate.fixImages.
  rewrite (fold_left_ext _ _
    (fun st img => match st with
                   | Some d0 => Generate.fixImage decode e1 m (Generate.nodeId img) d0
                   | None => None
                   end)
    (fun st img => match st with
                   | Some d0 => Generate.fixImage decode e2 m (Generate.nodeId img) d0
                   | None => None
                   end)).
  - reflexivity.
  - intros [d0|] img; [apply fixImage_sameImages | reflexivity].
Qed.

Lemma cleanContentHtml_sameImages h m :
  Generate.cleanContentHtml parse decode e1 h m
  = Generate.cleanContentHtml parse decode e2 h m.
Proof.
  unfold Generate.cleanContentHtml.
  destruct h as [|c h']; [reflexivity|].
  destruct (Generate.querySelector decode [Generate.entryContent]
              (Generate.rootOf (Generate.parseDocument parse (c :: h'))));
    rewrite cleanTree_sameImages; reflexivity.
Qed.
End SameImages.

(** ** Trees: identities, removal and ancestors *)

(** ** Induction on trees *)
Lemma node_ind2 (P : node -> Prop)
    (HT : forall s, P (Text s))
    (HE : forall i t a ks, Forall P ks -> P (Elem i t a ks)) :
  forall n, P n.
Proof.
  fix IH 1. intros [s|i t a ks]; [apply HT|]. apply HE.
  induction ks as [|k ks IHks]; constructor; [apply IH | exact IHks].
Qed.

Local Abbreviation findF i := (firstSome (findIn i)).
Local Abbreviation cutF i ks := (filter (fun k => negb (hasId i k)) (map (cutIn i) ks)).

Lemma findF_app (i : nat) (l1 l2 : list node) :
  findF i (l1 ++ l2) = match findF i l1 with Some x => Some x | None => findF i l2 end.
Proof.
  induction l1 as [|k l1 IH]; simpl; [reflexivity|].
  destruct (findIn i k); [reflexivity | exact IH].
Qed.

Lemma hasId_nodeId (i : nat) (n : node) : hasId i n = true -> Generate.nodeId n = i.
Proof. destruct n; simpl; [discriminate|]. apply Nat.eqb_eq. Qed.

(** [findIn] finds exactly the identities listed by [ids]. *)
Lemma findIn_ids (i : nat) (n : node) :
  match findIn i n with
  | Some m => In i (ids n) /\ hasId i m = true /\ incl (ids m) (ids n)
  | None => ~ In i (ids n)
  end.
Proof.
  induction n as [s|j t a ks IH] using node_ind2; simpl; [tauto|].
  destruct (Nat.eqb_spec j i) as [->|Hne].
  - split; [left; reflexivity|]. split; [simpl; apply Nat.eqb_refl|]. apply incl_refl.
  - assert (HF : match findF i ks with
                 | Some m => In i (idsF ks) /\ hasId i m = true /\ incl (ids m) (idsF ks)
                 | None => ~ In i (idsF ks)
                 end).
    { induction IH as [|k ks Hk _ IHks]; simpl; [tauto|].
      destruct (findIn i k) as [m|].
      - destruct Hk as (H1 & H2 & H3). split; [apply in_or_app; auto|].
        split; [exact H2|]. intros x Hx. apply in_or_app. left. apply H3, Hx.
      - destruct (findF i ks) as [m|].
        + destruct IHks as (H1 & H2 & H3). split; [apply in_or_app; auto|].
          split; [exact H2|]. intros x Hx. apply in_or_app. right. apply H3, Hx.
        + intros H. apply in_app_or in H. tauto. }
    fold (idsF ks). destruct (findF i ks) as [m|].
    + destruct HF as (H1 & H2 & H3). split; [right; exact H1|].
      split; [exact H2|]. intros x Hx. right. apply H3, Hx.
    + intros [H|H]; [congruence | tauto].
Qed.

Lemma findIn_Some_In (i : nat) (n m : node) :
  findIn i n = Some m -> In i (ids n) /\ hasId i m = true /\ incl (ids m) (ids n).
Proof. intros H. pose proof (findIn_ids i n) as F. rewrite H in F. exact F. Qed.

Lemma findIn_None_notin (i : nat) (n : node) :
  findIn i n = None <-> ~ In i (ids n).
Proof.
  pose proof (findIn_ids i n) as F. destruct (findIn i n).
  - split; [discriminate | tauto].
  - tauto.
Qed.

Lemma findF_None_notin (i : nat) (ks : list node) :
  findF i ks = None <-> ~ In i (idsF ks).
Proof.
  induction ks as [|k ks IH]; simpl; [tauto|].
  pose proof (findIn_None_notin i k) as Hk.
  destruct (findIn i k).
  - split; [discriminate|]. intros H. exfalso. apply H. apply in_or_app. left.
    destruct (in_dec Nat.eq_dec i (ids k)); [assumption|]. apply Hk in n0. discriminate.
  - rewrite IH. split.
    + intros H H'. apply in_app_or in H'. destruct H' as [H'|H']; [|tauto].
      apply Hk in H'; [assumption | reflexivity].
    + intros H H'. apply H. apply in_or_app. auto.
Qed.

(** Cutting an identity out of a tree. *)
Lemma cutIn_absent (i : nat) (n : node) : ~ In i (ids n) -> cutIn i n = n.
Proof.
  induction n as [s|j t a ks IH] using node_ind2; simpl; [reflexivity|].
  intros H. f_equal.
  assert (Hks : ~ In i (idsF ks)) by tauto. clear H.
  induction IH as [|k ks Hk _ IHks]; simpl; [reflexivity|].
  simpl in Hks. rewrite Hk by (intros X; apply Hks, in_or_app; auto).
  assert (hasId i k = false) as ->.
  { destruct k as [s|j' t' a' ks']; [reflexivity|]. simpl.
    apply Nat.eqb_neq. intros ->. apply Hks. left. reflexivity. }
  simpl. f_equal. apply IHks. intros X. apply Hks, in_or_app; auto.
Qed.

Lemma ids_cutF (i : nat) (ks : list node) :
  (forall k, In k ks -> forall j, In j (ids (cutIn i k)) ->
     In j (ids k) /\ (j <> i \/ hasId i k = true)) ->
  forall j, In j (idsF (cutF i ks)) -> In j (idsF ks) /\ j <> i.
Proof.
  induction ks as [|k ks IH]; simpl; intros Hk j Hj; [tauto|].
  destruct (hasId i (cutIn i k)) eqn:E; simpl in Hj.
  - destruct (IH (fun k' Hk' => Hk k' (or_intror Hk')) j Hj) as [H1 H2].
    split; [apply in_or_app; auto | exact H2].
  - apply in_app_or in Hj. destruct Hj as [Hj|Hj].
    + destruct (Hk k (or_introl eq_refl) j Hj) as [H1 H2].
      split; [apply in_or_app; auto|].
      destruct H2 as [H2|H2]; [exact H2|].
      destruct k as [s|j' t' a' ks']; [discriminate|]. simpl in E, H2. congruence.
    + destruct (IH (fun k' Hk' => Hk k' (or_intror Hk')) j Hj) as [H1 H2].
      split; [apply in_or_app; auto | exact H2].
Qed.

Lemma ids_cutIn (i : nat) (n : node) :
  forall j, In j (ids (cutIn i n)) -> In j (ids n) /\ (j <> i \/ hasId i n = true).
Proof.
  induction n as [s|j0 t a ks IH] using node_ind2; simpl; [tauto|].
  intros j [<-|Hj].
  - split; [auto|]. destruct (Nat.eqb_spec j0 i); auto.
  - rewrite Forall_forall in IH.
    destruct (ids_cutF i ks IH j Hj) as [H1 H2]. auto.
Qed.

Lemma ids_cutF' (i : nat) (ks : list node) :
  forall j, In j (idsF (cutF i ks)) -> In j (idsF ks) /\ j <> i.
Proof. apply ids_cutF. intros k _. apply ids_cutIn. Qed.

Lemma findIn_cutIn_self (i : nat) (n : node) :
  hasId i n = false -> findIn i (cutIn i n) = None.
Proof.
  intros H. apply findIn_None_notin. intros Hin.
  apply ids_cutIn in Hin. destruct Hin as [_ [Hne|Hid]]; congruence.
Qed.

Lemma cutF_absent (i : nat) (ks : list node) : ~ In i (idsF ks) -> cutF i ks = ks.
Proof.
  induction ks as [|k ks IH]; simpl; intros H; [reflexivity|].
  rewrite cutIn_absent by (intros X; apply H, in_or_app; auto).
  assert (hasId i k = false) as ->.
  { destruct k as [s|j' t' a' ks']; [reflexivity|]. simpl.
    apply Nat.eqb_neq. intros ->. apply H. left. reflexivity. }
  simpl. f_equal. apply IH. intros X. apply H, in_or_app; auto.
Qed.

Lemma findIn_hasId (i : nat) (k : node) : hasId i k = true -> findIn i k = Some k.
Proof. destruct k as [s|j t a ks]; simpl; [discriminate|]. intros ->. reflexivity. Qed.

Lemma NoDup_app_disjoint (A : Type) (l1 l2 : list A) :
  NoDup (l1 ++ l2) -> NoDup l1 /\ NoDup l2 /\ (forall x, In x l1 -> ~ In x l2).
Proof.
  induction l1 as [|a l1 IH]; simpl; intros H.
  - split; [constructor|]. split; [exact H | tauto].
  - inversion H as [|? ? Ha Hn]; subst. destruct (IH Hn) as (H1 & H2 & H3).
    split; [constructor; [intros X; apply Ha, in_or_app; auto | exact H1]|].
    split; [exact H2|]. intros x [<-|Hx]; [intros X; apply Ha, in_or_app; auto | auto].
Qed.

(** With unique identities, cutting [i] out moves exactly the subtree
    found under [i]. *)
Lemma cutF_perm (n : nat) :
  forall ks, sizeF ks <= n -> forall i m,
  NoDup (idsF ks) -> findF i ks = Some m ->
  Permutation (idsF ks) (idsF (cutF i ks) ++ ids m).
Proof.
  induction n as [|n IH]; intros ks Hsz i m Hnd Hf.
  { destruct ks as [|[s|j t a kk] ks]; simpl in *; try discriminate; unfold sizeF in Hsz; simpl in Hsz; lia. }
  destruct ks as [|k ks]; [discriminate|].
  simpl in Hnd. destruct (NoDup_app_disjoint _ _ _ Hnd) as (Hk & Hks & Hdis).
  cbn [firstSome] in Hf. destruct (findIn i k) as [m'|] eqn:Ek.
  - injection Hf as ->.
    destruct (findIn_Some_In i k m Ek) as (Hin & Hid & Hincl).
    assert (Hrest : cutF i ks = ks) by (apply cutF_absent; apply Hdis; exact Hin).
    destruct (hasId i k) eqn:Eh.
    + rewrite (findIn_hasId i k Eh) in Ek. injection Ek as <-.
      cbn [map filter].
      assert (hasId i (cutIn i k) = true) as ->.
      { destruct k; simpl in *; [discriminate | exact Eh]. }
      cbn [negb]. rewrite Hrest. cbn [idsF flat_map]. apply Permutation_app_comm.
    + destruct k as [s|j t a kk]; [discriminate|]. simpl in Eh.
      cbn [findIn] in Ek. rewrite Eh in Ek.
      cbn [map filter cutIn hasId]. rewrite Eh. cbn [negb]. rewrite Hrest.
      cbn [idsF flat_map ids]. fold (idsF kk). fold (idsF ks).
      fold (idsF (cutF i kk)).
      inversion Hk as [|? ? Hj Hkk]; subst.
      assert (Hp : Permutation (idsF kk) (idsF (cutF i kk) ++ ids m)).
      { apply (IH kk); [|exact Hkk | exact Ek].
        unfold sizeF in *. simpl in Hsz. lia. }
      cbn [app]. constructor.
      rewrite Hp. rewrite <- !app_assoc. apply Permutation_app_head.
      apply Permutation_app_comm.
  - assert (Hnot : ~ In i (ids k)) by (apply findIn_None_notin; exact Ek).
    cbn [map filter]. rewrite (cutIn_absent i k Hnot).
    assert (hasId i k = false) as ->.
    { destruct k as [s|j' t' a' ks']; [reflexivity|]. simpl.
      apply Nat.eqb_neq. intros ->. apply Hnot. left. reflexivity. }
    cbn [negb idsF flat_map]. fold (idsF ks). fold (idsF (cutF i ks)).
    rewrite <- app_assoc. apply Permutation_app_head.
    apply (IH ks); [|exact Hks | exact Hf].
    unfold sizeF in *. simpl in Hsz. destruct k; simpl in Hsz; lia.
Qed.

Lemma cutF_no_top (i : nat) (d : list node) :
  existsb (hasId i) d = false -> cutF i d = map (cutIn i) d.
Proof.
  induction d as [|k d IH]; simpl; [reflexivity|].
  intros H. apply orb_false_iff in H. destruct H as [H1 H2].
  assert (hasId i (cutIn i k) = false) as ->.
  { destruct k; simpl in *; [reflexivity | exact H1]. }
  simpl. f_equal. apply IH, H2.
Qed.

Lemma remove_perm (i : nat) (d : dom) :
  NoDup (idsF d) -> Permutation (idsF d) (idsF (remove i d)).
Proof.
  intros Hnd. unfold remove.
  destruct (existsb (hasId i) d) eqn:E; [reflexivity|].
  unfold findNode. destruct (findF i d) as [m|] eqn:Ef; [|reflexivity].
  rewrite <- (cutF_no_top i d E).
  unfold idsF at 2. rewrite flat_map_app. cbn [flat_map]. rewrite app_nil_r.
  apply (cutF_perm (sizeF d) d (Nat.le_refl _) i m Hnd Ef).
Qed.

Lemma remove_unique (i : nat) (d : dom) :
  NoDup (idsF d) -> NoDup (idsF (remove i d)).
Proof.
  intros H. apply (Permutation_NoDup (remove_perm i d H)). exact H.
Qed.

(** ** Ancestor chains *)
Local Abbreviation chainF i := (firstNonEmpty (chain i)).

Lemma chain_spec (i : nat) (n : node) :
  (findIn i n = None -> chain i n = [])
  /\ (forall m, findIn i n = Some m -> exists rest, chain i n = m :: rest)
  /\ (forall x, In x (chain i n) ->
        isElem x /\ In i (ids x) /\ incl (ids x) (ids n)
        /\ (NoDup (ids n) -> findIn (Generate.nodeId x) n = Some x)).
Proof.
  induction n as [s|j t a ks IH] using node_ind2.
  { simpl. split; [reflexivity|]. split; [discriminate | tauto]. }
  assert (HF :
    (findF i ks = None -> chainF i ks = [])
    /\ (forall m, findF i ks = Some m -> exists rest, chainF i ks = m :: rest)
    /\ (forall x, In x (chainF i ks) ->
          isElem x /\ In i (ids x) /\ incl (ids x) (idsF ks)
          /\ (NoDup (idsF ks) -> findF (Generate.nodeId x) ks = Some x))).
  { induction IH as [|k ks Hk _ IHks].
    { simpl. split; [reflexivity|]. split; [discriminate | tauto]. }
    destruct Hk as (K1 & K2 & K3). destruct IHks as (F1 & F2 & F3).
    cbn [firstSome firstNonEmpty].
    destruct (findIn i k) as [m|] eqn:Ek.
    - destruct (K2 m eq_refl) as [rest Hr]. rewrite Hr.
      split; [discriminate|]. split.
      + intros m' H. injection H as <-. eauto.
      + intros x Hx. rewrite <- Hr in Hx. destruct (K3 x Hx) as (X1 & X2 & X3 & X4).
        split; [exact X1|]. split; [exact X2|].
        split; [intros y Hy; apply in_or_app; left; apply X3, Hy|].
        intros Hnd. simpl in Hnd. apply NoDup_app_disjoint in Hnd.
        destruct Hnd as (Hnk & _ & _). rewrite (X4 Hnk). reflexivity.
    - rewrite (K1 eq_refl).
      split; [exact F1|]. split; [exact F2|].
      intros x Hx. destruct (F3 x Hx) as (X1 & X2 & X3 & X4).
      split; [exact X1|]. split; [exact X2|].
      split; [intros y Hy; apply in_or_app; right; apply X3, Hy|].
      intros Hnd. simpl in Hnd. apply NoDup_app_disjoint in Hnd.
      destruct Hnd as (_ & Hnks & Hdis).
      assert (Hx' : In (Generate.nodeId x) (idsF ks)).
      { apply X3. destruct x; [contradiction|]. simpl. left. reflexivity. }
      assert (Hno : findIn (Generate.nodeId x) k = None).
      { apply findIn_None_notin. intros Y. apply (Hdis _ Y Hx'). }
      rewrite Hno. apply X4, Hnks. }
  destruct HF as (F1 & F2 & F3).
  cbn [findIn chain]. destruct (Nat.eqb_spec j i) as [->|Hne].
  - split; [discriminate|]. split.
    + intros m H. injection H as <-. eauto.
    + intros x [<-|[]]. split; [exact I|]. split; [left; reflexivity|].
      split; [apply incl_refl|]. intros _. simpl. rewrite Nat.eqb_refl. reflexivity.
  - split; [intros H; rewrite (F1 H); reflexivity|]. split.
    + intros m H. destruct (F2 m H) as [rest Hr]. rewrite Hr. simpl. eauto.
    + intros x Hx.
      assert (Hx' : In x (chainF i ks) \/ (x = Elem j t a ks /\ chainF i ks <> [])).
      { destruct (chainF i ks) as [|c0 c]; [contradiction|].
        apply in_app_or in Hx. destruct Hx as [Hx|[<-|[]]]; [left; exact Hx|].
        right. split; [reflexivity | discriminate]. }
      destruct Hx' as [Hx'|[-> Hne']].
      * destruct (F3 x Hx') as (X1 & X2 & X3 & X4).
        split; [exact X1|]. split; [exact X2|].
        split; [intros y Hy; right; apply X3, Hy|].
        intros Hnd. inversion Hnd as [|? ? Hj Hks]; subst.
        fold (idsF ks) in Hj, Hks.
        assert (Hx'' : In (Generate.nodeId x) (idsF ks)).
        { apply X3. destruct x; [contradiction|]. simpl. left. reflexivity. }
        destruct (Nat.eqb_spec j (Generate.nodeId x)) as [E|_]; [congruence|].
        apply X4, Hks.
      * split; [exact I|]. split.
        { right. fold (idsF ks). destruct (findF i ks) as [m|] eqn:Ef.
          - pose proof (findF_None_notin i ks) as Hn.
            destruct (in_dec Nat.eq_dec i (idsF ks)); [assumption|].
            apply Hn in n. congruence.
          - rewrite (F1 eq_refl) in Hne'. congruence. }
        split; [apply incl_refl|]. intros _. simpl. rewrite Nat.eqb_refl. reflexivity.
Qed.

Lemma chainF_head (i : nat) (r : node) (g : list node) (m : node) :
  findIn i r = Some m -> chainF i (r :: g) = chain i r.
Proof.
  intros H. cbn [firstNonEmpty]. destruct (proj1 (proj2 (chain_spec i r)) m H) as [rest ->].
  reflexivity.
Qed.

(** ** The image loop on an image that cannot be resolved *)
Section Unresolved.
Variable decode : jsstring -> jsstring.
Variable existsSync : jsstring -> bool.

Lemma closest_head (s : selector) (i : nat) (r : node) (g : list node) (m : node) :
  findIn i r = Some m ->
  Generate.closest decode s i (r :: g) = nearest decode s i r.
Proof.
  intros H. unfold Generate.closest, nearest. rewrite (chainF_head i r g m H). reflexivity.
Qed.

Lemma removalTarget_in_chain (i : nat) (r img : node) :
  findIn i r = Some img -> In (removalTarget decode i r img) (chain i r).
Proof.
  intros H. unfold removalTarget, nearest.
  destruct (find (Generate.matchesSel decode (tagSel "figure")) (chain i r)) as [f|] eqn:Ef.
  { apply find_some in Ef. tauto. }
  destruct (find (Generate.matchesSel decode (tagSel "a")) (chain i r)) as [a|] eqn:Ea.
  { apply find_some in Ea. tauto. }
  destruct (proj1 (proj2 (chain_spec i r)) img H) as [rest ->]. left. reflexivity.
Qed.

Lemma tagged_not_root (s : string) (x r : node) :
  Generate.matchesSel decode (tagSel s) x = true -> lit s <> [] ->
  tagName r = [] -> x <> r.
Proof.
  unfold Generate.matchesSel. cbn [selTag selClass tagSel]. rewrite andb_true_r.
  intros H Hs Hr ->. apply eqb_eq in H. congruence.
Qed.

Lemma removalTarget_below (i : nat) (r img : node) :
  tagName r = [] -> findIn i r = Some img -> hasId i r = false ->
  removalTarget decode i r img <> r.
Proof.
  intros Hr H Hi. unfold removalTarget, nearest.
  destruct (find (Generate.matchesSel decode (tagSel "figure")) (chain i r)) as [f|] eqn:Ef.
  { apply find_some in Ef. destruct Ef as [_ Ef].
    apply (tagged_not_root "figure" f r Ef); [vm_compute; discriminate | exact Hr]. }
  destruct (find (Generate.matchesSel decode (tagSel "a")) (chain i r)) as [a|] eqn:Ea.
  { apply find_some in Ea. destruct Ea as [_ Ea].
    apply (tagged_not_root "a" a r Ea); [vm_compute; discriminate | exact Hr]. }
  intros ->.
  destruct (findIn_Some_In i r r H) as (_ & Hid & _). congruence.
Qed.

Lemma fixImage_unresolved (m : Generate.ImageMap) (r : node) (g : list node)
    (i : nat) (img : node) :
  findIn i r = Some img -> unresolvable decode existsSync m img ->
  Generate.fixImage decode existsSync m i (r :: g)
  = Some (remove (Generate.nodeId (removalTarget decode i r img)) (r :: g)).
Proof.
  intros H [Hsrc Hres]. unfold Generate.fixImage.
  unfold findNode. cbn [firstSome]. rewrite H.
  destruct (Generate.getAttribute decode "src" img) as [|c s] eqn:Es; [congruence|].
  rewrite Hres.
  rewrite !(closest_head _ i r g img H).
  unfold removalTarget.
  destruct (nearest decode (tagSel "figure") i r); [reflexivity|].
  destruct (nearest decode (tagSel "a") i r); [reflexivity|].
  destruct (findIn_Some_In i r img H) as (_ & Hid & _).
  rewrite (hasId_nodeId i img Hid). reflexivity.
Qed.

Lemma remove_below (t : nat) (x r : node) (g : list node) :
  uniqueIds (r :: g) -> findIn t r = Some x -> x <> r ->
  remove t (r :: g) = cutIn t r :: g ++ [x]
  /\ findIn t (cutIn t r) = None
  /\ (forall j, In j (ids x) -> findIn j (cutIn t r) = None).
Proof.
  unfold uniqueIds. cbn [idsF flat_map]. intros Hnd Hx Hne.
  destruct (NoDup_app_disjoint _ _ _ Hnd) as (Hr & Hg & Hdis).
  destruct (findIn_Some_In t r x Hx) as (Hin & Hid & Hincl).
  assert (Htop : hasId t r = false).
  { destruct (hasId t r) eqn:E; [|reflexivity].
    rewrite (findIn_hasId t r E) in Hx. congruence. }
  assert (Hg' : ~ In t (idsF g)) by (apply Hdis, Hin).
  assert (Hex : existsb (hasId t) (r :: g) = false).
  { cbn [existsb]. rewrite Htop. cbn [orb].
    destruct (existsb (hasId t) g) eqn:E; [|reflexivity].
    apply existsb_exists in E. destruct E as (k & Hk & Hk').
    exfalso. apply Hg'. apply in_flat_map. exists k. split; [exact Hk|].
    destruct k; simpl in *; [discriminate|]. left. apply Nat.eqb_eq, Hk'. }
  split; [|split].
  - unfold remove. rewrite Hex. unfold findNode. cbn [firstSome]. rewrite Hx.
    cbn [map app]. f_equal. f_equal.
    rewrite <- (cutF_no_top t g); [apply cutF_absent, Hg'|].
    cbn [existsb] in Hex. apply orb_false_iff in Hex. tauto.
  - apply findIn_cutIn_self, Htop.
  - intros j Hj. apply findIn_None_notin. intros Hj'.
    assert (Hp : Permutation (idsF [r]) (idsF (cutF t [r]) ++ ids x)).
    { apply (cutF_perm (sizeF [r]) [r] (Nat.le_refl _)).
      - cbn [idsF flat_map]. rewrite app_nil_r. exact Hr.
      - cbn [firstSome]. rewrite Hx. reflexivity. }
    rewrite (cutF_no_top t [r]) in Hp by (cbn [existsb]; rewrite Htop; reflexivity).
    cbn [idsF flat_map map] in Hp. rewrite !app_nil_r in Hp.
    pose proof (Permutation_NoDup Hp Hr) as Hnd'.
    apply NoDup_app_disjoint in Hnd'. destruct Hnd' as (_ & _ & Hd').
    apply (Hd' j Hj' Hj).
Qed.
End Unresolved.

(** ** Removal loops on a forest *)

Lemma descendants_elemsF (j : nat) (t : jsstring) (a : attrs) (ks : list node) :
  descendants (Elem j t a ks) = elemsF ks.
Proof. reflexivity. Qed.

Lemma elemsF_app (l1 l2 : list node) : elemsF (l1 ++ l2) = elemsF l1 ++ elemsF l2.
Proof. apply flat_map_app. Qed.

Lemma elemsF_ids (ks : list node) : map Generate.nodeId (elemsF ks) = idsF ks.
Proof.
  remember (sizeF ks) as n eqn:En. revert ks En.
  induction n as [n IH] using lt_wf_ind. intros ks En.
  destruct ks as [|[s|j t a kk] ks]; [reflexivity| |].
  - cbn [elemsF flat_map idsF ids app]. apply (IH (sizeF ks)); [|reflexivity].
    subst n. unfold sizeF. simpl. lia.
  - cbn [elemsF flat_map idsF ids]. rewrite map_app. cbn [map Generate.nodeId app].
    f_equal. rewrite descendants_elemsF. f_equal.
    + apply (IH (sizeF kk)); [|reflexivity]. subst n. unfold sizeF. simpl. lia.
    + apply (IH (sizeF ks)); [|reflexivity]. subst n. unfold sizeF. simpl. lia.
Qed.

Lemma elemsF_isElem (ks : list node) : Forall isElem (elemsF ks).
Proof.
  remember (sizeF ks) as n eqn:En. revert ks En.
  induction n as [n IH] using lt_wf_ind. intros ks En.
  destruct ks as [|[s|j t a kk] ks]; [constructor| |].
  - cbn [elemsF flat_map app]. apply (IH (sizeF ks)); [|reflexivity].
    subst n. unfold sizeF. simpl. lia.
  - cbn [elemsF flat_map]. apply Forall_app. split.
    + constructor; [exact I|]. rewrite descendants_elemsF.
      apply (IH (sizeF kk)); [|reflexivity]. subst n. unfold sizeF. simpl. lia.
    + apply (IH (sizeF ks)); [|reflexivity]. subst n. unfold sizeF. simpl. lia.
Qed.

Section Loop.
Variable cond : node -> bool.

Local Abbreviation loopF els ks := (fold_left (cutStep cond) els ks).

Lemma hasId_false_notin (i : nat) (k : node) : ~ In i (ids k) -> hasId i k = false.
Proof.
  destruct k as [s|j t a ks]; [reflexivity|]. simpl. intros H.
  apply Nat.eqb_neq. intros ->. apply H. left. reflexivity.
Qed.

(** Steps on identities that are not in the forest change nothing. *)
Lemma loopF_absent (els : list nat) (ks : list node) :
  (forall i, In i els -> ~ In i (idsF ks)) -> loopF els ks = ks.
Proof.
  induction els as [|i els IH]; intros H; [reflexivity|].
  cbn [fold_left]. unfold cutStep at 2.
  rewrite (proj2 (findF_None_notin i ks) (H i (or_introl eq_refl))).
  apply IH. intros x Hx. apply H. right. exact Hx.
Qed.

(** Steps on identities below the first tree leave the others alone. *)
Lemma loopF_inside (els : list nat) (j : nat) (t : jsstring) (a : attrs)
    (kk rest : list node) :
  (forall i, In i els -> i <> j /\ ~ In i (idsF rest)) ->
  loopF els (Elem j t a kk :: rest) = Elem j t a (loopF els kk) :: rest.
Proof.
  revert kk; induction els as [|i els IH]; intros kk H; [reflexivity|].
  cbn [fold_left]. destruct (H i (or_introl eq_refl)) as [Hne Hrest].
  assert (Hstep : cutStep cond (Elem j t a kk :: rest) i
                  = Elem j t a (cutStep cond kk i) :: rest).
  { unfold cutStep. cbn [firstSome findIn].
    destruct (Nat.eqb_spec j i) as [E|_]; [congruence|].
    destruct (findF i kk) as [live|].
    - destruct (cond live); [|reflexivity].
      cbn [map filter cutIn hasId].
      destruct (Nat.eqb_spec j i) as [E|_]; [congruence|]. cbn [negb].
      f_equal. apply cutF_absent, Hrest.
    - rewrite (proj2 (findF_None_notin i rest) Hrest). reflexivity. }
  rewrite Hstep. apply IH. intros x Hx. apply H. right. exact Hx.
Qed.

(** Steps on identities outside the first tree leave it alone. *)
Lemma loopF_outside (els : list nat) (k : node) (rest : list node) :
  (forall i, In i els -> ~ In i (ids k)) ->
  loopF els (k :: rest) = k :: loopF els rest.
Proof.
  revert rest; induction els as [|i els IH]; intros rest H; [reflexivity|].
  cbn [fold_left]. pose proof (H i (or_introl eq_refl)) as Hk.
  assert (Hstep : cutStep cond (k :: rest) i = k :: cutStep cond rest i).
  { unfold cutStep. cbn [firstSome].
    rewrite (proj2 (findIn_None_notin i k) Hk).
    destruct (findF i rest) as [live|]; [|reflexivity].
    destruct (cond live); [|reflexivity].
    cbn [map filter]. rewrite (cutIn_absent i k Hk), (hasId_false_notin i k Hk).
    reflexivity. }
  rewrite Hstep. apply IH. intros x Hx. apply H. right. exact Hx.
Qed.
End Loop.

Lemma ids_pruneF (drop : node -> bool) (ks : list node) :
  forall j, In j (idsF (pruneF drop ks)) -> In j (idsF ks).
Proof.
  remember (sizeF ks) as n eqn:En. revert ks En.
  induction n as [n IH] using lt_wf_ind. intros ks En j.
  destruct ks as [|k ks]; [simpl; tauto|].
  cbn [pruneF flat_map]. fold (pruneF drop ks).
  assert (IHks : In j (idsF (pruneF drop ks)) -> In j (idsF ks)).
  { apply (IH (sizeF ks)); [|reflexivity]. subst n. unfold sizeF. simpl.
    destruct k; simpl; lia. }
  unfold idsF at 1. rewrite flat_map_app. fold (idsF (pruneF drop ks)).
  intros H. apply in_app_or in H. cbn [idsF flat_map]. apply in_or_app.
  destruct H as [H|H]; [|right; apply IHks, H].
  left. destruct (drop k); [contradiction|].
  cbn [flat_map] in H. rewrite app_nil_r in H.
  destruct k as [s|i t a kk]; [exact H|].
  cbn [prune ids] in H |- *. fold (pruneF drop kk) in H. fold (idsF (pruneF drop kk)) in H.
  destruct H as [H|H]; [left; exact H|]. right. fold (idsF kk).
  apply (IH (sizeF kk)) in H; [exact H | | reflexivity].
  subst n. unfold sizeF. simpl. lia.
Qed.

Section LoopPrune.
Variables sel cond : node -> bool.
Hypothesis sel_text : forall s, sel (Text s) = false.

Local Abbreviation loopF els ks := (fold_left (cutStep cond) els ks).
Local Abbreviation selIds ks := (map Generate.nodeId (filter sel (elemsF ks))).
Local Abbreviation drop := (fun k => sel k && cond k).

Lemma selIds_in (ks : list node) : forall i, In i (selIds ks) -> In i (idsF ks).
Proof.
  intros i H. rewrite <- elemsF_ids. apply in_map_iff in H.
  destruct H as (x & <- & Hx). apply filter_In in Hx. apply in_map. tauto.
Qed.

(** A removal loop over the selected elements of a forest with unique
    identities prunes it. *)
Lemma loopF_prune (n : nat) :
  forall ks, sizeF ks <= n -> NoDup (idsF ks) ->
  loopF (selIds ks) ks = pruneF drop ks.
Proof.
  induction n as [|n IH]; intros ks Hsz Hnd.
  { destruct ks as [|[s|j t a kk] ks]; [reflexivity | |];
      unfold sizeF in Hsz; simpl in Hsz; lia. }
  destruct ks as [|k rest]; [reflexivity|].
  cbn [idsF flat_map] in Hnd. fold (idsF rest) in Hnd.
  destruct (NoDup_app_disjoint _ _ _ Hnd) as (Hk & Hrest & Hdis).
  assert (Hsz_rest : sizeF rest <= n).
  { unfold sizeF in *. simpl in Hsz. destruct k; simpl in Hsz; lia. }
  destruct k as [s|j t a kk].
  - (* a text node *)
    cbn [elemsF flat_map app pruneF]. fold (elemsF rest). fold (pruneF drop rest).
    rewrite sel_text. cbn [andb app prune].
    rewrite loopF_outside by (intros i _; simpl; tauto).
    f_equal. apply IH; assumption.
  - (* an element *)
    assert (Hsz_kk : sizeF kk <= n) by (unfold sizeF in *; simpl in Hsz; lia).
    inversion Hk as [|? ? Hj Hkk]; subst. fold (idsF kk) in Hj, Hkk.
    cbn [elemsF flat_map]. fold (elemsF rest). rewrite descendants_elemsF.
    rewrite filter_app, map_app. cbn [filter].
    cbn [pruneF flat_map]. fold (pruneF drop rest).
    assert (Hin_kk : forall i, In i (selIds kk) -> i <> j /\ ~ In i (idsF rest)).
    { intros i Hi. apply selIds_in in Hi. split; [intros ->; contradiction|].
      apply Hdis. right. exact Hi. }
    assert (Hkeep :
      loopF (selIds kk ++ selIds rest) (Elem j t a kk :: rest)
      = Elem j t a (pruneF drop kk) :: pruneF drop rest).
    { rewrite fold_left_app, (loopF_inside cond _ j t a kk rest Hin_kk).
      rewrite (IH kk Hsz_kk Hkk).
      rewrite loopF_outside.
      - f_equal. apply IH; assumption.
      - intros i Hi Hi'. apply selIds_in in Hi.
        cbn [ids] in Hi'. fold (idsF (pruneF drop kk)) in Hi'.
        destruct Hi' as [<-|Hi'].
        + apply (Hdis j); [left; reflexivity | exact Hi].
        + apply ids_pruneF in Hi'. apply (Hdis i); [right; exact Hi' | exact Hi]. }
    destruct (sel (Elem j t a kk)) eqn:Es; cbn [andb map Generate.nodeId app].
    + cbn [fold_left]. unfold cutStep at 2. cbn [firstSome findIn].
      rewrite Nat.eqb_refl.
      destruct (cond (Elem j t a kk)) eqn:Ec.
      * cbn [map filter cutIn hasId]. rewrite Nat.eqb_refl. cbn [negb app].
        rewrite (cutF_absent j rest) by (apply Hdis; left; reflexivity).
        rewrite fold_left_app.
        rewrite (loopF_absent cond (selIds kk) rest)
          by (intros i Hi; apply (Hin_kk i Hi)).
        apply IH; assumption.
      * cbn [app prune]. fold (pruneF drop kk). exact Hkeep.
    + cbn [app prune]. fold (pruneF drop kk). exact Hkeep.
Qed.
End LoopPrune.

(** ** Removal loops on a document *)

(** ** Labelling gives every element its own identity *)
Lemma label_ids :
  forall h k, k <= snd (label k h)
              /\ ids (fst (label k h)) = seq k (snd (label k h) - k).
Proof.
  fix IH 1. intros [s|t a ks] k.
  - simpl. split; [lia|]. rewrite Nat.sub_diag. reflexivity.
  - cbn [label].
    set (go := fix go (n : nat) (l : list html) {struct l} : list node * nat :=
                 match l with
                 | [] => ([], n)
                 | k0 :: r =>
                     let '(k', n1) := label n k0 in
                     let '(r', n2) := go n1 r in (k' :: r', n2)
                 end).
    assert (Hgo : forall l n, n <= snd (go n l)
                              /\ idsF (fst (go n l)) = seq n (snd (go n l) - n)).
    { induction l as [|h0 l IHl]; intros n.
      - simpl. split; [lia|]. rewrite Nat.sub_diag. reflexivity.
      - cbn [go]. fold go. destruct (IH h0 n) as [H1 H2].
        destruct (label n h0) as [k' n1]. cbn [fst snd] in H1, H2.
        destruct (IHl n1) as [H3 H4]. destruct (go n1 l) as [r' n2].
        cbn [fst snd] in *. split; [lia|].
        cbn [idsF flat_map]. fold (idsF r'). rewrite H2, H4.
        replace (n2 - n) with ((n1 - n) + (n2 - n1)) by lia.
        rewrite seq_app. f_equal. f_equal. lia. }
    destruct (Hgo ks (S k)) as [H1 H2]. destruct (go (S k) ks) as [ks' n'].
    cbn [fst snd] in *. split; [lia|].
    cbn [ids]. fold (idsF ks'). rewrite H2.
    replace (n' - k) with (S (n' - S k)) by lia. reflexivity.
Qed.

Lemma document_shape (content : list html) :
  exists ks, document content = [Elem 0 [] [] ks] /\ uniqueIds (document content).
Proof.
  unfold document. pose proof (label_ids (HElem [] [] content) 0) as [H1 H2].
  destruct (label 0 (HElem [] [] content)) as [n k'] eqn:E. cbn [fst snd] in *.
  assert (exists ks, n = Elem 0 [] [] ks) as [ks ->].
  { cbn [label] in E.
    match type of E with (let '(_, _) := ?g in _) = _ => destruct g as [ks' n'] end.
    injection E as <- _. eauto. }
  exists ks. split; [reflexivity|].
  unfold uniqueIds. cbn [idsF flat_map]. rewrite app_nil_r, H2. apply seq_NoDup.
Qed.

(** ** Removal loops on a document *)
Section DomLoop.
Variable cond : node -> bool.

Lemma removal_step (j0 : nat) (t0 : jsstring) (a0 : attrs) (ks : list node)
    (g : list node) (el : node) :
  uniqueIds (Elem j0 t0 a0 ks :: g) -> Generate.nodeId el <> j0 ->
  exists g',
    match findNode (Generate.nodeId el) (Elem j0 t0 a0 ks :: g) with
    | Some live => if cond live
                   then remove (Generate.nodeId live) (Elem j0 t0 a0 ks :: g)
                   else Elem j0 t0 a0 ks :: g
    | None => Elem j0 t0 a0 ks :: g
    end = Elem j0 t0 a0 (cutStep cond ks (Generate.nodeId el)) :: g'
    /\ uniqueIds (Elem j0 t0 a0 (cutStep cond ks (Generate.nodeId el)) :: g').
Proof.
  set (i := Generate.nodeId el). set (r := Elem j0 t0 a0 ks).
  intros Hu Hne. unfold findNode, cutStep. cbn [firstSome].
  assert (Hr : findIn i r = findF i ks).
  { subst r. cbn [findIn]. destruct (Nat.eqb_spec j0 i); [congruence | reflexivity]. }
  rewrite Hr.
  destruct (findF i ks) as [live|] eqn:Ef.
  - destruct (findIn_Some_In i r live Hr) as (_ & Hid & _).
    rewrite (hasId_nodeId i live Hid).
    destruct (cond live); [|exists g; split; [reflexivity | exact Hu]].
    assert (Hlr : live <> r).
    { intros ->. subst r. simpl in Hid. apply Nat.eqb_eq in Hid. congruence. }
    destruct (remove_below i live r g Hu Hr Hlr) as (Hrm & _ & _).
    exists (g ++ [live]). split; [rewrite Hrm; reflexivity|].
    change (Elem j0 t0 a0 (cutF i ks)) with (cutIn i r). rewrite <- Hrm.
    apply remove_unique, Hu.
  - assert (Habs : ~ In i (ids r)).
    { apply findIn_None_notin. exact Hr. }
    destruct (findF i g) as [live|] eqn:Eg; [|exists g; split; [reflexivity | exact Hu]].
    destruct (cond live); [|exists g; split; [reflexivity | exact Hu]].
    assert (Hid : Generate.nodeId live = i).
    { clear - Eg. induction g as [|k g IH]; [discriminate|].
      cbn [firstSome] in Eg. destruct (findIn i k) eqn:E.
      - injection Eg as ->. apply hasId_nodeId. apply (findIn_Some_In i k live E).
      - apply IH, Eg. }
    rewrite Hid.
    pose proof (remove_unique i (r :: g) Hu) as Hu'.
    unfold remove in *. fold r.
    destruct (existsb (hasId i) (r :: g)); [exists g; split; [reflexivity | exact Hu]|].
    unfold findNode in *. cbn [firstSome] in *. rewrite Hr, Eg in *.
    cbn [map app] in *. rewrite (cutIn_absent i r Habs) in *.
    exists (map (cutIn i) g ++ [live]). split; [reflexivity | exact Hu'].
Qed.

Lemma removalLoop_root (els : list node) (j0 : nat) (t0 : jsstring) (a0 : attrs) :
  forall (ks g : list node),
  uniqueIds (Elem j0 t0 a0 ks :: g) ->
  (forall el, In el els -> Generate.nodeId el <> j0) ->
  exists g',
    removalLoop cond els (Elem j0 t0 a0 ks :: g)
    = Elem j0 t0 a0 (fold_left (cutStep cond) (map Generate.nodeId els) ks) :: g'
    /\ uniqueIds (Elem j0 t0 a0 (fold_left (cutStep cond) (map Generate.nodeId els) ks) :: g').
Proof.
  induction els as [|el els IH]; intros ks g Hu Hne.
  - exists g. split; [reflexivity | exact Hu].
  - unfold removalLoop, Generate.forEach. cbn [fold_left map].
    destruct (removal_step j0 t0 a0 ks g el Hu (Hne el (or_introl eq_refl)))
      as (g1 & H1 & Hu1).
    rewrite H1.
    destruct (IH (cutStep cond ks (Generate.nodeId el)) g1 Hu1
                (fun x Hx => Hne x (or_intror Hx))) as (g2 & H2 & Hu2).
    exists g2. split; [exact H2 | exact Hu2].
Qed.
End DomLoop.

(** ** The three removal passes as prunings *)

(** ** Blank text *)
Lemma trimStart_nil (s : jsstring) : trimStart s = [] <-> forallb isSpace s = true.
Proof.
  induction s as [|c s IH]; simpl; [tauto|].
  destruct (isSpace c); simpl; [exact IH|]. split; discriminate.
Qed.

Lemma trimStart_snoc (l : jsstring) (c : N) :
  isSpace c = false -> trimStart (l ++ [c]) <> [].
Proof.
  intros H. induction l as [|x l IH]; simpl.
  - rewrite H. discriminate.
  - destruct (isSpace x); [exact IH | discriminate].
Qed.

Lemma isBlank_spaces (s : jsstring) : Generate.isBlank s = forallb isSpace s.
Proof.
  unfold Generate.isBlank, trim, trimEnd.
  destruct (trimStart s) as [|c r] eqn:E.
  - simpl. symmetry. apply trimStart_nil, E.
  - pose proof (trimStart_head s c r E) as Hc.
    assert (Hf : forallb isSpace s = false).
    { destruct (forallb isSpace s) eqn:F; [|reflexivity].
      apply trimStart_nil in F. congruence. }
    rewrite Hf.
    destruct (rev (trimStart (rev (c :: r)))) as [|x y] eqn:R; [|reflexivity].
    exfalso. apply (f_equal (@rev N)) in R. rewrite rev_involutive in R. simpl in R.
    revert R. destruct r as [|c' r'].
    + simpl. rewrite Hc. discriminate.
    + (* the last character of [c :: r] ends the reversed string *)
      intros R. apply trimStart_nil in R. rewrite forallb_app in R.
      apply andb_true_iff in R. destruct R as [_ R]. simpl in R. rewrite Hc in R.
      discriminate.
Qed.

Lemma isBlank_app (a b : jsstring) :
  Generate.isBlank (a ++ b) = Generate.isBlank a && Generate.isBlank b.
Proof. rewrite !isBlank_spaces. apply forallb_app. Qed.

Lemma ampFree_app (a b : jsstring) : ampFree (a ++ b) = ampFree a && ampFree b.
Proof. unfold ampFree. rewrite existsb_app, negb_orb. reflexivity. Qed.

(** ** Properties of every node *)
Section Every.
Variables (pt : jsstring -> bool) (pe : jsstring -> attrs -> bool).

Lemma every_prune (drop : node -> bool) (n : node) :
  every pt pe n = true -> every pt pe (prune drop n) = true.
Proof.
  induction n as [s|i t a ks IH] using node_ind2; [trivial|].
  cbn [every prune]. intros H. apply andb_true_iff in H. destruct H as [H1 H2].
  rewrite H1. cbn [andb].
  induction IH as [|k ks Hk _ IHks]; [reflexivity|].
  cbn [forallb] in H2. apply andb_true_iff in H2. destruct H2 as [H2 H3].
  cbn [flat_map]. rewrite forallb_app, (IHks H3), andb_true_r.
  destruct (drop k); [reflexivity|]. cbn [forallb]. rewrite (Hk H2). reflexivity.
Qed.

Lemma every_pruneF (drop : node -> bool) (ks : list node) :
  forallb (every pt pe) ks = true -> forallb (every pt pe) (pruneF drop ks) = true.
Proof.
  induction ks as [|k ks IH]; [trivial|]. cbn [forallb pruneF flat_map].
  intros H. apply andb_true_iff in H. destruct H as [H1 H2].
  rewrite forallb_app. fold (pruneF drop ks). rewrite (IH H2), andb_true_r.
  destruct (drop k); [reflexivity|]. cbn [forallb]. rewrite (every_prune drop k H1).
  reflexivity.
Qed.

Lemma every_elemsF (ks : list node) :
  forallb (every pt pe) ks = true ->
  forall x, In x (elemsF ks) -> every pt pe x = true.
Proof.
  remember (sizeF ks) as n eqn:En. revert ks En.
  induction n as [n IH] using lt_wf_ind. intros ks En H x Hx.
  destruct ks as [|k ks]; [contradiction|].
  cbn [forallb] in H. apply andb_true_iff in H. destruct H as [H1 H2].
  cbn [elemsF flat_map] in Hx. fold (elemsF ks) in Hx. apply in_app_or in Hx.
  destruct Hx as [Hx|Hx].
  - destruct k as [s|i t a kk]; [contradiction|].
    destruct Hx as [<-|Hx]; [exact H1|].
    rewrite descendants_elemsF in Hx.
    cbn [every] in H1. apply andb_true_iff in H1. destruct H1 as [_ H1].
    apply (IH (sizeF kk)) with (ks := kk); [|reflexivity | exact H1 | exact Hx].
    subst n. unfold sizeF. simpl. lia.
  - apply (IH (sizeF ks)) with (ks := ks); [|reflexivity | exact H2 | exact Hx].
    subst n. unfold sizeF. simpl. destruct k; simpl; lia.
Qed.
End Every.

(** ** What pruning keeps *)
Lemma prune_tag (drop : node -> bool) (n : node) : tagName (prune drop n) = tagName n.
Proof. destruct n; reflexivity. Qed.

Lemma prune_attributes (drop : node -> bool) (n : node) :
  attributes (prune drop n) = attributes n.
Proof. destruct n; reflexivity. Qed.

Lemma prune_nodeId (drop : node -> bool) (n : node) :
  Generate.nodeId (prune drop n) = Generate.nodeId n.
Proof. destruct n; reflexivity. Qed.

Lemma elemsF_pruneF (drop : node -> bool) (ks : list node) :
  forall y, In y (elemsF (pruneF drop ks)) ->
  exists x, In x (elemsF ks) /\ drop x = false /\ y = prune drop x.
Proof.
  remember (sizeF ks) as n eqn:En. revert ks En.
  induction n as [n IH] using lt_wf_ind. intros ks En y Hy.
  destruct ks as [|k ks]; [contradiction|].
  cbn [pruneF flat_map] in Hy. fold (pruneF drop ks) in Hy.
  rewrite elemsF_app in Hy. apply in_app_or in Hy.
  assert (Hks : In y (elemsF (pruneF drop ks)) ->
                exists x, In x (elemsF (k :: ks)) /\ drop x = false /\ y = prune drop x).
  { intros H. destruct (IH (sizeF ks)) with (ks := ks) (y := y) as (x & X1 & X2 & X3);
      [subst n; unfold sizeF; simpl; destruct k; simpl; lia | reflexivity | exact H |].
    exists x. split; [|tauto]. cbn [elemsF flat_map]. apply in_or_app. right. exact X1. }
  destruct Hy as [Hy|Hy]; [|apply Hks, Hy].
  destruct (drop k) eqn:Ed; [contradiction|].
  destruct k as [s|i t a kk]; [contradiction|].
  cbn [prune elemsF flat_map app] in Hy. rewrite app_nil_r in Hy.
  fold (pruneF drop kk) in Hy.
  destruct Hy as [<-|Hy].
  - exists (Elem i t a kk). split; [left; reflexivity|]. split; [exact Ed | reflexivity].
  - rewrite descendants_elemsF in Hy.
    destruct (IH (sizeF kk)) with (ks := kk) (y := y) as (x & X1 & X2 & X3);
      [subst n; unfold sizeF; simpl; lia | reflexivity | exact Hy |].
    exists x. split; [|tauto]. cbn [elemsF flat_map]. rewrite descendants_elemsF.
    right. apply in_or_app. left. exact X1.
Qed.

Section Passes.
Variable decode : jsstring -> jsstring.

Lemma matchesAny_prune (drop : node -> bool) (ss : list selector) (n : node) :
  Generate.matchesAny decode ss (prune drop n) = Generate.matchesAny decode ss n.
Proof.
  unfold Generate.matchesAny, Generate.matchesSel.
  rewrite prune_tag, prune_attributes. reflexivity.
Qed.

Lemma getAttribute_prune (drop : node -> bool) (k : string) (n : node) :
  Generate.getAttribute decode k (prune drop n) = Generate.getAttribute decode k n.
Proof. unfold Generate.getAttribute. rewrite prune_attributes. reflexivity. Qed.

Lemma shareDrop_prune (drop : node -> bool) (n : node) :
  shareDrop decode (prune drop n) = shareDrop decode n.
Proof. unfold shareDrop. rewrite matchesAny_prune, getAttribute_prune. reflexivity. Qed.

Lemma moreLinkDrop_prune (drop : node -> bool) (n : node) :
  moreLinkDrop decode (prune drop n) = moreLinkDrop decode n.
Proof. unfold moreLinkDrop. rewrite matchesAny_prune. reflexivity. Qed.

Hypothesis plain : plainDecode decode.

Local Abbreviation plainNode := (every ampFree notImageOrCaption).

Lemma rawText_ampFree (n : node) : plainNode n = true -> ampFree (rawText n) = true.
Proof.
  induction n as [s|i t a ks IH] using node_ind2; [trivial|].
  cbn [every rawText]. intros H. apply andb_true_iff in H. destruct H as [_ H].
  destruct (isBr t); [reflexivity|].
  induction IH as [|k ks Hk _ IHks]; [reflexivity|].
  cbn [forallb] in H. apply andb_true_iff in H. destruct H as [H1 H2].
  cbn [map List.concat]. rewrite ampFree_app, (Hk H1), (IHks H2). reflexivity.
Qed.

Lemma textOf_plain (n : node) : plainNode n = true -> Generate.textOf decode n = rawText n.
Proof. intros H. unfold Generate.textOf. apply plain, rawText_ampFree, H. Qed.

Lemma hasImg_plain (n : node) : plainNode n = true -> Generate.hasImg decode n = false.
Proof.
  intros H. unfold Generate.hasImg, Generate.querySelector, Generate.querySelectorAll.
  assert (E : filter (Generate.matchesAny decode [tagSel "img"]) (descendants n) = []).
  { destruct n as [s|i t a ks]; [reflexivity|]. rewrite descendants_elemsF.
    cbn [every] in H. apply andb_true_iff in H. destruct H as [_ H].
    pose proof (every_elemsF ampFree notImageOrCaption ks H) as Hall.
    induction (elemsF ks) as [|x l IHl]; [reflexivity|].
    cbn [filter].
    assert (Hx : Generate.matchesAny decode [tagSel "img"] x = false).
    { specialize (Hall x (or_introl eq_refl)).
      destruct x as [s|j t' a' kk]; [reflexivity|].
      cbn [every] in Hall. apply andb_true_iff in Hall. destruct Hall as [Hall _].
      unfold notImageOrCaption in Hall. apply andb_true_iff in Hall.
      destruct Hall as [Hall _]. apply negb_true_iff in Hall.
      unfold Generate.matchesAny, Generate.matchesSel.
      cbn [existsb tagSel selTag selClass tagName]. rewrite Hall. reflexivity. }
    rewrite Hx. apply IHl. intros y Hy. apply Hall. right. exact Hy. }
  rewrite E. reflexivity.
Qed.

Lemma rawText_prune_blank (n : node) :
  plainNode n = true ->
  Generate.isBlank (rawText (prune (emptyDrop decode) n)) = Generate.isBlank (rawText n).
Proof.
  induction n as [s|i t a ks IH] using node_ind2; [reflexivity|].
  cbn [every prune rawText]. intros H. apply andb_true_iff in H. destruct H as [_ H].
  destruct (isBr t); [reflexivity|].
  induction IH as [|k ks Hk _ IHks]; [reflexivity|].
  cbn [forallb] in H. apply andb_true_iff in H. destruct H as [H1 H2].
  cbn [flat_map map List.concat]. rewrite map_app, concat_app, !isBlank_app.
  rewrite (IHks H2). f_equal.
  destruct (emptyDrop decode k) eqn:Ed.
  - cbn [map List.concat]. unfold emptyDrop in Ed.
    apply andb_true_iff in Ed. destruct Ed as [_ Ed].
    apply andb_true_iff in Ed. destruct Ed as [Ed _].
    rewrite (textOf_plain k H1) in Ed. rewrite Ed. reflexivity.
  - cbn [map List.concat]. rewrite app_nil_r. apply Hk, H1.
Qed.

Lemma emptyDrop_prune (n : node) :
  plainNode n = true ->
  emptyDrop decode (prune (emptyDrop decode) n) = emptyDrop decode n.
Proof.
  intros H. unfold emptyDrop at 1 3.
  rewrite matchesAny_prune.
  rewrite (textOf_plain _ (every_prune _ _ (emptyDrop decode) n H)), (textOf_plain n H).
  rewrite (rawText_prune_blank n H).
  rewrite (hasImg_plain _ (every_prune _ _ (emptyDrop decode) n H)), (hasImg_plain n H).
  reflexivity.
Qed.

(** After the three passes nothing is left for them to remove. *)
Lemma prunedKids_clean (ks : list node) :
  plainFragment ks = true ->
  forall y, In y (elemsF (prunedKids decode ks)) ->
  shareDrop decode y = false /\ moreLinkDrop decode y = false
  /\ emptyDrop decode y = false.
Proof.
  intros H y Hy. unfold prunedKids in Hy.
  apply elemsF_pruneF in Hy. destruct Hy as (x2 & Hx2 & D3 & ->).
  pose proof Hx2 as Hx2'.
  apply elemsF_pruneF in Hx2. destruct Hx2 as (x1 & Hx1 & D2 & E2).
  pose proof Hx1 as Hx1'.
  apply elemsF_pruneF in Hx1. destruct Hx1 as (x0 & Hx0 & D1 & E1).
  assert (P2 : plainNode x2 = true).
  { apply (every_elemsF _ _ (pruneF (moreLinkDrop decode) (pruneF (shareDrop decode) ks))).
    - apply every_pruneF, every_pruneF, H.
    - exact Hx2'. }
  split; [|split].
  - rewrite shareDrop_prune. subst x2. rewrite shareDrop_prune. subst x1.
    rewrite shareDrop_prune. exact D1.
  - rewrite moreLinkDrop_prune. subst x2. rewrite moreLinkDrop_prune. exact D2.
  - rewrite (emptyDrop_prune x2 P2). exact D3.
Qed.
End Passes.

(** ** Cleaning a tree twice *)

Lemma findF_elemsF (n : nat) :
  forall ks, sizeF ks <= n -> forall i m, findF i ks = Some m -> In m (elemsF ks).
Proof.
  induction n as [|n IH]; intros ks Hsz i m H.
  { destruct ks as [|[s|j t a kk] ks]; [discriminate | |];
      unfold sizeF in Hsz; simpl in Hsz; lia. }
  destruct ks as [|k ks]; [discriminate|].
  cbn [firstSome] in H. cbn [elemsF flat_map]. fold (elemsF ks). apply in_or_app.
  destruct (findIn i k) as [m'|] eqn:E.
  - injection H as ->. left. destruct k as [s|j t a kk]; [discriminate|].
    cbn [findIn] in E. destruct (Nat.eqb j i).
    + injection E as <-. left. reflexivity.
    + right. rewrite descendants_elemsF. apply (IH kk) with (i := i); [|exact E].
      unfold sizeF in *. simpl in Hsz. lia.
  - right. apply (IH ks) with (i := i); [|exact H].
    unfold sizeF in *. simpl in Hsz. destruct k; simpl in Hsz; lia.
Qed.

Lemma findF_self (n : nat) :
  forall ks, sizeF ks <= n -> NoDup (idsF ks) ->
  forall x, In x (elemsF ks) -> findF (Generate.nodeId x) ks = Some x.
Proof.
  induction n as [|n IH]; intros ks Hsz Hnd x Hx.
  { destruct ks as [|[s|j t a kk] ks]; [contradiction | |];
      unfold sizeF in Hsz; simpl in Hsz; lia. }
  destruct ks as [|k ks]; [contradiction|].
  cbn [idsF flat_map] in Hnd. fold (idsF ks) in Hnd.
  destruct (NoDup_app_disjoint _ _ _ Hnd) as (Hk & Hks & Hdis).
  cbn [elemsF flat_map] in Hx. fold (elemsF ks) in Hx. apply in_app_or in Hx.
  cbn [firstSome].
  destruct Hx as [Hx|Hx].
  - destruct k as [s|j t a kk]; [contradiction|].
    cbn [findIn]. destruct Hx as [<-|Hx].
    + cbn [Generate.nodeId]. rewrite Nat.eqb_refl. reflexivity.
    + rewrite descendants_elemsF in Hx.
      inversion Hk as [|? ? Hj Hkk]; subst. fold (idsF kk) in Hj, Hkk.
      assert (Hin : In (Generate.nodeId x) (idsF kk)).
      { rewrite <- elemsF_ids. apply in_map, Hx. }
      destruct (Nat.eqb_spec j (Generate.nodeId x)) as [E|_]; [congruence|].
      rewrite (IH kk); [reflexivity | | exact Hkk | exact Hx].
      unfold sizeF in *. simpl in Hsz. lia.
  - assert (Hin : In (Generate.nodeId x) (idsF ks)).
    { rewrite <- elemsF_ids. apply in_map, Hx. }
    assert (Hno : findIn (Generate.nodeId x) k = None).
    { apply findIn_None_notin. intros Y. apply (Hdis _ Y Hin). }
    rewrite Hno. apply (IH ks); [|exact Hks | exact Hx].
    unfold sizeF in *. simpl in Hsz. destruct k; simpl in Hsz; lia.
Qed.

Lemma forEach_noop (els : list node) (body : node -> dom -> dom) (d : dom) :
  (forall el live, In el els -> findNode (Generate.nodeId el) d = Some live ->
     body live d = d) ->
  Generate.forEach els body d = d.
Proof.
  unfold Generate.forEach. induction els as [|el els IH]; intros H; [reflexivity|].
  cbn [fold_left].
  assert (E : match findNode (Generate.nodeId el) d with
              | Some live => body live d
              | None => d
              end = d).
  { destruct (findNode (Generate.nodeId el) d) as [live|] eqn:F; [|reflexivity].
    apply (H el live); [left; reflexivity | exact F]. }
  rewrite E. apply IH. intros x live Hx. apply H. right. exact Hx.
Qed.

Section PassRoots.
Variable decode : jsstring -> jsstring.

Lemma pass_root (ss : list selector) (cond : node -> bool)
    (j0 : nat) (t0 : jsstring) (a0 : attrs) (ks g : list node) :
  (forall s, Generate.matchesAny decode ss (Text s) = false) ->
  uniqueIds (Elem j0 t0 a0 ks :: g) ->
  exists g',
    removalLoop cond
      (Generate.querySelectorAll decode ss (Generate.rootOf (Elem j0 t0 a0 ks :: g)))
      (Elem j0 t0 a0 ks :: g)
    = Elem j0 t0 a0
        (pruneF (fun k => Generate.matchesAny decode ss k && cond k) ks) :: g'
    /\ uniqueIds (Elem j0 t0 a0
        (pruneF (fun k => Generate.matchesAny decode ss k && cond k) ks) :: g').
Proof.
  intros Htext Hu.
  assert (Hnd := Hu). unfold uniqueIds in Hnd. cbn [idsF flat_map ids] in Hnd.
  fold (idsF ks) in Hnd. fold (idsF g) in Hnd.
  apply NoDup_app_disjoint in Hnd. destruct Hnd as (Hr & _ & _).
  inversion Hr as [|? ? Hj Hks]; subst.
  cbn [Generate.rootOf]. unfold Generate.querySelectorAll. rewrite descendants_elemsF.
  destruct (removalLoop_root cond
              (filter (Generate.matchesAny decode ss) (elemsF ks)) j0 t0 a0 ks g Hu)
    as (g' & H1 & H2).
  { intros el Hel E. apply filter_In in Hel. destruct Hel as [Hel _].
    apply Hj. rewrite <- E, <- elemsF_ids. apply in_map, Hel. }
  exists g'.
  rewrite (loopF_prune (Generate.matchesAny decode ss) cond Htext (sizeF ks) ks
             (Nat.le_refl _) Hks) in H1, H2.
  split; assumption.
Qed.

Lemma text_unselected (ss : list selector) (s : jsstring) :
  forallb (fun x => negb (JS.eqb [] (selTag x))) ss = true ->
  Generate.matchesAny decode ss (Text s) = false.
Proof.
  unfold Generate.matchesAny. induction ss as [|x ss IH]; [reflexivity|].
  cbn [forallb existsb]. intros H. apply andb_true_iff in H. destruct H as [H1 H2].
  rewrite (IH H2), orb_false_r. unfold Generate.matchesSel. cbn [tagName].
  apply negb_true_iff in H1. rewrite H1. reflexivity.
Qed.

Lemma text_unselected_share (s : jsstring) :
  Generate.matchesAny decode [tagSel "div"; tagSel "span"] (Text s) = false.
Proof. apply text_unselected. vm_compute. reflexivity. Qed.

Lemma text_unselected_more (s : jsstring) :
  Generate.matchesAny decode [classSel "a" "more-link"] (Text s) = false.
Proof. apply text_unselected. vm_compute. reflexivity. Qed.

Lemma text_unselected_block (s : jsstring) :
  Generate.matchesAny decode [tagSel "p"; tagSel "div"] (Text s) = false.
Proof. apply text_unselected. vm_compute. reflexivity. Qed.

(** The three removal passes prune the document. *)
Lemma removal_passes (j0 : nat) (t0 : jsstring) (a0 : attrs) (ks g : list node) :
  uniqueIds (Elem j0 t0 a0 ks :: g) ->
  exists g',
    Generate.removeEmptyBlocks decode
      (Generate.removeMoreLinks decode
         (Generate.removeShareButtons decode (Elem j0 t0 a0 ks :: g)))
    = Elem j0 t0 a0 (prunedKids decode ks) :: g'
    /\ uniqueIds (Elem j0 t0 a0 (prunedKids decode ks) :: g').
Proof.
  intros Hu. unfold prunedKids.
  set (ks1 := pruneF (shareDrop decode) ks).
  set (ks2 := pruneF (moreLinkDrop decode) ks1).
  destruct (pass_root [tagSel "div"; tagSel "span"]
              (fun el => test Generate.shareRe (Generate.getAttribute decode "class" el))
              j0 t0 a0 ks g text_unselected_share Hu)
    as (g1 & E1 & U1).
  assert (E1' : Generate.removeShareButtons decode (Elem j0 t0 a0 ks :: g)
                = Elem j0 t0 a0 ks1 :: g1) by exact E1.
  assert (U1' : uniqueIds (Elem j0 t0 a0 ks1 :: g1)) by exact U1.
  destruct (pass_root [classSel "a" "more-link"] (fun _ => true)
              j0 t0 a0 ks1 g1 text_unselected_more U1')
    as (g2 & E2 & U2).
  assert (E2' : Generate.removeMoreLinks decode (Elem j0 t0 a0 ks1 :: g1)
                = Elem j0 t0 a0 ks2 :: g2) by exact E2.
  assert (U2' : uniqueIds (Elem j0 t0 a0 ks2 :: g2)) by exact U2.
  destruct (pass_root [tagSel "p"; tagSel "div"]
              (fun el => Generate.isBlank (Generate.textOf decode el)
                         && negb (Generate.hasImg decode el))
              j0 t0 a0 ks2 g2 text_unselected_block U2')
    as (g3 & E3 & U3).
  rewrite E1', E2'. exists g3. split; [exact E3 | exact U3].
Qed.
End PassRoots.

Lemma findIn_every (pt : jsstring -> bool) (pe : jsstring -> attrs -> bool)
    (i : nat) (n m : node) :
  every pt pe n = true -> findIn i n = Some m -> every pt pe m = true.
Proof.
  revert m. induction n as [s|j t a ks IH] using node_ind2; intros m H F; [discriminate|].
  cbn [findIn] in F. destruct (Nat.eqb j i); [injection F as <-; exact H|].
  cbn [every] in H. apply andb_true_iff in H. destruct H as [_ H].
  induction IH as [|k ks Hk _ IHks]; [discriminate|].
  cbn [forallb] in H. apply andb_true_iff in H. destruct H as [H1 H2].
  cbn [firstSome] in F. destruct (findIn i k) as [m'|] eqn:E.
  - injection F as <-. apply (Hk m' H1 eq_refl).
  - apply IHks; assumption.
Qed.

Section Idempotent.
Variable decode : jsstring -> jsstring.
Variable existsSync : jsstring -> bool.
Hypothesis plain : plainDecode decode.

Local Abbreviation plainNode := (every ampFree notImageOrCaption).

Lemma no_figcaption_plain (n : node) :
  plainNode n = true ->
  Generate.querySelector decode [tagSel "figcaption"] n = None.
Proof.
  intros H. unfold Generate.querySelector, Generate.querySelectorAll.
  assert (E : filter (Generate.matchesAny decode [tagSel "figcaption"]) (descendants n) = []).
  { destruct n as [s|i t a ks]; [reflexivity|]. rewrite descendants_elemsF.
    cbn [every] in H. apply andb_true_iff in H. destruct H as [_ H].
    pose proof (every_elemsF ampFree notImageOrCaption ks H) as Hall.
    induction (elemsF ks) as [|x l IHl]; [reflexivity|].
    cbn [filter].
    assert (Hx : Generate.matchesAny decode [tagSel "figcaption"] x = false).
    { specialize (Hall x (or_introl eq_refl)).
      destruct x as [s|j t' a' kk]; [reflexivity|].
      cbn [every] in Hall. apply andb_true_iff in Hall. destruct Hall as [Hall _].
      unfold notImageOrCaption in Hall. apply andb_true_iff in Hall.
      destruct Hall as [_ Hall]. apply negb_true_iff in Hall.
      unfold Generate.matchesAny, Generate.matchesSel.
      cbn [existsb tagSel selTag selClass tagName]. rewrite Hall. reflexivity. }
    rewrite Hx. apply IHl. intros y Hy. apply Hall. right. exact Hy. }
  rewrite E. reflexivity.
Qed.

Lemma no_img_plain (n : node) :
  plainNode n = true -> Generate.querySelectorAll decode [tagSel "img"] n = [].
Proof.
  intros H. pose proof (hasImg_plain decode n H) as E.
  unfold Generate.hasImg, Generate.querySelector in E.
  destruct (Generate.querySelectorAll decode [tagSel "img"] n); [reflexivity | discriminate].
Qed.

Lemma images_and_captions_plain (m : Generate.ImageMap) (r : node) (g : list node) :
  plainNode r = true ->
  match Generate.fixImages decode existsSync m (r :: g) with
  | Some d' => Some (Generate.removeEmptyFigcaptions decode d')
  | None => None
  end = Some (r :: g).
Proof.
  intros H. unfold Generate.fixImages. cbn [Generate.rootOf].
  rewrite (no_img_plain r H). cbn [fold_left]. f_equal.
  unfold Generate.removeEmptyFigcaptions. apply forEach_noop.
  intros el live Hel F. unfold findNode in F. cbn [firstSome] in F.
  destruct (findIn (Generate.nodeId el) r) as [x|] eqn:E.
  - injection F as <-.
    rewrite (no_figcaption_plain x (findIn_every _ _ _ r x H E)). reflexivity.
  - exfalso. apply findIn_None_notin in E. apply E.
    unfold Generate.querySelectorAll in Hel. apply filter_In in Hel.
    destruct Hel as [Hel _]. cbn [Generate.rootOf] in Hel.
    destruct r as [s|j t a ks]; [contradiction|].
    rewrite descendants_elemsF in Hel. cbn [ids]. right.
    rewrite <- elemsF_ids. apply in_map. exact Hel.
Qed.

(** On a tree that the removal passes leave alone, each of them changes
    nothing. *)
Lemma removal_noop (ss : list selector) (cond : node -> bool)
    (j0 : nat) (t0 : jsstring) (a0 : attrs) (ks g : list node) :
  uniqueIds (Elem j0 t0 a0 ks :: g) ->
  (forall y, In y (elemsF ks) ->
     Generate.matchesAny decode ss y && cond y = false) ->
  removalLoop cond
    (Generate.querySelectorAll decode ss (Generate.rootOf (Elem j0 t0 a0 ks :: g)))
    (Elem j0 t0 a0 ks :: g) = Elem j0 t0 a0 ks :: g.
Proof.
  intros U Hc. unfold removalLoop. apply forEach_noop.
  intros el live Hel F. unfold Generate.querySelectorAll in Hel.
  apply filter_In in Hel. destruct Hel as [Hel Hsel].
  cbn [Generate.rootOf] in Hel. rewrite descendants_elemsF in Hel.
  assert (Hlive : live = el).
  { unfold findNode in F. cbn [firstSome findIn] in F.
    unfold uniqueIds in U. cbn [flat_map ids] in U.
    assert (Hne : Nat.eqb j0 (Generate.nodeId el) = false).
    { apply Nat.eqb_neq. intros ->. inversion U as [|? ? Hn _]. apply Hn.
      apply in_or_app. left. rewrite <- elemsF_ids. apply in_map. exact Hel. }
    rewrite Hne in F. fold (findF (Generate.nodeId el) ks) in F.
    rewrite (findF_self (sizeF ks) ks (le_n _)) in F.
    - injection F as <-. reflexivity.
    - inversion U as [|? ? _ U']. apply NoDup_app_remove_r in U'. exact U'.
    - exact Hel. }
  subst live. specialize (Hc el Hel). rewrite Hsel in Hc. cbn [andb] in Hc.
  rewrite Hc. reflexivity.
Qed.

Lemma plainNode_root (j0 : nat) (t0 : jsstring) (a0 : attrs) (ks : list node) :
  plainNode (Elem j0 t0 a0 ks) = true ->
  plainNode (Elem j0 t0 a0 (prunedKids decode ks)) = true.
Proof.
  cbn [every]. intros H. apply andb_true_iff in H. destruct H as [H1 H2].
  rewrite H1. cbn [andb]. unfold prunedKids.
  repeat apply every_pruneF. exact H2.
Qed.

(** On a plain document the cleaning prunes the tree of the root... *)
Lemma cleanTree_plain (m : Generate.ImageMap)
    (j0 : nat) (t0 : jsstring) (a0 : attrs) (ks g : list node) :
  uniqueIds (Elem j0 t0 a0 ks :: g) ->
  plainNode (Elem j0 t0 a0 ks) = true ->
  exists g',
    Generate.cleanTree decode existsSync m (Elem j0 t0 a0 ks :: g)
    = Some (Elem j0 t0 a0 (prunedKids decode ks) :: g')
    /\ uniqueIds (Elem j0 t0 a0 (prunedKids decode ks) :: g').
Proof.
  intros U H. destruct (removal_passes decode j0 t0 a0 ks g U) as (g' & E & U').
  exists g'. split; [|exact U'].
  unfold Generate.cleanTree. rewrite E.
  apply images_and_captions_plain. apply plainNode_root. exact H.
Qed.

(** ... and a pruned tree is left as it is. *)
Lemma cleanTree_clean (m : Generate.ImageMap)
    (j0 : nat) (t0 : jsstring) (a0 : attrs) (ks g : list node) :
  uniqueIds (Elem j0 t0 a0 ks :: g) ->
  plainNode (Elem j0 t0 a0 ks) = true ->
  (forall y, In y (elemsF ks) ->
     shareDrop decode y = false /\ moreLinkDrop decode y = false
     /\ emptyDrop decode y = false) ->
  Generate.cleanTree decode existsSync m (Elem j0 t0 a0 ks :: g)
  = Some (Elem j0 t0 a0 ks :: g).
Proof.
  intros U H Hc.
  assert (E1 : Generate.removeShareButtons decode (Elem j0 t0 a0 ks :: g)
               = Elem j0 t0 a0 ks :: g).
  { apply (removal_noop [tagSel "div"; tagSel "span"]
             (fun el => test Generate.shareRe (Generate.getAttribute decode "class" el))
             j0 t0 a0 ks g U).
    intros y Hy. apply (Hc y Hy). }
  assert (E2 : Generate.removeMoreLinks decode (Elem j0 t0 a0 ks :: g)
               = Elem j0 t0 a0 ks :: g).
  { apply (removal_noop [classSel "a" "more-link"] (fun _ => true)
             j0 t0 a0 ks g U).
    intros y Hy. apply (Hc y Hy). }
  assert (E3 : Generate.removeEmptyBlocks decode (Elem j0 t0 a0 ks :: g)
               = Elem j0 t0 a0 ks :: g).
  { apply (removal_noop [tagSel "p"; tagSel "div"]
             (fun el => Generate.isBlank (Generate.textOf decode el)
                        && negb (Generate.hasImg decode el))
             j0 t0 a0 ks g U).
    intros y Hy. apply (Hc y Hy). }
  unfold Generate.cleanTree. rewrite E1, E2, E3.
  apply images_and_captions_plain. exact H.
Qed.

(** Cleaning the tree of a plain document twice is cleaning it once. *)
Lemma cleanTree_twice (m : Generate.ImageMap)
    (j0 : nat) (t0 : jsstring) (a0 : attrs) (ks g : list node) :
  uniqueIds (Elem j0 t0 a0 ks :: g) ->
  plainNode (Elem j0 t0 a0 ks) = true ->
  exists d',
    Generate.cleanTree decode existsSync m (Elem j0 t0 a0 ks :: g) = Some d'
    /\ Generate.cleanTree decode existsSync m d' = Some d'.
Proof.
  intros U H. destruct (cleanTree_plain m j0 t0 a0 ks g U H) as (g' & E & U').
  eexists. split; [exact E|].
  apply (cleanTree_clean m j0 t0 a0 (prunedKids decode ks) g' U').
  - apply plainNode_root. exact H.
  - apply (prunedKids_clean decode plain ks).
    cbn [every] in H. apply andb_true_iff in H. apply H.
Qed.
End Idempotent.

(* ================================================================== *)
(** * Further properties of the generator                               *)
(* ================================================================== *)

(** ** Dates *)

Section MoreDates.
Variable toLowerCase : jsstring -> jsstring.

Lemma parseFrenchDate_resolved (s p0 p1 p2 : jsstring) (rest : list jsstring) :
  dateTokens s = p0 :: p1 :: p2 :: rest ->
  Generate.parseFrenchDate toLowerCase s =
  match parseInt10 p0, parseInt10 p2 with
  | Some d, Some y =>
      if ((d =? 0) || (resolvedMonth toLowerCase p1 =? 0) || (y =? 0))%Z then None
      else Some (newDate y (resolvedMonth toLowerCase p1 - 1) d)
  | _, _ => None
  end.
Proof.
  intros H. rewrite (parseFrenchDate_tokens toLowerCase s p0 p1 p2 rest H).
  reflexivity.
Qed.

(** X1. Only the first three tokens of a date string are read: two
    strings with the same first three tokens, whatever the white space
    around them and whatever follows, give the same date. *)
Theorem parseFrenchDate_reads_three_tokens
    (s s' p0 p1 p2 : jsstring) (rest rest' : list jsstring) :
  dateTokens s = p0 :: p1 :: p2 :: rest ->
  dateTokens s' = p0 :: p1 :: p2 :: rest' ->
  Generate.parseFrenchDate toLowerCase s = Generate.parseFrenchDate toLowerCase s'.
Proof.
  intros H H'.
  rewrite (parseFrenchDate_resolved s p0 p1 p2 rest H),
          (parseFrenchDate_resolved s' p0 p1 p2 rest' H').
  reflexivity.
Qed.

(** X2. A post whose date string starts with a day, a month and a year
    that name a day of the calendar is dated that day and shows the
    date in its canonical form, however the month is spelled (case,
    abbreviation) and whatever follows the year. *)
Theorem dates_display_in_canonical_form
    (p : Generate.Post) (p0 p1 p2 : jsstring) (rest : list jsstring) (d y : Z) :
  dateTokens (Generate.date p) = p0 :: p1 :: p2 :: rest ->
  parseInt10 p0 = Some d -> parseInt10 p2 = Some y ->
  validTriple d (resolvedMonth toLowerCase p1) y ->
  Generate.parsedDate (Generate.annotate toLowerCase p)
  = Some (newDate y (resolvedMonth toLowerCase p1 - 1) d)
  /\ Generate.displayDate (Generate.annotate toLowerCase p)
     = canonicalDate d (resolvedMonth toLowerCase p1) y.
Proof.
  intros Ht Hd Hy Hv.
  assert (E : Generate.parseFrenchDate toLowerCase (Generate.date p)
              = Some (newDate y (resolvedMonth toLowerCase p1 - 1) d)).
  { rewrite (parseFrenchDate_resolved _ p0 p1 p2 rest Ht), Hd, Hy.
    destruct Hv as (Hm & Hday & Hyear).
    assert (Hz : ((d =? 0) || (resolvedMonth toLowerCase p1 =? 0) || (y =? 0))%Z = false).
    { apply orb_false_iff; split; [apply orb_false_iff; split|]; apply Z.eqb_neq; lia. }
    rewrite Hz. reflexivity. }
  unfold Generate.displayDate, Generate.annotate. cbn [Generate.parsedDate Generate.parsedDateStr].
  cbv zeta. rewrite E. split; [reflexivity|].
  apply (format_newDate d (resolvedMonth toLowerCase p1) y Hv).
Qed.
End MoreDates.

Lemma parseFrenchDate_reads_three_tokens_witness :
  Generate.parseFrenchDate Plain.toLowerCase (lit "12 mars 2020 à 10h30")
  = Generate.parseFrenchDate Plain.toLowerCase (lit "  12   mars 2020").
Proof.
  apply (parseFrenchDate_reads_three_tokens Plain.toLowerCase
           (lit "12 mars 2020 à 10h30") (lit "  12   mars 2020")
           (lit "12") (lit "mars") (lit "2020") [lit "à"; lit "10h30"] []).
  - vm_compute. reflexivity.
  - vm_compute. reflexivity.
Defined.

Lemma dates_display_in_canonical_form_witness :
  Generate.parsedDate
    (Generate.annotate Plain.toLowerCase (samplePost "Hiver" "5 JANV. 2021 à 8h" "hiver"))
  = Some (newDate 2021 (resolvedMonth Plain.toLowerCase (lit "JANV.") - 1) 5)
  /\ Generate.displayDate
       (Generate.annotate Plain.toLowerCase (samplePost "Hiver" "5 JANV. 2021 à 8h" "hiver"))
     = canonicalDate 5 (resolvedMonth Plain.toLowerCase (lit "JANV.")) 2021.
Proof.
  apply (dates_display_in_canonical_form Plain.toLowerCase
           (samplePost "Hiver" "5 JANV. 2021 à 8h" "hiver")
           (lit "5") (lit "JANV.") (lit "2021") [lit "à"; lit "8h"] 5 2021).
  - vm_compute. reflexivity.
  - vm_compute. reflexivity.
  - vm_compute. reflexivity.
  - unfold validTriple. vm_compute. intuition discriminate.
Defined.

Lemma monthNum_In (k : jsstring) (n : Z) (m : list (jsstring * Z)) :
  Generate.monthNum k m = Some n -> In (k, n) m.
Proof.
  induction m as [|[k' v] m IH]; simpl; [discriminate|].
  destruct (JS.eqb k' k) eqn:E.
  - intros H. injection H as <-. left. apply eqb_eq in E. subst. reflexivity.
  - intros H. right. apply IH, H.
Qed.

(** X3. A month token that starts with "jui" and is not "juillet" is
    read as June: so are the usual abbreviations of juillet. *)
Theorem jui_reads_as_juin (toLowerCase : jsstring -> jsstring) (tok rest : jsstring) :
  toLowerCase tok = [106; 117; 105]%N ++ rest ->
  rest <> [108; 108; 101; 116]%N ->
  resolvedMonth toLowerCase tok = 6%Z.
Proof.
  intros E Hne. unfold resolvedMonth. rewrite E.
  assert (Hf : Generate.fuzzyMonth ([106; 117; 105]%N ++ rest) = Some 6%Z)
    by (vm_compute; reflexivity).
  rewrite Hf.
  destruct (Generate.monthNum ([106; 117; 105]%N ++ rest) Generate.FRENCH_MONTH_TO_NUM)
    as [n|] eqn:En; [|reflexivity].
  apply monthNum_In in En. vm_compute in En.
  repeat (destruct En as [En|En]; [try discriminate En|]); try contradiction.
  - injection En as <- <-. reflexivity.
  - injection En as <- _. exfalso. apply Hne. reflexivity.
Qed.

Lemma jui_reads_as_juin_witness :
  resolvedMonth Plain.toLowerCase (lit "Juil.") = 6%Z.
Proof.
  apply (jui_reads_as_juin Plain.toLowerCase (lit "Juil.") [108; 46]%N).
  - vm_compute. reflexivity.
  - discriminate.
Defined.

(** ** The list of posts and the pages *)



Section Links.
Variable parse : jsstring -> list html.
Variable decode : jsstring -> jsstring.
Variable existsSync : jsstring -> bool.

Lemma postPages_nth (m : Generate.ImageMap) (ps : list Generate.Post) :
  forall (next : option Generate.Post) (pages : list (jsstring * jsstring)),
  Generate.postPages parse decode existsSync next ps m = (pages, true) ->
  forall i post, nth_error ps i = Some post ->
  exists html,
    nth_error pages i = Some (Generate.postPath post, html)
    /\ Generate.generatePostPage parse decode existsSync post
         (nth_error ps (S i))
         (match i with
          | 0 => next
          | S j => nth_error ps j
          end) m = Some html.
Proof.
  induction ps as [|p ps IH]; intros next pages H i post Hi.
  { destruct i; discriminate. }
  cbn [Generate.postPages] in H.
  destruct (Generate.generatePostPage parse decode existsSync p (hd_error ps) next m)
    as [html|] eqn:E; [|discriminate].
  destruct (Generate.postPages parse decode existsSync (Some p) ps m) as [ws ok] eqn:Ews.
  injection H as <- ->.
  destruct i as [|i].
  - injection Hi as <-. exists html. split; [reflexivity|].
    cbn [nth_error]. destruct ps; exact E.
  - cbn [nth_error] in Hi.
    destruct (IH (Some p) ws Ews i post Hi) as (h & H1 & H2).
    exists h. split; [exact H1|].
    cbn [nth_error]. destruct i as [|j]; exact H2.
Qed.

(** X5. When every page could be made, the page of the post at place
    [i] of the list is written at its path, in the order of the list,
    with the post at place [i + 1] as the previous post and the post at
    place [i - 1] as the next one; the first post has no next post and
    the last one no previous post. *)
Theorem pages_link_neighbours
    (m : Generate.ImageMap) (ps : list Generate.Post)
    (pages : list (jsstring * jsstring)) (i : nat) (post : Generate.Post) :
  Generate.postPages parse decode existsSync None ps m = (pages, true) ->
  nth_error ps i = Some post ->
  exists html,
    nth_error pages i = Some (Generate.postPath post, html)
    /\ pageAt parse decode existsSync m ps i post = Some html.
Proof.
  intros H Hi. destruct (postPages_nth m ps None pages H i post Hi) as (h & H1 & H2).
  exists h. split; [exact H1|]. unfold pageAt. exact H2.
Qed.
End Links.

Lemma pages_link_neighbours_witness :
  exists html,
    nth_error
      (fst (Generate.postPages Plain.parse Plain.decode (Plain.disk []) None
              (Generate.selectPosts Plain.toLowerCase None oldAndUndated) []))
      1
    = Some (Generate.postPath
              (Generate.annotate Plain.toLowerCase
                 (samplePost "Souvenir" "5 mars 1960" "souvenir")), html)
    /\ pageAt Plain.parse Plain.decode (Plain.disk []) []
         (Generate.selectPosts Plain.toLowerCase None oldAndUndated) 1
         (Generate.annotate Plain.toLowerCase
            (samplePost "Souvenir" "5 mars 1960" "souvenir"))
       = Some html.
Proof.
  apply (pages_link_neighbours Plain.parse Plain.decode (Plain.disk []) []
           (Generate.selectPosts Plain.toLowerCase None oldAndUndated)
           (fst (Generate.postPages Plain.parse Plain.decode (Plain.disk []) None
                   (Generate.selectPosts Plain.toLowerCase None oldAndUndated) []))
           1
           (Generate.annotate Plain.toLowerCase
              (samplePost "Souvenir" "5 mars 1960" "souvenir"))).
  - assert (E : snd (Generate.postPages Plain.parse Plain.decode (Plain.disk []) None
                       (Generate.selectPosts Plain.toLowerCase None oldAndUndated) [])
                = true) by (vm_compute; reflexivity).
    destruct (Generate.postPages Plain.parse Plain.decode (Plain.disk []) None
                (Generate.selectPosts Plain.toLowerCase None oldAndUndated) [])
      as [pages ok].
    cbn [fst snd] in *. rewrite E. reflexivity.
  - vm_compute. reflexivity.
Defined.

(** ** The removal passes *)

(** X6. On a document whose elements have distinct identities, the
    passes that remove share buttons, more-links and empty blocks leave
    the root with its children pruned: every element that a pass selects
    in the tree it starts from goes with all it holds, and nothing else
    changes. *)
Theorem removal_passes_prune
    (decode : jsstring -> jsstring)
    (j0 : nat) (t0 : jsstring) (a0 : attrs) (ks g : list node) :
  uniqueIds (Elem j0 t0 a0 ks :: g) ->
  Generate.rootOf
    (Generate.removeEmptyBlocks decode
       (Generate.removeMoreLinks decode
          (Generate.removeShareButtons decode (Elem j0 t0 a0 ks :: g))))
  = Elem j0 t0 a0
      (pruneF (emptyDrop decode)
         (pruneF (moreLinkDrop decode) (pruneF (shareDrop decode) ks)))
  /\ uniqueIds
       (Generate.removeEmptyBlocks decode
          (Generate.removeMoreLinks decode
             (Generate.removeShareButtons decode (Elem j0 t0 a0 ks :: g)))).
Proof.
  intros U. destruct (removal_passes decode j0 t0 a0 ks g U) as (g' & E & U').
  rewrite E. split; [reflexivity | exact U'].
Qed.

Lemma removal_passes_prune_witness :
  Generate.rootOf
    (Generate.removeEmptyBlocks Plain.decode
       (Generate.removeMoreLinks Plain.decode
          (Generate.removeShareButtons Plain.decode
             (Elem 0 [] [] (childNodes clutteredTree) :: []))))
  = Elem 0 [] []
      (pruneF (emptyDrop Plain.decode)
         (pruneF (moreLinkDrop Plain.decode)
            (pruneF (shareDrop Plain.decode) (childNodes clutteredTree))))
  /\ uniqueIds
       (Generate.removeEmptyBlocks Plain.decode
          (Generate.removeMoreLinks Plain.decode
             (Generate.removeShareButtons Plain.decode
                (Elem 0 [] [] (childNodes clutteredTree) :: [])))).
Proof.
  apply (removal_passes_prune Plain.decode 0 [] [] (childNodes clutteredTree) []).
  unfold uniqueIds. vm_compute.
  repeat (constructor; [simpl; intuition discriminate|]). constructor.
Defined.

(** ** The image lookup *)

Lemma lookup_In (k v : jsstring) (m : Generate.ImageMap) :
  Generate.lookup k m = Some v -> In (k, v) m.
Proof.
  induction m as [|[k' v'] m IH]; simpl; [discriminate|].
  destruct (JS.eqb k' k) eqn:E.
  - intros H. injection H as <-. left. apply eqb_eq in E. subst. reflexivity.
  - intros H. right. apply IH, H.
Qed.

Lemma nonEmpty_Some (v : option jsstring) (f : jsstring) :
  nonEmpty v = Some f -> v = Some f /\ f <> [].
Proof.
  unfold nonEmpty. destruct v as [[|c s]|]; cbn [Generate.truthy]; try discriminate.
  intros H. injection H as <-. split; [reflexivity | discriminate].
Qed.



(** X8. A URL that is a key of the image map is always resolved, by the
    third stage at the latest, whatever the disk holds; and to a file
    name that is not empty when the map has no empty value. *)
Theorem findLocalImage_resolves_keys
    (existsSync : jsstring -> bool) (url v : jsstring) (m : Generate.ImageMap) :
  In (url, v) m ->
  exists f,
    Generate.findLocalImage existsSync url m = Some f
    /\ (exists k, In (k, f) m)
    /\ (Forall (fun kv => snd kv <> []) m -> Generate.truthy (Some f) = true).
Proof.
  intros Hin.
  assert (H3 : exists k f, basenameMatch url m = Some f /\ In (k, f) m).
  { unfold basenameMatch.
    destruct (find (fun kv => JS.eqb (fileName (fst kv)) (fileName url)) m)
      as [[k f]|] eqn:Ef.
    - exists k, f. split; [reflexivity|]. apply find_some in Ef. apply Ef.
    - exfalso. pose proof (find_none _ _ Ef (url, v) Hin) as Hn.
      cbn [fst] in Hn. rewrite eqb_refl in Hn. discriminate. }
  destruct H3 as (k3 & f3 & E3 & Hin3).
  rewrite findLocalImage_stages.
  assert (Hval : forall k f, In (k, f) m ->
                 Forall (fun kv => snd kv <> []) m -> Generate.truthy (Some f) = true).
  { intros k f Hk Hall. rewrite Forall_forall in Hall. specialize (Hall (k, f) Hk).
    cbn [snd] in Hall. destruct f; [congruence | reflexivity]. }
  destruct (exactMatch url m) as [x|] eqn:E1; cbn [orElse].
  { apply nonEmpty_Some in E1. destruct E1 as [E1 _]. apply lookup_In in E1.
    exists x. split; [reflexivity|]. split; [eexists; exact E1 | apply (Hval _ _ E1)]. }
  destruct (unsuffixedMatch url m) as [x|] eqn:E2; cbn [orElse].
  { apply nonEmpty_Some in E2. destruct E2 as [E2 _]. apply lookup_In in E2.
    exists x. split; [reflexivity|]. split; [eexists; exact E2 | apply (Hval _ _ E2)]. }
  rewrite E3. cbn [orElse]. exists f3. split; [reflexivity|].
  split; [exists k3; exact Hin3 | apply (Hval _ _ Hin3)].
Qed.

Lemma findLocalImage_resolves_keys_witness :
  exists f,
    Generate.findLocalImage (Plain.disk [])
      (lit "http://lespetitsvendredis.com/b/chien.png")
      [(lit "http://lespetitsvendredis.com/b/chien.png", lit "chien.png")] = Some f
    /\ (exists k, In (k, f) [(lit "http://lespetitsvendredis.com/b/chien.png", lit "chien.png")])
    /\ (Forall (fun kv => snd kv <> [])
          [(lit "http://lespetitsvendredis.com/b/chien.png", lit "chien.png")] ->
        Generate.truthy (Some f) = true).
Proof.
  apply (findLocalImage_resolves_keys (Plain.disk [])
           (lit "http://lespetitsvendredis.com/b/chien.png") (lit "chien.png")
           [(lit "http://lespetitsvendredis.com/b/chien.png", lit "chien.png")]).
  left. exact eq_refl.
Defined.

(** ** File names *)

Lemma safeChar_underscore : safeChar 95 = true.
Proof. reflexivity. Qed.

Lemma sanitize_safe (s : jsstring) : forallb safeChar (Generate.sanitize s) = true.
Proof.
  unfold Generate.sanitize. induction s as [|c s IH]; [reflexivity|].
  cbn [map forallb]. rewrite IH, andb_true_r.
  fold (safeChar c). destruct (safeChar c) eqn:E; [exact E | reflexivity].
Qed.

Lemma sanitize_fixed (s : jsstring) :
  forallb safeChar s = true -> Generate.sanitize s = s.
Proof.
  unfold Generate.sanitize. induction s as [|c s IH]; [reflexivity|].
  cbn [map forallb]. intros H. apply andb_true_iff in H. destruct H as [H1 H2].
  fold (safeChar c). rewrite H1, (IH H2). reflexivity.
Qed.

Lemma safe_no_slash (s : jsstring) : forallb safeChar s = true -> ~ In 47%N s.
Proof.
  intros H Hin. rewrite forallb_forall in H. specialize (H 47%N Hin). discriminate.
Qed.

Lemma cleanFilename_sanitize (name : jsstring) :
  Crawl.cleanFilename name
  = match Generate.sanitize name with
    | [] => lit "image.jpg"
    | s => s
    end.
Proof. reflexivity. Qed.

(** X9. The file name the crawler saves an image under is never empty,
    is made of letters, digits, underscores, hyphens and dots only (so
    it holds no slash), is left as it is when cleaned again, and, for a
    name that is not empty, is the name the generator looks for on the
    disk. *)
Theorem cleanFilename_safe (name : jsstring) :
  Crawl.cleanFilename name <> []
  /\ forallb safeChar (Crawl.cleanFilename name) = true
  /\ ~ In 47%N (Crawl.cleanFilename name)
  /\ Crawl.cleanFilename (Crawl.cleanFilename name) = Crawl.cleanFilename name
  /\ (name <> [] ->
      Crawl.cleanFilename name = Generate.sanitize name
      /\ List.length (Crawl.cleanFilename name) = List.length name).
Proof.
  assert (Hsafe : forallb safeChar (Crawl.cleanFilename name) = true).
  { rewrite cleanFilename_sanitize. pose proof (sanitize_safe name) as H.
    destruct (Generate.sanitize name); [vm_compute; reflexivity | exact H]. }
  assert (Hne : Crawl.cleanFilename name <> []).
  { rewrite cleanFilename_sanitize.
    destruct (Generate.sanitize name); [vm_compute; discriminate | discriminate]. }
  split; [exact Hne|]. split; [exact Hsafe|].
  split; [apply safe_no_slash, Hsafe|].
  split.
  - rewrite (cleanFilename_sanitize (Crawl.cleanFilename name)).
    rewrite (sanitize_fixed _ Hsafe).
    destruct (Crawl.cleanFilename name); [congruence | reflexivity].
  - intros Hn. rewrite cleanFilename_sanitize.
    destruct name as [|c name]; [congruence|].
    unfold Generate.sanitize. cbn [map]. split; [reflexivity|].
    cbn [List.length]. rewrite length_map. reflexivity.
Qed.

(** ** The crawler's filter *)

(** X10. The filter fails, and the crawl with it, exactly when one of
    the URLs of the sitemap cannot be parsed; otherwise its result is
    that of filtering by the test. *)
Theorem filterPostUrls_fails_iff
    (pathname : jsstring -> option jsstring) (l : list jsstring) :
  (Crawl.filterPostUrls pathname l = None <->
   exists u, In u l /\ pathname u = None)
  /\ ((forall u, In u l -> pathname u <> None) ->
      Crawl.filterPostUrls pathname l
      = Some (filter (fun u => match Crawl.isBlogPostUrl pathname u with
                               | Some b => b
                               | None => false
                               end) l)).
Proof.
  assert (Hurl : forall u, Crawl.isBlogPostUrl pathname u = None <-> pathname u = None).
  { intros u. unfold Crawl.isBlogPostUrl. destruct (pathname u); split; congruence. }
  split.
  - induction l as [|u l IH]; cbn [Crawl.filterPostUrls].
    + split; [discriminate | intros (u & [] & _)].
    + destruct (Crawl.isBlogPostUrl pathname u) as [b|] eqn:E.
      * destruct (Crawl.filterPostUrls pathname l) as [r|].
        -- split; [discriminate|]. intros (x & [<-|Hx] & Hp).
           ++ apply Hurl in Hp. congruence.
           ++ assert (H : @None (list jsstring) = None) by reflexivity.
              destruct IH as [_ IH]. discriminate IH. exists x. tauto.
        -- split; [|reflexivity]. intros _. destruct IH as [IH _].
           destruct (IH eq_refl) as (x & Hx & Hp). exists x. split; [right; exact Hx | exact Hp].
      * split; [|reflexivity]. intros _. exists u. split; [left; reflexivity|].
        apply Hurl, E.
  - induction l as [|u l IH]; intros H; cbn [Crawl.filterPostUrls filter]; [reflexivity|].
    destruct (Crawl.isBlogPostUrl pathname u) as [b|] eqn:E.
    + rewrite IH by (intros x Hx; apply H; right; exact Hx).
      destruct b; reflexivity.
    + exfalso. apply (H u (or_introl eq_refl)). apply Hurl, E.
Qed.

(** ** The sitemap *)

Lemma padStart2_twoDigits (k : Z) :
  (1 <= k <= 31)%Z -> padStart2 (showZ k) = twoDigits k.
Proof.
  intros H. destruct k as [|p|p]; try lia.
  repeat match goal with
         | q : positive |- _ => destruct q; try lia
         end; vm_compute; reflexivity.
Qed.

Lemma daysInMonth_le (y m : Z) : (daysInMonth y m <= 31)%Z.
Proof.
  unfold daysInMonth.
  destruct (m =? 2)%Z; [destruct (inLeapYear y); lia|].
  destruct ((m =? 4) || (m =? 6) || (m =? 9) || (m =? 11))%Z; lia.
Qed.


(* ================================================================== *)
(** * Further properties of the crawler                                 *)
(* ================================================================== *)

(** ** The preview server *)

Lemma endsWithSlash_snoc (s : jsstring) (c : N) :
  Crawl.endsWithSlash (s ++ [c]) = (c =? 47)%N.
Proof. unfold Crawl.endsWithSlash. rewrite rev_app_distr. reflexivity. Qed.

(** X12. The preview server answers with the status 200 or 404; with
    200 it sends a file that exists, under the directory of the site;
    with 404 it sends the page of that name, and then neither the file
    of the path nor the index of a directory of that path exists. *)
Theorem serve_sends_existing_files
    (fileExists : jsstring -> bool) (pathname : jsstring) :
  let path := if Crawl.endsWithSlash pathname then pathname ++ lit "index.html"
              else pathname in
  (snd (Crawl.serve fileExists pathname) = 200%Z
   /\ fileExists (fst (Crawl.serve fileExists pathname)) = true
   /\ firstn 6 (fst (Crawl.serve fileExists pathname)) = lit "./site"
   /\ (fst (Crawl.serve fileExists pathname) = lit "./site" ++ path
       \/ fst (Crawl.serve fileExists pathname)
          = lit "./site" ++ path ++ lit "/index.html"))
  \/ (snd (Crawl.serve fileExists pathname) = 404%Z
      /\ fst (Crawl.serve fileExists pathname) = lit "./site/404.html"
      /\ fileExists (lit "./site" ++ path) = false
      /\ fileExists (lit "./site" ++ path ++ lit "/index.html") = false).
Proof.
  intros path. unfold Crawl.serve. cbv zeta. fold path.
  assert (Hsite : forall s, firstn 6 (lit "./site" ++ s) = lit "./site").
  { intros s. change (lit "./site") with [46; 47; 115; 105; 116; 101]%N. reflexivity. }
  destruct (fileExists (lit "./site" ++ path)) eqn:E1.
  - left. cbn [fst snd]. repeat split; auto.
  - destruct (fileExists (lit "./site" ++ path ++ lit "/index.html")) eqn:E2.
    + left. cbn [fst snd]. repeat split; auto.
    + right. cbn [fst snd]. repeat split; auto.
Qed.

(** X13. A request for a directory, with its final slash, gets the
    answer of the request for the index of that directory. *)
Theorem serve_directory_index (fileExists : jsstring -> bool) (dir : jsstring) :
  Crawl.serve fileExists (dir ++ lit "/")
  = Crawl.serve fileExists (dir ++ lit "/index.html").
Proof.
  unfold Crawl.serve. cbv zeta.
  assert (E1 : Crawl.endsWithSlash (dir ++ lit "/") = true).
  { change (lit "/") with [47%N]. apply endsWithSlash_snoc. }
  assert (E2 : Crawl.endsWithSlash (dir ++ lit "/index.html") = false).
  { change (lit "/index.html") with (lit "/index.htm" ++ [108%N]).
    rewrite app_assoc. apply endsWithSlash_snoc. }
  rewrite E1, E2.
  assert (E3 : (dir ++ lit "/") ++ lit "index.html" = dir ++ lit "/index.html").
  { rewrite <- app_assoc. reflexivity. }
  rewrite E3. reflexivity.
Qed.

(** ** Downloads *)

Lemma cleanFilename_facts (name : jsstring) :
  Crawl.cleanFilename name <> [] /\ ~ In 47%N (Crawl.cleanFilename name).
Proof.
  assert (Hsafe : forallb safeChar (Crawl.cleanFilename name) = true).
  { rewrite cleanFilename_sanitize. pose proof (sanitize_safe name) as H.
    destruct (Generate.sanitize name); [vm_compute; reflexivity | exact H]. }
  split; [|apply safe_no_slash, Hsafe].
  rewrite cleanFilename_sanitize.
  destruct (Generate.sanitize name); [vm_compute; discriminate | discriminate].
Qed.

Lemma keeps_refl (d : Crawl.Disk) : keeps d d.
Proof. intros p H. split; [exact H | reflexivity]. Qed.

Lemma keeps_trans (d1 d2 d3 : Crawl.Disk) : keeps d3 d2 -> keeps d2 d1 -> keeps d3 d1.
Proof.
  intros H32 H21 p H. destruct (H21 p H) as [H2 E2]. destruct (H32 p H2) as [H3 E3].
  split; [exact H3 | congruence].
Qed.

Lemma keeps_new (d : Crawl.Disk) (p body : jsstring) :
  Crawl.existsSync d p = false -> keeps ((p, body) :: d) d.
Proof.
  intros Hn q Hq. unfold Crawl.existsSync in *. cbn [existsb find fst].
  destruct (JS.eqb p q) eqn:E.
  - apply eqb_eq in E. subst q. congruence.
  - split; [exact Hq | reflexivity].
Qed.

Section DownloadFacts.
Variable pathname : jsstring -> option jsstring.
Variable href : jsstring -> option jsstring.

Local Abbreviation download := (Crawl.downloadImage pathname href).

(** What a call does, case by case. *)
Lemma downloadImage_cases (u : jsstring) (w : Crawl.World)
    (r : option jsstring) (w' : Crawl.World) :
  download u w = Some (r, w') ->
  exists url p,
    Crawl.normalizeImageUrl href u = Some url /\ pathname url = Some p /\
    let f := Crawl.cleanFilename (basename p) in
    let path := join Crawl.IMAGES_DIR f in
    (Crawl.existsSync (Crawl.disk w) path = true /\ r = Some f /\ w' = w)
    \/ (Crawl.existsSync (Crawl.disk w) path = false /\
        exists body later,
          Crawl.net w = Some body :: later /\ r = Some f
          /\ w' = {| Crawl.disk := (path, body) :: Crawl.disk w; Crawl.net := later |})
    \/ (Crawl.existsSync (Crawl.disk w) path = false /\ r = None
        /\ Crawl.disk w' = Crawl.disk w
        /\ Crawl.net w' = tl (Crawl.net w)
        /\ (Crawl.net w = [] \/ exists later, Crawl.net w = None :: later)).
Proof.
  unfold Crawl.downloadImage.
  destruct (Crawl.normalizeImageUrl href u) as [url|] eqn:E1; [|discriminate].
  destruct (pathname url) as [p|] eqn:E2; [|discriminate].
  cbv zeta. intros H. exists url, p. split; [reflexivity|]. split; [exact E2|].
  destruct (Crawl.existsSync (Crawl.disk w) _) eqn:E.
  - injection H as <- <-. left. auto.
  - right. destruct (Crawl.net w) as [|[body|] later] eqn:En.
    + injection H as <- <-. right. rewrite En. repeat split; auto.
    + injection H as <- <-. left. split; [reflexivity|]. exists body, later. auto.
    + injection H as <- <-. right. cbn [Crawl.disk Crawl.net]. repeat split; eauto.
Qed.

(** X14. A call that returns leaves every path of the disk as it was;
    when it gives a file name, that name is not empty and holds no
    slash, and the file exists in the directory of images afterwards;
    it fetches at most once, and not at all when the file was there. *)
Theorem downloadImage_effect (u : jsstring) (w : Crawl.World)
    (r : option jsstring) (w' : Crawl.World) :
  download u w = Some (r, w') ->
  keeps (Crawl.disk w') (Crawl.disk w)
  /\ (forall f, r = Some f ->
        f <> [] /\ ~ In 47%N f
        /\ Crawl.existsSync (Crawl.disk w') (join Crawl.IMAGES_DIR f) = true
        /\ (Crawl.existsSync (Crawl.disk w) (join Crawl.IMAGES_DIR f) = true -> w' = w))
  /\ (Crawl.net w' = Crawl.net w \/ Crawl.net w' = tl (Crawl.net w)).
Proof.
  intros H. destruct (downloadImage_cases u w r w' H) as (url & p & _ & _ & Hc).
  cbv zeta in Hc.
  destruct (cleanFilename_facts (basename p)) as [Hne Hslash].
  destruct Hc as [(E & -> & ->) | [(E & body & later & En & -> & ->) | (E & -> & Ed & En & _)]].
  - split; [apply keeps_refl|]. split; [|left; reflexivity].
    intros f Hf. injection Hf as <-. auto.
  - cbn [Crawl.disk Crawl.net]. split; [apply keeps_new, E|].
    split; [|right; rewrite En; reflexivity].
    intros f Hf. injection Hf as <-. split; [exact Hne|]. split; [exact Hslash|].
    split; [|congruence].
    unfold Crawl.existsSync. cbn [existsb fst]. rewrite eqb_refl. reflexivity.
  - rewrite Ed. split; [apply keeps_refl|]. split; [discriminate|].
    right. exact En.
Qed.

(** X15. A download that gave a file name gives the same name when it
    is asked again, without a fetch and without a change of the disk. *)
Theorem downloadImage_again (u : jsstring) (w : Crawl.World)
    (f : jsstring) (w' : Crawl.World) :
  download u w = Some (Some f, w') ->
  download u w' = Some (Some f, w').
Proof.
  intros H. destruct (downloadImage_cases u w (Some f) w' H) as (url & p & E1 & E2 & Hc).
  cbv zeta in Hc.
  assert (Hf : f = Crawl.cleanFilename (basename p)
               /\ Crawl.existsSync (Crawl.disk w')
                    (join Crawl.IMAGES_DIR (Crawl.cleanFilename (basename p))) = true).
  { destruct Hc as [(E & Hr & ->) | [(E & body & later & En & Hr & ->) | (_ & Hr & _)]].
    - injection Hr as ->. auto.
    - injection Hr as ->. split; [reflexivity|].
      unfold Crawl.existsSync. cbn [Crawl.disk existsb fst]. rewrite eqb_refl. reflexivity.
    - discriminate. }
  destruct Hf as [-> Hex].
  unfold Crawl.downloadImage. rewrite E1, E2. cbv zeta. rewrite Hex. reflexivity.
Qed.

(** X16. The generator finds on the disk what the crawler saved: when
    the base name of the path of the fetched URL is the base name of
    the image URL without its query, and is not empty, the last stage
    of the lookup gives the name the crawler returned. *)
Theorem crawled_file_found_on_disk (u : jsstring) (w : Crawl.World)
    (f : jsstring) (w' : Crawl.World) (url p : jsstring) :
  download u w = Some (Some f, w') ->
  Crawl.normalizeImageUrl href u = Some url -> pathname url = Some p ->
  basename p = fileName u -> fileName u <> [] ->
  diskMatch (Crawl.existsSync (Crawl.disk w')) u = Some f.
Proof.
  intros H E1 E2 Hb Hn.
  destruct (downloadImage_effect u w (Some f) w' H) as (_ & Hf & _).
  destruct (Hf f eq_refl) as (_ & _ & Hex & _).
  destruct (downloadImage_cases u w (Some f) w' H) as (url' & p' & E1' & E2' & Hc).
  rewrite E1 in E1'. injection E1' as <-. rewrite E2 in E2'. injection E2' as <-.
  cbv zeta in Hc.
  assert (Hname : f = Crawl.cleanFilename (basename p)).
  { destruct Hc as [(_ & Hr & _) | [(_ & body & later & _ & Hr & _) | (_ & Hr & _)]];
      congruence. }
  destruct (cleanFilename_safe (fileName u)) as (_ & _ & _ & _ & Hs).
  destruct (Hs Hn) as [Hsan _].
  unfold diskMatch. cbv zeta.
  assert (Edir : Generate.IMAGES_DIR = Crawl.IMAGES_DIR) by reflexivity.
  rewrite Edir, <- Hsan, <- Hb, <- Hname, Hex. reflexivity.
Qed.
End DownloadFacts.

Lemma downloadImage_effect_witness :
  keeps (Crawl.disk afterChat) (Crawl.disk freshWorld)
  /\ (forall f, Some (lit "chat.jpg") = Some f ->
        f <> [] /\ ~ In 47%N f
        /\ Crawl.existsSync (Crawl.disk afterChat) (join Crawl.IMAGES_DIR f) = true
        /\ (Crawl.existsSync (Crawl.disk freshWorld) (join Crawl.IMAGES_DIR f) = true ->
            afterChat = freshWorld))
  /\ (Crawl.net afterChat = Crawl.net freshWorld
      \/ Crawl.net afterChat = tl (Crawl.net freshWorld)).
Proof.
  apply (downloadImage_effect Plain.pathname Plain.href
           (lit "https://lespetitsvendredis.com/a/chat.jpg") freshWorld
           (Some (lit "chat.jpg")) afterChat).
  vm_compute. reflexivity.
Defined.

Lemma downloadImage_again_witness :
  Crawl.downloadImage Plain.pathname Plain.href
    (lit "https://lespetitsvendredis.com/a/chat.jpg") afterChat
  = Some (Some (lit "chat.jpg"), afterChat).
Proof.
  apply (downloadImage_again Plain.pathname Plain.href
           (lit "https://lespetitsvendredis.com/a/chat.jpg") freshWorld
           (lit "chat.jpg") afterChat).
  vm_compute. reflexivity.
Defined.

Lemma crawled_file_found_on_disk_witness :
  diskMatch (Crawl.existsSync (Crawl.disk afterChat))
    (lit "https://lespetitsvendredis.com/a/chat.jpg")
  = Some (lit "chat.jpg").
Proof.
  apply (crawled_file_found_on_disk Plain.pathname Plain.href
           (lit "https://lespetitsvendredis.com/a/chat.jpg") freshWorld
           (lit "chat.jpg") afterChat
           (lit "https://lespetitsvendredis.com/a/chat.jpg") (lit "/a/chat.jpg")).
  - vm_compute. reflexivity.
  - vm_compute. reflexivity.
  - vm_compute. reflexivity.
  - vm_compute. reflexivity.
  - vm_compute. discriminate.
Defined.

(** ** The image map *)

Lemma setAdd_In (x y : jsstring) (s : list jsstring) :
  In x (Crawl.setAdd y s) <-> x = y \/ In x s.
Proof.
  unfold Crawl.setAdd. destruct (existsb (JS.eqb y) s) eqn:E.
  - split; [tauto|]. intros [->|H]; [|exact H].
    apply existsb_exists in E. destruct E as (z & Hz & Hyz).
    apply eqb_eq in Hyz. subst z. exact Hz.
  - rewrite in_app_iff. cbn [In]. split; intros H; intuition congruence.
Qed.

Lemma setAdd_NoDup (y : jsstring) (s : list jsstring) :
  NoDup s -> NoDup (Crawl.setAdd y s).
Proof.
  intros H. unfold Crawl.setAdd. destruct (existsb (JS.eqb y) s) eqn:E; [exact H|].
  apply NoDup_app; [exact H | repeat constructor; intros [] |].
  intros x Hx [Hxy|[]]. subst x.
  assert (Ht : existsb (JS.eqb y) s = true).
  { apply existsb_exists. exists y. split; [exact Hx | apply eqb_refl]. }
  congruence.
Qed.

Lemma addImages_spec (imgs s : list jsstring) :
  (forall x, In x (fold_left (fun s img => Crawl.setAdd img s) imgs s)
             <-> In x imgs \/ In x s)
  /\ (NoDup s -> NoDup (fold_left (fun s img => Crawl.setAdd img s) imgs s)).
Proof.
  revert s; induction imgs as [|i imgs IH]; intros s; cbn [fold_left].
  - split; [intros x; cbn [In]; tauto | auto].
  - destruct (IH (Crawl.setAdd i s)) as [H1 H2]. split.
    + intros x. rewrite H1, setAdd_In. cbn [In]. intuition congruence.
    + intros Hs. apply H2, setAdd_NoDup, Hs.
Qed.

Lemma collect_spec (posts : list Crawl.Post) (s : list jsstring) :
  (forall x,
     In x (fold_left (fun s p => fold_left (fun s img => Crawl.setAdd img s)
                                   (Crawl.images p) s) posts s)
     <-> (exists p, In p posts /\ In x (Crawl.images p)) \/ In x s)
  /\ (NoDup s ->
      NoDup (fold_left (fun s p => fold_left (fun s img => Crawl.setAdd img s)
                                     (Crawl.images p) s) posts s)).
Proof.
  revert s; induction posts as [|p posts IH]; intros s; cbn [fold_left].
  - split; [|auto]. intros x. split; [tauto|]. intros [(p & [] & _)|H]; exact H.
  - destruct (IH (fold_left (fun s img => Crawl.setAdd img s) (Crawl.images p) s))
      as [H1 H2].
    destruct (addImages_spec (Crawl.images p) s) as [A1 A2].
    split.
    + intros x. rewrite H1, A1. cbn [In]. split.
      * intros [(q & Hq & Hx)|[Hx|Hx]]; [left; exists q; tauto | left; exists p; tauto | tauto].
      * intros [(q & [<-|Hq] & Hx)|Hx]; [tauto | left; exists q; tauto | tauto].
    + intros Hs. apply H2, A2, Hs.
Qed.

Lemma allImages_spec (posts : list Crawl.Post) :
  (forall x, In x (Crawl.allImages posts)
             <-> x = Crawl.PORTRAIT \/ exists p, In p posts /\ In x (Crawl.images p))
  /\ NoDup (Crawl.allImages posts).
Proof.
  unfold Crawl.allImages.
  destruct (collect_spec posts []) as [H1 H2]. split.
  - intros x. rewrite setAdd_In, H1. cbn [In]. tauto.
  - apply setAdd_NoDup, H2. constructor.
Qed.

Lemma setKey_spec (k v : jsstring) (m : list (jsstring * jsstring)) :
  (forall k' v', In (k', v') (Crawl.setKey k v m) ->
                 (k' = k /\ v' = v) \/ In (k', v') m)
  /\ (forall k', In k' (keys (Crawl.setKey k v m)) <-> k' = k \/ In k' (keys m))
  /\ (NoDup (keys m) -> NoDup (keys (Crawl.setKey k v m))).
Proof.
  induction m as [|[k0 v0] m (IH1 & IH2 & IH3)]; cbn [Crawl.setKey].
  - split; [|split].
    + intros k' v' [H|[]]. injection H as <- <-. auto.
    + intros k'. cbn. intuition congruence.
    + intros _. cbn. repeat constructor. intros [].
  - destruct (JS.eqb k0 k) eqn:E.
    + apply eqb_eq in E. subst k0. split; [|split].
      * intros k' v' [H|H]; [injection H as <- <-; auto | right; right; exact H].
      * intros k'. cbn. intuition congruence.
      * intros H. exact H.
    + split; [|split].
      * intros k' v' [H|H]; [right; left; exact H|].
        destruct (IH1 k' v' H); [auto | right; right; assumption].
      * intros k'. unfold keys in *. cbn [map fst In]. rewrite IH2. tauto.
      * unfold keys in *. cbn [map fst]. intros H. inversion H as [|? ? Hn Hnd]; subst.
        constructor; [|apply IH3, Hnd].
        rewrite IH2. intros [->|Hk]; [|contradiction].
        rewrite eqb_refl in E. discriminate.
Qed.

Lemma lookup_keys (k : jsstring) (m : list (jsstring * jsstring)) :
  In k (keys m) -> Generate.lookup k m <> None.
Proof.
  induction m as [|[k0 v0] m IH]; cbn; [tauto|].
  intros [->|H]; [rewrite eqb_refl; discriminate|].
  destruct (JS.eqb k0 k); [discriminate | apply IH, H].
Qed.

Lemma keeps_exists (d' d : Crawl.Disk) (p : jsstring) :
  keeps d' d -> Crawl.existsSync d p = true -> Crawl.existsSync d' p = true.
Proof. intros H Hp. apply (H p Hp). Qed.

Section ImageMap.
Variable pathname : jsstring -> option jsstring.
Variable href : jsstring -> option jsstring.

Local Abbreviation download := (Crawl.downloadImage pathname href).
Local Abbreviation downloadAll := (Crawl.downloadAll pathname href).

Lemma downloadAll_spec (urls : list jsstring) :
  forall (m : list (jsstring * jsstring)) (w : Crawl.World)
         (m' : list (jsstring * jsstring)) (w' : Crawl.World),
  downloadAll urls m w = Some (m', w') ->
  keeps (Crawl.disk w') (Crawl.disk w)
  /\ (NoDup (keys m) -> NoDup (keys m'))
  /\ (forall k, In k (keys m) -> In k (keys m'))
  /\ (forall k f, In (k, f) m' ->
        In (k, f) m
        \/ (In k urls /\ f <> [] /\ ~ In 47%N f
            /\ Crawl.existsSync (Crawl.disk w') (join Crawl.IMAGES_DIR f) = true)).
Proof.
  induction urls as [|u urls IH]; intros m w m' w' H; cbn [Crawl.downloadAll] in H.
  { injection H as <- <-. split; [apply keeps_refl|]. repeat split; auto. }
  destruct (download u w) as [[r w1]|] eqn:Ed; [|discriminate].
  destruct (downloadImage_effect pathname href u w r w1 Ed) as (K1 & Hf & _).
  destruct r as [[|c f]|].
  - destruct (IH m w1 m' w' H) as (K & N & S & E).
    split; [apply (keeps_trans _ _ _ K K1)|]. split; [exact N|]. split; [exact S|].
    intros k g Hk. destruct (E k g Hk) as [?|(? & ?)]; [auto | right; cbn [In]; tauto].
  - destruct (IH (Crawl.setKey u (c :: f) m) w1 m' w' H) as (K & N & S & E).
    destruct (setKey_spec u (c :: f) m) as (S1 & S2 & S3).
    split; [apply (keeps_trans _ _ _ K K1)|].
    split; [intros Hn; apply N, S3, Hn|].
    split; [intros k Hk; apply S, S2; right; exact Hk|].
    intros k g Hk. destruct (E k g Hk) as [Hin|(? & ?)]; [|right; cbn [In]; tauto].
    destruct (S1 k g Hin) as [[-> ->]|Hm]; [|left; exact Hm].
    right. destruct (Hf (c :: f) eq_refl) as (A & B & C & _).
    split; [left; reflexivity|]. split; [exact A|]. split; [exact B|].
    apply (keeps_exists _ _ _ K C).
  - destruct (IH m w1 m' w' H) as (K & N & S & E).
    split; [apply (keeps_trans _ _ _ K K1)|]. split; [exact N|]. split; [exact S|].
    intros k g Hk. destruct (E k g Hk) as [?|(? & ?)]; [auto | right; cbn [In]; tauto].
Qed.

Lemma localImages_spec (m : list (jsstring * jsstring)) (p : Crawl.Post) :
  List.length (Crawl.localImages m p) = List.length (Crawl.images p)
  /\ (forall x, In (Some x) (Crawl.localImages m p) -> exists k, In (k, x) m).
Proof.
  unfold Crawl.localImages. split; [apply length_map|].
  intros x H. apply in_map_iff in H. destruct H as (u & H & _). cbv zeta in H.
  destruct (Generate.lookup (replaceFirst (lit "http://") (lit "https://") u) m)
    as [v|] eqn:E.
  - injection H as <-. eexists. apply lookup_In, E.
  - eexists. apply lookup_In, H.
Qed.

(** X17. When the image phase of the crawl ends, the paths that
    existed still exist with their content; the image map has no key
    twice; each of its entries maps an image of a post, or the portrait,
    to a file name that is not empty, holds no slash and names a file of
    the directory of images; and every post has one local image, which
    may be none, for each of its images, each taken from the map. *)
Theorem imagePhase_map (posts : list Crawl.Post) (w : Crawl.World)
    (posts' : list Crawl.Post) (m : list (jsstring * jsstring)) (w' : Crawl.World) :
  Crawl.imagePhase pathname href posts w = Some (posts', m, w') ->
  keeps (Crawl.disk w') (Crawl.disk w)
  /\ NoDup (keys m)
  /\ (forall k f, In (k, f) m ->
        (k = Crawl.PORTRAIT \/ exists p, In p posts /\ In k (Crawl.images p))
        /\ f <> [] /\ ~ In 47%N f
        /\ Crawl.existsSync (Crawl.disk w') (join Crawl.IMAGES_DIR f) = true)
  /\ List.length posts' = List.length posts
  /\ (forall p', In p' posts' ->
        exists l, Crawl.local_images p' = Some l
          /\ List.length l = List.length (Crawl.images p')
          /\ (forall x, In (Some x) l -> exists k, In (k, x) m)).
Proof.
  unfold Crawl.imagePhase.
  destruct (downloadAll (Crawl.allImages posts) [] w) as [[m0 w0]|] eqn:E; [|discriminate].
  intros H. injection H as <- <- <-.
  destruct (downloadAll_spec _ _ _ _ _ E) as (K & N & _ & En).
  destruct (allImages_spec posts) as [Hall _].
  split; [exact K|]. split; [apply N; constructor|].
  split.
  { intros k f Hk. destruct (En k f Hk) as [[]|(Hin & A & B & C)].
    split; [apply Hall, Hin | auto]. }
  split; [apply length_map|].
  intros p' Hp. apply in_map_iff in Hp. destruct Hp as (p & <- & _).
  exists (Crawl.localImages m0 p). cbn [Crawl.withLocalImages Crawl.local_images Crawl.images].
  split; [reflexivity|]. apply localImages_spec.
Qed.

Lemma downloadAll_keys (urls : list jsstring) :
  forall (m : list (jsstring * jsstring)) (w : Crawl.World)
         (m' : list (jsstring * jsstring)) (w' : Crawl.World),
  downloadAll urls m w = Some (m', w') ->
  Forall (fun o => o <> None) (Crawl.net w) ->
  List.length urls <= List.length (Crawl.net w) ->
  forall u, In u urls -> In u (keys m').
Proof.
  induction urls as [|u urls IH]; intros m w m' w' H Hnet Hlen x Hx; [destruct Hx|].
  cbn [Crawl.downloadAll] in H.
  destruct (download u w) as [[r w1]|] eqn:Ed; [|discriminate].
  destruct (downloadImage_cases pathname href u w r w1 Ed) as (url & p & _ & _ & Hc).
  cbv zeta in Hc. cbn [List.length] in Hlen.
  destruct (cleanFilename_facts (basename p)) as [Hne _].
  assert (Hr : exists c f, r = Some (c :: f)
               /\ Forall (fun o => o <> None) (Crawl.net w1)
               /\ List.length urls <= List.length (Crawl.net w1)).
  { destruct Hc as [(_ & -> & ->) | [(_ & body & later & En & -> & ->) | (_ & _ & _ & _ & Hbad)]].
    - destruct (Crawl.cleanFilename (basename p)) as [|c f]; [congruence|].
      exists c, f. split; [reflexivity|]. split; [exact Hnet | lia].
    - destruct (Crawl.cleanFilename (basename p)) as [|c f]; [congruence|].
      exists c, f. split; [reflexivity|]. cbn [Crawl.net]. rewrite En in *.
      inversion Hnet; subst. cbn [List.length] in Hlen. split; [assumption | lia].
    - exfalso. destruct Hbad as [En|(later & En)]; rewrite En in *.
      + cbn [List.length] in Hlen. lia.
      + inversion Hnet; subst. congruence. }
  destruct Hr as (c & f & -> & Hnet1 & Hlen1).
  destruct Hx as [<-|Hx].
  - destruct (downloadAll_spec _ _ _ _ _ H) as (_ & _ & S & _).
    apply S. apply (setKey_spec u (c :: f) m). left. reflexivity.
  - apply (IH _ _ _ _ H Hnet1 Hlen1 x Hx).
Qed.

(** X18. When the network has an answer for every image and no fetch
    fails, every image of every post gets a local file. *)
Theorem all_images_get_local_files (posts : list Crawl.Post) (w : Crawl.World)
    (posts' : list Crawl.Post) (m : list (jsstring * jsstring)) (w' : Crawl.World) :
  Crawl.imagePhase pathname href posts w = Some (posts', m, w') ->
  Forall (fun o => o <> None) (Crawl.net w) ->
  List.length (Crawl.allImages posts) <= List.length (Crawl.net w) ->
  forall p', In p' posts' ->
  exists l, Crawl.local_images p' = Some l
    /\ List.length l = List.length (Crawl.images p')
    /\ ~ In None l.
Proof.
  unfold Crawl.imagePhase.
  destruct (downloadAll (Crawl.allImages posts) [] w) as [[m0 w0]|] eqn:E; [|discriminate].
  intros H Hnet Hlen p' Hp. injection H as <- <- <-.
  apply in_map_iff in Hp. destruct Hp as (p & <- & Hp).
  exists (Crawl.localImages m0 p). cbn [Crawl.withLocalImages Crawl.local_images Crawl.images].
  split; [reflexivity|]. split; [apply localImages_spec|].
  unfold Crawl.localImages. intros Hin. apply in_map_iff in Hin.
  destruct Hin as (u & Hu & Hin). cbv zeta in Hu.
  destruct (Generate.lookup (replaceFirst (lit "http://") (lit "https://") u) m0);
    [discriminate|].
  revert Hu. apply lookup_keys.
  apply (downloadAll_keys _ _ _ _ _ E Hnet Hlen).
  apply (allImages_spec posts). right. exists p. split; assumption.
Qed.
End ImageMap.

Lemma imagePhase_map_witness :
  keeps (Crawl.disk afterCrawl) (Crawl.disk freshWorld)
  /\ NoDup (keys crawledMap)
  /\ (forall k f, In (k, f) crawledMap ->
        (k = Crawl.PORTRAIT \/ exists p, In p [crawledPost] /\ In k (Crawl.images p))
        /\ f <> [] /\ ~ In 47%N f
        /\ Crawl.existsSync (Crawl.disk afterCrawl) (join Crawl.IMAGES_DIR f) = true)
  /\ List.length (map (Crawl.withLocalImages crawledMap) [crawledPost])
     = List.length [crawledPost]
  /\ (forall p', In p' (map (Crawl.withLocalImages crawledMap) [crawledPost]) ->
        exists l, Crawl.local_images p' = Some l
          /\ List.length l = List.length (Crawl.images p')
          /\ (forall x, In (Some x) l -> exists k, In (k, x) crawledMap)).
Proof.
  apply (imagePhase_map Plain.pathname Plain.href [crawledPost] freshWorld
           (map (Crawl.withLocalImages crawledMap) [crawledPost]) crawledMap afterCrawl).
  vm_compute. reflexivity.
Defined.

Lemma all_images_get_local_files_witness :
  exists l,
    Crawl.local_images (Crawl.withLocalImages crawledMap crawledPost) = Some l
    /\ List.length l
       = List.length (Crawl.images (Crawl.withLocalImages crawledMap crawledPost))
    /\ ~ In None l.
Proof.
  apply (all_images_get_local_files Plain.pathname Plain.href [crawledPost] freshWorld
           (map (Crawl.withLocalImages crawledMap) [crawledPost]) crawledMap afterCrawl).
  - vm_compute. reflexivity.
  - unfold freshWorld. cbn [Crawl.net]. repeat (constructor; [discriminate|]). constructor.
  - vm_compute. lia.
  - left. exact eq_refl.
Defined.

(* ================================================================== *)
(** * The properties of the specification                               *)
(* ================================================================== *)

(** ** Content cleaning and the disk *)




(** ** Idempotence *)




(** ** Images that cannot be resolved *)




(** ** The image lookup *)


(** ** Dates *)

(** C5. For every day of the calendar in a year from 100 to 275759,
    written as day, French month name and year, parsing and formatting
    gives the same string back. *)
Theorem parse_format_round_trip
    (toLowerCase : jsstring -> jsstring) (d m y : Z) :
  fixesMonthNames toLowerCase -> validTriple d m y ->
  Generate.formatDate
    (Generate.parseFrenchDate toLowerCase (canonicalDate d m y))
  = canonicalDate d m y
  /\ Generate.parseFrenchDate toLowerCase (canonicalDate d m y) <> None.
Proof.
  intros Hl Hv. rewrite (parse_canonical toLowerCase Hl d m y Hv).
  split; [apply (format_newDate d m y Hv) | discriminate].
Qed.

Lemma parse_format_round_trip_witness :
  Generate.formatDate
    (Generate.parseFrenchDate Plain.toLowerCase (canonicalDate 29 2 2024))
  = canonicalDate 29 2 2024
  /\ Generate.parseFrenchDate Plain.toLowerCase (canonicalDate 29 2 2024) <> None.
Proof.
  apply (parse_format_round_trip Plain.toLowerCase 29 2 2024).
  - intros k name H. vm_compute in H.
    repeat (destruct H as [H|H];
            [injection H as _ <-; vm_compute; reflexivity|]).
    contradiction.
  - unfold validTriple. vm_compute. intuition discriminate.
Defined.




(** ** Excerpts *)

(** C7 (as amended). An excerpt is never longer than the limit plus the
    ellipsis; a text within the limit is returned whole; a longer one is
    cut before the last space character (U+0020) among its first [n]
    characters, or after [n] characters when none of them is a space. *)
Theorem getExcerpt_cut_at_last_space
    (parse : jsstring -> list html) (decode : jsstring -> jsstring)
    (htmlStr : jsstring) (n : nat) :
  wordSafeCut isBlankChar (excerptText parse decode htmlStr) n
    (Generate.getExcerpt parse decode htmlStr n).
Proof. apply getExcerpt_cut. Qed.

(** C7, the claim as stated fails for white space other than the space
    character: with a line break between two words the second word is
    split. *)
Lemma getExcerpt_splits_after_line_break :
  excerptText Plain.parse Plain.decode twoParagraphs
  = lit "hello" ++ Generate.nl ++ lit "world"
  /\ Plain.getExcerpt twoParagraphs 8 = lit "hello" ++ Generate.nl ++ lit "wo..."
  /\ ~ wordSafeCut isSpace (excerptText Plain.parse Plain.decode twoParagraphs) 8
         (Plain.getExcerpt twoParagraphs 8).
Proof.
  split; [vm_compute; reflexivity|].
  split; [vm_compute; reflexivity|].
  intros (_ & _ & H).
  assert (E1 : excerptText Plain.parse Plain.decode twoParagraphs
               = [104; 101; 108; 108; 111; 10; 119; 111; 114; 108; 100]%N)
    by (vm_compute; reflexivity).
  assert (E2 : Plain.getExcerpt twoParagraphs 8
               = [104; 101; 108; 108; 111; 10; 119; 111; 46; 46; 46]%N)
    by (vm_compute; reflexivity).
  rewrite E1, E2 in H.
  destruct (H ltac:(cbn [List.length]; lia)) as (k & Hout & Hk & Hb & _).
  assert (Hlen : k = 8).
  { apply (f_equal (@List.length N)) in Hout.
    rewrite length_app, length_firstn in Hout.
    change (List.length (lit "...")) with 3 in Hout.
    cbn [List.length] in Hout. lia. }
  subst k.
  destruct (Hb ltac:(vm_compute; reflexivity)) as (b & rest & Hsplit & _).
  apply (f_equal (@List.length N)) in Hsplit.
  rewrite length_app in Hsplit. cbn [List.length] in Hsplit. lia.
Qed.

(** ** Filtering *)

(** C8. A slug of the attachment list is the slug of no selected post;
    the first file written is the style sheet, the next ones are the
    pages of selected posts, and what follows is, when all pages could
    be made, the homepage and the sitemap of the selected posts with
    four fixed files: no page, homepage item or sitemap entry is made
    for a post with such a slug. *)
Theorem excluded_slug_never_rendered
    (toLowerCase : jsstring -> jsstring) (parse : jsstring -> list html)
    (decode : jsstring -> jsstring) (existsSync : jsstring -> bool)
    (attachmentFile : option (list jsstring)) (CSS : jsstring)
    (data : Generate.PostData) (s : jsstring) :
  In s (excludedSlugs attachmentFile) ->
  let ps := Generate.selectPosts toLowerCase attachmentFile data in
  Forall (fun q => Generate.slug q <> s) ps
  /\ exists pages rest ok,
       Generate.main toLowerCase parse decode existsSync attachmentFile CSS data
       = ((join Generate.OUTPUT_DIR (lit "style.css"), CSS) :: pages ++ rest, ok)
       /\ (forall f, In f pages ->
             exists q prev next,
               In q ps /\ fst f = Generate.postPath q
               /\ Generate.generatePostPage parse decode existsSync q prev next
                    (Generate.image_map data) = Some (snd f))
       /\ (ok = false -> rest = [])
       /\ (ok = true ->
             map fst pages = map Generate.postPath ps
             /\ exists robots,
                  rest = [ (join Generate.OUTPUT_DIR (lit "index.html"),
                            Generate.generateHomepage parse decode ps);
                           (join Generate.OUTPUT_DIR (lit "CNAME"),
                            lit "lespetitsvendredis.com" ++ Generate.nl);
                           (join Generate.OUTPUT_DIR (lit ".nojekyll"), []);
                           (join Generate.OUTPUT_DIR (lit "404.html"),
                            Generate.notFoundHtml);
                           (join Generate.OUTPUT_DIR (lit "sitemap.xml"),
                            Generate.sitemapXml ps) ] ++ robots
                  /\ (robots = []
                      \/ robots = [ (join Generate.OUTPUT_DIR (lit "robots.txt"),
                                     Generate.robotsTxt) ])).
Proof.
  intros Hs ps. split.
  { apply Forall_forall. intros q Hq E.
    apply (selected_not_excluded toLowerCase attachmentFile data q Hq).
    rewrite E. exact Hs. }
  unfold Generate.main. cbv zeta. fold ps.
  pose proof (postPages_of parse decode existsSync ps None (Generate.image_map data)) as Hof.
  pose proof (postPages_complete parse decode existsSync ps None (Generate.image_map data)) as Hall.
  destruct (Generate.postPages parse decode existsSync None ps (Generate.image_map data))
    as [pages ok].
  cbn [fst snd] in Hof, Hall.
  destruct ok.
  - exists pages. eexists. exists true. split; [reflexivity|].
    split; [exact Hof|]. split; [discriminate|]. intros _.
    split; [apply Hall; reflexivity|].
    eexists. split; [reflexivity|].
    destruct (existsSync _); [left | right]; reflexivity.
  - exists pages, [], false. rewrite app_nil_r. split; [reflexivity|].
    split; [exact Hof|]. split; [reflexivity | discriminate].
Qed.

Lemma excluded_slug_never_rendered_witness :
  Forall (fun q => Generate.slug q <> lit "brouillon")
    (Generate.selectPosts Plain.toLowerCase (Some [lit "brouillon"]) oldAndUndated)
  /\ exists pages rest ok,
       Generate.main Plain.toLowerCase Plain.parse Plain.decode (Plain.disk [])
         (Some [lit "brouillon"]) [] oldAndUndated
       = ((join Generate.OUTPUT_DIR (lit "style.css"), []) :: pages ++ rest, ok)
       /\ (forall f, In f pages ->
             exists q prev next,
               In q (Generate.selectPosts Plain.toLowerCase (Some [lit "brouillon"])
                       oldAndUndated)
               /\ fst f = Generate.postPath q
               /\ Generate.generatePostPage Plain.parse Plain.decode (Plain.disk [])
                    q prev next (Generate.image_map oldAndUndated) = Some (snd f))
       /\ (ok = false -> rest = [])
       /\ (ok = true ->
             map fst pages
             = map Generate.postPath
                 (Generate.selectPosts Plain.toLowerCase (Some [lit "brouillon"])
                    oldAndUndated)
             /\ exists robots,
                  rest = [ (join Generate.OUTPUT_DIR (lit "index.html"),
                            Generate.generateHomepage Plain.parse Plain.decode
                              (Generate.selectPosts Plain.toLowerCase
                                 (Some [lit "brouillon"]) oldAndUndated));
                           (join Generate.OUTPUT_DIR (lit "CNAME"),
                            lit "lespetitsvendredis.com" ++ Generate.nl);
                           (join Generate.OUTPUT_DIR (lit ".nojekyll"), []);
                           (join Generate.OUTPUT_DIR (lit "404.html"),
                            Generate.notFoundHtml);
                           (join Generate.OUTPUT_DIR (lit "sitemap.xml"),
                            Generate.sitemapXml
                              (Generate.selectPosts Plain.toLowerCase
                                 (Some [lit "brouillon"]) oldAndUndated)) ] ++ robots
                  /\ (robots = []
                      \/ robots = [ (join Generate.OUTPUT_DIR (lit "robots.txt"),
                                     Generate.robotsTxt) ])).
Proof.
  apply (excluded_slug_never_rendered Plain.toLowerCase Plain.parse Plain.decode
           (Plain.disk []) (Some [lit "brouillon"]) [] oldAndUndated
           (lit "brouillon")).
  left. reflexivity.
Defined.




(** ** Escaping *)

(** C10. [escapeHtml] replaces each ampersand, angle bracket and double
    quote by its entity and leaves every other character, the single
    quote among them; escaped text holds no angle bracket and no double
    quote; and the markup skeleton of a post page and of the homepage
    (their angle brackets and double quotes, in order) does not depend on
    the titles, date strings, excerpts, comment authors and comment
    texts of the posts. *)
Theorem escaped_fields_add_no_markup
    (parse : jsstring -> list html) (decode : jsstring -> jsstring)
    (existsSync : jsstring -> bool) :
  (forall s, Generate.escapeHtml s = flat_map escapeChar s)
  /\ escapeChar 39 = [39%N]
  /\ (forall s, markup (Generate.escapeHtml s) = [])
  /\ (forall title excerpt,
        markup (Generate.htmlHead title excerpt) = markup (Generate.htmlHead [] []))
  /\ (forall post post' prev prev' next next' m,
        sameFrame post post' -> sameLink prev prev' -> sameLink next next' ->
        option_map markup
          (Generate.generatePostPage parse decode existsSync post prev next m)
        = option_map markup
            (Generate.generatePostPage parse decode existsSync post' prev' next' m))
  /\ (forall ps qs,
        Forall2 sameSlug ps qs ->
        markup (Generate.generateHomepage parse decode ps)
        = markup (Generate.generateHomepage parse decode qs)).
Proof.
  split; [apply escapeHtml_chars|].
  split; [reflexivity|].
  split; [apply markup_escapeHtml|].
  split; [apply markup_htmlHead|].
  split.
  - intros post post' prev prev' next next' m.
    apply (markup_postPage parse decode existsSync).
  - apply (markup_homepage parse decode).
Qed.
